(** * A character-level HMM spelling fixer: model and verification

    Shallow embedding of [spelling_fixer.py]: the count tables built from the
    aspell corpus, the smoothed emission / transition / start tables, the
    log-space Viterbi decoder, the sentence corrector and the interactive
    loop of [main].

    Conventions of the embedding.
    - A Python [str], like a list of characters, is a [list ascii]; literals
      are written [chars "..."].  Characters are code points below 256.
    - [Counter] and the tables [E], [T], [start] are finite maps ([gmap]);
      the per-time-step dicts [M[time]] and [Backpointers[time]], whose
      iteration order is observable through [max], are insertion-ordered
      association lists.
    - Python floats are idealised: counts and probabilities are exact
      rationals ([Q]); log-scores live in an ordered additive structure
      ([Score]) whose intended instance is the reals with the natural
      logarithm.  Rounding, infinities and NaN are outside the model.
    - A Python exception is a value [Raise e] of the [result] type. *)

From Stdlib Require Import List Ascii String QArith Reals Qreals Lia Lra.
From Stdlib Require Lqa.
From stdpp Require Import base gmap strings.

Local Open Scope list_scope.

(** ** Exceptions *)

Inductive exn : Type := KeyError | TypeError | ValueError.

Inductive result (A : Type) : Type :=
| Ok (a : A)
| Raise (e : exn).
Arguments Ok {A} a.
Arguments Raise {A} e.

#[global] Instance result_ret : MRet result := fun A a => Ok a.
#[global] Instance result_bind : MBind result := fun A B k r =>
  match r with
  | Ok a => k a
  | Raise e => Raise e
  end.

Definition of_option {A} (e : exn) (o : option A) : result A :=
  match o with
  | Some a => Ok a
  | None => Raise e
  end.

(** ** Strings *)

Module PyStr.

(** [c in l] for a list [l] of characters. *)
Definition In_list (c : ascii) (l : list ascii) : bool :=
  existsb (Ascii.eqb c) l.

(** [str.isspace] on one character (code points below 256). *)
Definition isspace (c : ascii) : bool :=
  let n := N_of_ascii c in
  ((9 <=? n) && (n <=? 13) || (28 <=? n) && (n <=? 32)
   || (n =? 133) || (n =? 160))%N.

(** [str.lower] on one character (code points below 256). *)
Definition lower_char (c : ascii) : ascii :=
  let n := N_of_ascii c in
  if ((65 <=? n) && (n <=? 90) || (192 <=? n) && (n <=? 214)
      || (216 <=? n) && (n <=? 222))%N
  then ascii_of_N (n + 32) else c.

Definition lower (s : list ascii) : list ascii := map lower_char s.

Fixpoint lstrip (s : list ascii) : list ascii :=
  match s with
  | c :: s' => if isspace c then lstrip s' else s
  | [] => []
  end.

(** [s.strip()] *)
Definition strip (s : list ascii) : list ascii :=
  rev (lstrip (rev (lstrip s))).

(** [s.split()]: maximal runs of non-space characters; [cur] is the run
    being read, most recent character first. *)
Fixpoint split_from (s : list ascii) (cur : list ascii) : list (list ascii) :=
  match s with
  | [] => match cur with [] => [] | _ => [rev cur] end
  | c :: s' =>
      if isspace c
      then match cur with
           | [] => split_from s' []
           | _ => rev cur :: split_from s' []
           end
      else split_from s' (c :: cur)
  end.

Definition split (s : list ascii) : list (list ascii) := split_from s [].

(** [s.split(sep, 1)] when [sep in s]: the text before the first [sep]
    and the text after it; [None] when [sep] does not occur. *)
Fixpoint split_once (sep : ascii) (s : list ascii)
  : option (list ascii * list ascii) :=
  match s with
  | [] => None
  | c :: s' =>
      if Ascii.eqb c sep then Some ([], s')
      else match split_once sep s' with
           | Some (a, b) => Some (c :: a, b)
           | None => None
           end
  end.

(** [sep.join(parts)] *)
Fixpoint join (sep : list ascii) (parts : list (list ascii)) : list ascii :=
  match parts with
  | [] => []
  | [p] => p
  | p :: ps => p ++ sep ++ join sep ps
  end.

End PyStr.

Definition chars (s : string) : list ascii := list_ascii_of_string s.

(** ** Counters *)

(** [c[k]] on a [Counter]: a missing key reads as 0 and is not inserted. *)
Definition counter_get (c : gmap ascii nat) (k : ascii) : nat :=
  default 0 (c !! k).

(** [c[k] += 1] *)
Definition counter_incr (k : ascii) (c : gmap ascii nat) : gmap ascii nat :=
  <[k := counter_get c k + 1]> c.

(** [sum(c.values())] *)
Definition counter_total (c : gmap ascii nat) : nat :=
  map_fold (fun _ v acc => v + acc) 0 c.

(** [d[k]] on a [defaultdict(Counter)]: a missing key reads as the empty
    counter.  (Python also stores that empty counter under [k]; no count
    changes, and the model leaves the map as it is.) *)
Definition dd_get (d : gmap ascii (gmap ascii nat)) (k : ascii)
  : gmap ascii nat :=
  default ∅ (d !! k).

(** [d[a][b] += 1] *)
Definition dd_incr (a b : ascii) (d : gmap ascii (gmap ascii nat))
  : gmap ascii (gmap ascii nat) :=
  <[a := counter_incr b (dd_get d a)]> d.

(** ** Training: counts *)

Definition alphabet : list ascii := chars "abcdefghijklmnopqrstuvwxyz'".

(** [[c for c in s if c in alphabet]] *)
Definition letters_of (abc : list ascii) (s : list ascii) : list ascii :=
  List.filter (fun c => PyStr.In_list c abc) s.

Record counts : Type := Counts {
  emission_counts : gmap ascii (gmap ascii nat);
  transition_counts : gmap ascii (gmap ascii nat);
  start_counts : gmap ascii nat
}.

Definition no_counts : counts := Counts ∅ ∅ ∅.

(** The body of [for typo in typos]: the positions [i] of
    [range(len(correct_letters))] are walked by pairing the two lists, which
    have the same length when the loop runs. *)
Definition learn_typo (correct_letters : list ascii)
    (ec : gmap ascii (gmap ascii nat)) (typo : list ascii)
  : gmap ascii (gmap ascii nat) :=
  let typo_letters := letters_of alphabet typo in
  if Nat.eqb (length correct_letters) (length typo_letters)
  then fold_left (fun ec '(correct_char, typed_char) =>
                    dd_incr correct_char typed_char ec)
                 (combine correct_letters typo_letters) ec
  else ec.

(** [for i in range(len(correct_letters) - 1)]: every adjacent pair. *)
Fixpoint learn_transitions (correct_letters : list ascii)
    (tc : gmap ascii (gmap ascii nat)) : gmap ascii (gmap ascii nat) :=
  match correct_letters with
  | curr :: ((next_char :: _) as rest) =>
      learn_transitions rest (dd_incr curr next_char tc)
  | _ => tc
  end.

(** One corpus entry: the correct word and its typos, as split from a line. *)
Definition learn_entry (st : counts) (correct_word : list ascii)
    (typos : list (list ascii)) : counts :=
  let correct_letters := letters_of alphabet correct_word in
  match correct_letters with
  | [] => st
  | first :: _ =>
      {| emission_counts :=
           fold_left (learn_typo correct_letters) typos (emission_counts st);
         transition_counts :=
           learn_transitions correct_letters (transition_counts st);
         start_counts := counter_incr first (start_counts st) |}
  end.

(** The body of [for line in f]. *)
Definition learn_line (st : counts) (line : list ascii) : counts :=
  let line := PyStr.lower (PyStr.strip line) in
  match line with
  | [] => st
  | _ =>
      match PyStr.split_once ":" line with
      | None => st
      | Some (part0, part1) =>
          learn_entry st (PyStr.strip part0) (PyStr.split (PyStr.strip part1))
      end
  end.

Definition learn_lines (lines : list (list ascii)) : counts :=
  fold_left learn_line lines no_counts.

(** ** Training: probability tables *)

Definition V : nat := length alphabet.
Definition smoothing : Q := 0.01.

(** An [int] used in float arithmetic. *)
Definition Qnat (n : nat) : Q := inject_Z (Z.of_nat n).

(** [E[correct]], the inner loop [for typed in alphabet]. *)
Definition emission_row (cnt : gmap ascii nat) (correct : ascii)
  : gmap ascii Q :=
  let total := (Qnat (counter_total cnt) + Qnat V * smoothing)%Q in
  fold_left (fun row typed =>
               let count := counter_get cnt typed in
               let count :=
                 if Ascii.eqb correct typed then count + 5 else count in
               <[typed := ((Qnat count + smoothing) / total)%Q]> row)
            alphabet ∅.

(** [T[curr]], the inner loop [for next_char in alphabet]. *)
Definition transition_row (cnt : gmap ascii nat) : gmap ascii Q :=
  let total := (Qnat (counter_total cnt) + Qnat V * smoothing)%Q in
  fold_left (fun row next_char =>
               let count := counter_get cnt next_char in
               <[next_char := ((Qnat count + smoothing) / total)%Q]> row)
            alphabet ∅.

Definition emission_table (ec : gmap ascii (gmap ascii nat))
  : gmap ascii (gmap ascii Q) :=
  fold_left (fun E correct =>
               <[correct := emission_row (dd_get ec correct) correct]> E)
            alphabet ∅.

Definition transition_table (tc : gmap ascii (gmap ascii nat))
  : gmap ascii (gmap ascii Q) :=
  fold_left (fun T curr => <[curr := transition_row (dd_get tc curr)]> T)
            alphabet ∅.

Definition start_table (sc : gmap ascii nat) : gmap ascii Q :=
  let total_start := (Qnat (counter_total sc) + Qnat V * smoothing)%Q in
  fold_left (fun start_prob letter =>
               let count := counter_get sc letter in
               <[letter := ((Qnat count + smoothing) / total_start)%Q]>
                 start_prob)
            alphabet ∅.

Record HMM : Type := Hmm {
  hmm_alphabet : list ascii;
  hmm_E : gmap ascii (gmap ascii Q);
  hmm_T : gmap ascii (gmap ascii Q);
  hmm_start : gmap ascii Q;
  hmm_emission_counts : gmap ascii (gmap ascii nat)
}.

Definition hmm_of_counts (st : counts) : HMM :=
  {| hmm_alphabet := alphabet;
     hmm_E := emission_table (emission_counts st);
     hmm_T := transition_table (transition_counts st);
     hmm_start := start_table (start_counts st);
     hmm_emission_counts := emission_counts st |}.

(** The model trained on the lines of a corpus. *)
Definition train (lines : list (list ascii)) : HMM :=
  hmm_of_counts (learn_lines lines).

(** [build_hmm_from_aspell(filename)]; the file is given by its lines, or
    [None] when [os.path.exists(filename)] is false. *)
Definition build_hmm_from_aspell (file : option (list (list ascii)))
  : option HMM :=
  match file with
  | None => None
  | Some lines => Some (train lines)
  end.

(** ** Log-scores *)

(** The arithmetic the decoder performs on log-probabilities: [+], [>], the
    constant [LOG_ZERO] and [math.log], which raises [ValueError] outside
    its domain ([None] here).  The comparison is a strict total order, as it
    is on the reals. *)
Class Score : Type := {
  score : Type;
  score_add : score -> score -> score;
  score_gtb : score -> score -> bool;
  LOG_ZERO : score;
  math_log : Q -> option score;
  score_gtb_irrefl : forall a, score_gtb a a = false;
  score_gtb_trans : forall a b c,
    score_gtb a b = true -> score_gtb b c = true -> score_gtb a c = true;
  score_gtb_total : forall a b,
    score_gtb a b = false -> score_gtb b a = false -> a = b;
  math_log_domain : forall x, math_log x = None <-> (x <= 0)%Q
}.

Declare Scope score_scope.
Delimit Scope score_scope with score.
Infix "+" := score_add : score_scope.
Infix ">?" := score_gtb : score_scope.

(** ** Insertion-ordered dicts *)

Section Dict.
Context {K V : Type} `{EqDecision K}.

Definition dict : Type := list (K * V).

(** [d[k]], [None] for [KeyError] *)
Fixpoint dict_get (d : dict) (k : K) : option V :=
  match d with
  | [] => None
  | (k', v) :: d' => if decide (k = k') then Some v else dict_get d' k
  end.

(** [d[k] = v]: an existing key keeps its place, a new key goes last. *)
Fixpoint dict_set (d : dict) (k : K) (v : V) : dict :=
  match d with
  | [] => [(k, v)]
  | (k', v') :: d' =>
      if decide (k = k') then (k, v) :: d' else (k', v') :: dict_set d' k v
  end.

Definition dict_keys (d : dict) : list K := map fst d.
End Dict.
Arguments dict : clear implicits.

(** A loop whose body may raise. *)
Fixpoint foldM {A B : Type} (f : B -> A -> result B) (l : list A) (b : B)
  : result B :=
  match l with
  | [] => Ok b
  | a :: l' => b' ← f b a; foldM f l' b'
  end.

(** ** Decoding *)

Section Decoder.
Context {S : Score}.
Local Open Scope score_scope.

Definition safe_log (x : Q) : result score :=
  if Qle_bool x 0 then Ok LOG_ZERO
  else of_option ValueError (math_log x).

(** [tbl[a][b]] on a dict of dicts *)
Definition lookup2 (tbl : gmap ascii (gmap ascii Q)) (a b : ascii)
  : result Q :=
  row ← of_option KeyError (tbl !! a);
  of_option KeyError (row !! b).

(** INITIALIZATION: the score [M[0][state]]. *)
Definition init_score (hmm : HMM) (o0 : ascii) (state : ascii)
  : result score :=
  p ← of_option KeyError (hmm_start hmm !! state);
  lp ← safe_log p;
  e ← lookup2 (hmm_E hmm) state o0;
  le ← safe_log e;
  Ok (lp + le).

(** INITIALIZATION, the body of [for state in alphabet]. *)
Definition init_state (hmm : HMM) (o0 : ascii)
    (MB : dict ascii score * dict ascii (option ascii)) (state : ascii)
  : result (dict ascii score * dict ascii (option ascii)) :=
  v ← init_score hmm o0 state;
  Ok (dict_set MB.1 state v, dict_set MB.2 state None).

(** RECURSION: the value [val] that [prev_state] offers to [state]. *)
Definition candidate (hmm : HMM) (Mprev : dict ascii score)
    (state o : ascii) (prev_state : ascii) : result score :=
  m ← of_option KeyError (dict_get Mprev prev_state);
  t ← lookup2 (hmm_T hmm) prev_state state;
  lt ← safe_log t;
  e ← lookup2 (hmm_E hmm) state o;
  le ← safe_log e;
  Ok (m + lt + le).

(** RECURSION, the body of [for prev_state in alphabet]; the accumulator
    is [(max_val, best_prev)]. *)
Definition try_prev (hmm : HMM) (Mprev : dict ascii score)
    (state o : ascii) (acc : score * option ascii) (prev_state : ascii)
  : result (score * option ascii) :=
  val ← candidate hmm Mprev state o prev_state;
  Ok (if val >? acc.1 then (val, Some prev_state) else acc).

(** RECURSION: [(max_val, best_prev)] after the loop over [prev_state]. *)
Definition best_prev (hmm : HMM) (Mprev : dict ascii score)
    (o : ascii) (state : ascii) : result (score * option ascii) :=
  foldM (try_prev hmm Mprev state o) (hmm_alphabet hmm) (LOG_ZERO, None).

(** RECURSION, the body of [for state in alphabet]. *)
Definition step_state (hmm : HMM) (Mprev : dict ascii score) (o : ascii)
    (MB : dict ascii score * dict ascii (option ascii)) (state : ascii)
  : result (dict ascii score * dict ascii (option ascii)) :=
  best ← best_prev hmm Mprev o state;
  Ok (dict_set MB.1 state best.1, dict_set MB.2 state best.2).

(** RECURSION, [for time in range(1, t)]: [Mprev] is [M[time-1]] and
    [obs] is [O[time:]]; the result is [M[time:]] and
    [Backpointers[time:]]. *)
Fixpoint recursion (hmm : HMM) (Mprev : dict ascii score)
    (obs : list ascii)
  : result (list (dict ascii score) * list (dict ascii (option ascii))) :=
  match obs with
  | [] => Ok ([], [])
  | o :: obs' =>
      MB ← foldM (step_state hmm Mprev o) (hmm_alphabet hmm) ([], []);
      rest ← recursion hmm MB.1 obs';
      Ok (MB.1 :: rest.1, MB.2 :: rest.2)
  end.

(** INITIALIZATION and RECURSION on the observations [o0 :: obs]: the
    tables [M] and [Backpointers], one row per time step. *)
Definition forward (hmm : HMM) (o0 : ascii) (obs : list ascii)
  : result (list (dict ascii score) * list (dict ascii (option ascii))) :=
  MB0 ← foldM (init_state hmm o0) (hmm_alphabet hmm) ([], []);
  rest ← recursion hmm MB0.1 obs;
  Ok (MB0.1 :: rest.1, MB0.2 :: rest.2).

(** [max(d, key=d.get)]: the keys are visited in insertion order and a
    later key replaces the current one only when its value is greater. *)
Fixpoint max_from (d : dict ascii score) (best : ascii) (best_val : score)
  : ascii :=
  match d with
  | [] => best
  | (k, v) :: d' =>
      if v >? best_val then max_from d' k v else max_from d' best best_val
  end.

Definition py_max (d : dict ascii score) : result ascii :=
  match d with
  | [] => Raise ValueError
  | (k, v) :: d' => Ok (max_from d' k v)
  end.

(** BACKTRACK: [rows] is [Backpointers[time]] for [time] from the current
    one down to 1; the result is [path] before [path.reverse()]. *)
Fixpoint backtrack (rows : list (dict ascii (option ascii)))
    (best : option ascii) : result (list (option ascii)) :=
  match rows with
  | [] => Ok [best]
  | row :: rows' =>
      prev ← match best with
             | Some b => of_option KeyError (dict_get row b)
             | None => Raise KeyError
             end;
      path ← backtrack rows' prev;
      Ok (best :: path)
  end.

(** [''.join(path)]: [TypeError] when an item is [None]. *)
Fixpoint join_path (path : list (option ascii)) : result (list ascii) :=
  match path with
  | [] => Ok []
  | Some c :: path' => s ← join_path path'; Ok (c :: s)
  | None :: _ => Raise TypeError
  end.

(** TERMINATION and BACKTRACK on the tables: [M[t-1]] is the last row of
    [M]; the row [Backpointers[0]] is never read. *)
Definition decode_tables
    (tables : list (dict ascii score) * list (dict ascii (option ascii)))
  : result (list ascii) :=
  best ← py_max (List.last tables.1 []);
  path ← backtrack (rev (tail tables.2)) (Some best);
  join_path (rev path).

Definition viterbi (observations : list ascii) (hmm : HMM)
  : result (list ascii) :=
  let O := letters_of (hmm_alphabet hmm) (PyStr.lower observations) in
  match O with
  | [] => Ok observations
  | o0 :: obs => tables ← forward hmm o0 obs; decode_tables tables
  end.

Definition correct_sentence (text : list ascii) (hmm : HMM)
  : result (list ascii) :=
  corrected ← foldM (fun corrected word =>
                       corrected_word ← viterbi word hmm;
                       Ok (corrected ++ [corrected_word]))
                    (PyStr.split text) [];
  Ok (PyStr.join (chars " ") corrected).

End Decoder.

(** ** The interactive loop of [main] *)

(** How the loop [while True] of [main] ends: by a blank line, by an
    exception that [correct_sentence] raises, or by the [EOFError] of
    [input] when no line is left. *)
Inductive loop_end : Type :=
| Quit
| Uncaught (e : exn)
| EOFError.

(** What [input("\nEnter text: ")] writes before it reads. *)
Definition prompt : list ascii := "010"%char :: chars "Enter text: ".

(** What [print(s)] writes. *)
Definition print (s : list ascii) : list ascii := s ++ ["010"%char].

Section Main.
Context {Sc : Score}.

(** The loop on the lines that [input] returns one after the other: the
    strings written to the standard output, in order, and the way the loop
    ends. *)
Fixpoint interactive_loop (hmm : HMM) (stdin : list (list ascii))
  : list (list ascii) * loop_end :=
  match stdin with
  | [] => ([prompt], EOFError)
  | line :: stdin' =>
      let text := PyStr.strip line in
      match text with
      | [] => ([prompt; print (chars "Goodbye!")], Quit)
      | _ =>
          match correct_sentence text hmm with
          | Raise e => ([prompt], Uncaught e)
          | Ok corrected =>
              let rest := interactive_loop hmm stdin' in
              (prompt :: print (chars "Corrected: " ++ corrected) :: rest.1,
               rest.2)
          end
      end
  end.

End Main.

(** ** Instances of the score arithmetic *)

(** The reals with the natural logarithm: the arithmetic the Python floats
    approximate. *)
Definition Rgtb (a b : R) : bool := if Rgt_dec a b then true else false.

Definition R_log (x : Q) : option R :=
  if Qle_bool x 0 then None else Some (ln (Q2R x)).

#[program] Definition RScore : Score :=
  {| score := R; score_add := Rplus; score_gtb := Rgtb;
     LOG_ZERO := (-1e9)%R; math_log := R_log |}.
Next Obligation. intros a. unfold Rgtb. destruct (Rgt_dec a a); [lra | reflexivity]. Qed.
Next Obligation.
  intros a b c. unfold Rgtb.
  destruct (Rgt_dec a b), (Rgt_dec b c), (Rgt_dec a c);
    intros; try discriminate; try reflexivity; lra.
Qed.
Next Obligation.
  intros a b. unfold Rgtb.
  destruct (Rgt_dec a b), (Rgt_dec b a); intros; try discriminate; lra.
Qed.
Next Obligation.
  intros x. unfold R_log. destruct (Qle_bool x 0) eqn:E.
  - apply Qle_bool_iff in E. tauto.
  - split; [discriminate|]. intros H. apply Qle_bool_iff in H. congruence.
Qed.

(** Integers with a fixed-point logarithm: an executable arithmetic with
    the same order structure, for running the decoder on examples.  [Z_log x]
    approximates [16 * log2 x], linearly between powers of two. *)
Definition Z_log (x : Q) : option Z :=
  if Qle_bool x 0 then None
  else
    let y := ((Qnum x * 2 ^ 64) / Zpos (Qden x))%Z in
    let e := Z.log2 y in
    Some (16 * (e - 64) + (16 * (y - 2 ^ e)) / 2 ^ e)%Z.

#[program] Definition ZScore : Score :=
  {| score := Z; score_add := Z.add; score_gtb := Z.gtb;
     LOG_ZERO := (-1000000000)%Z; math_log := Z_log |}.
Next Obligation. intros a. lia. Qed.
Next Obligation. intros a b c. lia. Qed.
Next Obligation. intros a b. lia. Qed.
Next Obligation.
  intros x. unfold Z_log. destruct (Qle_bool x 0) eqn:E.
  - apply Qle_bool_iff in E. tauto.
  - split; [discriminate|]. intros H. apply Qle_bool_iff in H. congruence.
Qed.

Definition sample_corpus : list (list ascii) :=
  [chars "the: teh hte"; chars "receive: recieve"].
Definition sample_hmm : HMM := train sample_corpus.

(** A hand-built model whose hidden symbol never changes and is typed as
    itself, started at [a]:
    [E = T = {s: {o: 1.0 if s == o else 0.0 for o in alphabet} for s in alphabet}],
    [start = E['a']]. *)
Definition indicator_row (s : ascii) : gmap ascii Q :=
  fold_left (fun row o => <[o := if Ascii.eqb s o then 1%Q else 0%Q]> row)
            alphabet ∅.

Definition indicator_table : gmap ascii (gmap ascii Q) :=
  fold_left (fun tbl s => <[s := indicator_row s]> tbl) alphabet ∅.

Definition frozen_hmm : HMM :=
  {| hmm_alphabet := alphabet;
     hmm_E := indicator_table;
     hmm_T := indicator_table;
     hmm_start := indicator_row "a";
     hmm_emission_counts := ∅ |}.

(** * Vocabulary of the properties *)

(** ** Tables and counts *)

(** The map a loop [for k in l: m[k] = f(k)] builds from [m0]. *)
Definition build {V : Type} (f : ascii -> V) (l : list ascii)
    (m0 : gmap ascii V) : gmap ascii V :=
  fold_left (fun m k => <[k := f k]> m) l m0.

(** Every key of the counter is a symbol of [abc]. *)
Definition counter_ok (abc : list ascii) (c : gmap ascii nat) : Prop :=
  forall k, is_Some (c !! k) -> k ∈ abc.

(** Every counter of the [defaultdict] has its keys in [abc]. *)
Definition dd_ok (abc : list ascii) (d : gmap ascii (gmap ascii nat)) : Prop :=
  forall a c, d !! a = Some c -> counter_ok abc c.

(** Training only counts alphabet symbols. *)
Record counts_ok (st : counts) : Prop := {
  emission_ok : dd_ok alphabet (emission_counts st);
  transition_ok : dd_ok alphabet (transition_counts st);
  start_ok : counter_ok alphabet (start_counts st)
}.

(** [tbl[a][b]], [None] when a key is missing. *)
Definition table_get (tbl : gmap ascii (gmap ascii Q)) (a b : ascii)
  : option Q :=
  tbl !! a ≫= fun row => row !! b.

(** [sum(d.values())] *)
Definition dist_sum (d : gmap ascii Q) : Q :=
  map_fold (fun _ p acc => (p + acc)%Q) 0%Q d.

(** The sum of a list of rationals. *)
Definition Qsum (l : list Q) : Q := foldr Qplus 0%Q l.

(** The row total of the training loops: [sum(cnt.values()) + V * smoothing]. *)
Definition row_total (cnt : gmap ascii nat) : Q :=
  (Qnat (counter_total cnt) + Qnat V * smoothing)%Q.

(** The largest row total of the counts. *)
Definition count_bound (st : counts) : nat :=
  list_max
    (((fun s => counter_total (dd_get (emission_counts st) s)) <$> alphabet)
     ++ ((fun s => counter_total (dd_get (transition_counts st) s))
           <$> alphabet)
     ++ [counter_total (start_counts st)]).

(** The least probability a model trained from [st] can hold. *)
Definition trained_floor (st : counts) : Q :=
  (0.01 / (Qnat (count_bound st) + 27 * 0.01))%Q.

(** ** Symbols *)

(** A lowercase letter [a]..[z] or the apostrophe. *)
Definition is_lower_symbol (c : ascii) : bool :=
  let n := N_of_ascii c in ((97 <=? n) && (n <=? 122) || (n =? 39))%N.

(** An uppercase letter [A]..[Z]. *)
Definition is_upper (c : ascii) : bool :=
  let n := N_of_ascii c in ((65 <=? n) && (n <=? 90))%N.

(** ** Rows and maxima of the decoder *)

Section Vocabulary.
Context {S : Score}.
Local Open Scope score_scope.

(** The rows written by [for state in alphabet] when the body stores
    [g state]. *)
Definition fill_rows (g : ascii -> result (score * option ascii))
    (l : list ascii) (MB : dict ascii score * dict ascii (option ascii))
  : result (dict ascii score * dict ascii (option ascii)) :=
  foldM (fun MB state =>
           r ← g state;
           Ok (dict_set MB.1 state r.1, dict_set MB.2 state r.2)) l MB.

(** The loop [if val > max_val: max_val, best = val, key] over a list of
    keys with their values. *)
Fixpoint scan (l : list (ascii * score)) (acc : score * option ascii)
  : score * option ascii :=
  match l with
  | [] => acc
  | (k, v) :: l' => scan l' (if v >? acc.1 then (v, Some k) else acc)
  end.

(** [(k, v)] is the first maximum of [l]: [v] is greater than every value
    before it and no value after it is greater than [v]. *)
Definition first_max (l : list (ascii * score)) (k : ascii) (v : score)
  : Prop :=
  exists l1 l2, l = l1 ++ (k, v) :: l2 /\
    Forall (fun x => (v >? x.2) = true) l1 /\
    Forall (fun x => (x.2 >? v) = false) l2.

(** [Mt] and [Bt] are the rows the loop over the alphabet writes when its
    body stores [g state] under [state]. *)
Definition row_of (g : ascii -> result (score * option ascii))
    (abc : list ascii) (Mt : dict ascii score)
    (Bt : dict ascii (option ascii)) : Prop :=
  exists rs,
    Forall2 (fun s r => g s = Ok r) abc rs /\
    Mt = zip abc (fst <$> rs) /\ Bt = zip abc (snd <$> rs).

(** The rows of the time steps [1 ..], each computed from the row before. *)
Inductive rows_from (hmm : HMM) :
  dict ascii score -> list ascii ->
  list (dict ascii score) -> list (dict ascii (option ascii)) -> Prop :=
| rows_nil Mprev : rows_from hmm Mprev [] [] []
| rows_cons Mprev o obs Mt Bt Ms Bs :
    row_of (best_prev hmm Mprev o) (hmm_alphabet hmm) Mt Bt ->
    rows_from hmm Mt obs Ms Bs ->
    rows_from hmm Mprev (o :: obs) (Mt :: Ms) (Bt :: Bs).

End Vocabulary.

(** A backpointer row that sends every symbol to a symbol. *)
Definition good_row (abc : list ascii) (B : dict ascii (option ascii))
  : Prop :=
  forall k, k ∈ abc -> exists p, p ∈ abc /\ dict_get B k = Some (Some p).

(** The least log-probability of the model, at most 0. *)
Definition lnmin (pmin : Q) : R := ln (Q2R pmin).

(** A score row that has every symbol, with scores at least [b]. *)
Definition row_ge (hmm : HMM) (b : R) (M : dict ascii (@score RScore))
  : Prop :=
  forall p, p ∈ hmm_alphabet hmm ->
            exists m : R, dict_get M p = Some m /\ (b <= m)%R.

(** The scores of [frozen_hmm] on the word ["ab"]: [M[0][s]], and the
    candidate that [p] offers to [s] at time 1. *)
Definition frozen_init (s : ascii) : R :=
  ((if Ascii.eqb "a" s then 0 else -1e9)
   + (if Ascii.eqb s "a" then 0 else -1e9))%R.

Definition frozen_cand (s p : ascii) : R :=
  (frozen_init p + (if Ascii.eqb p s then 0 else -1e9)
   + (if Ascii.eqb s "b" then 0 else -1e9))%R.

(** ** What a corpus line asks to count *)

(** The filtered correct word and the typos of a line, when the line has a
    colon and its correct word has a letter. *)
Definition entry_of_line (line : list ascii)
  : option (list ascii * list (list ascii)) :=
  match PyStr.split_once ":" (PyStr.lower (PyStr.strip line)) with
  | None => None
  | Some (part0, part1) =>
      match letters_of alphabet (PyStr.strip part0) with
      | [] => None
      | correct_letters =>
          Some (correct_letters, PyStr.split (PyStr.strip part1))
      end
  end.

(** The pairs (correct letter, typed letter) of a line: position by
    position, for the typos whose filtered length is that of the correct
    word. *)
Definition emission_pairs (line : list ascii) : list (ascii * ascii) :=
  match entry_of_line line with
  | None => []
  | Some (correct_letters, typos) =>
      concat
        (map (fun typo =>
                let typo_letters := letters_of alphabet typo in
                if Nat.eqb (length correct_letters) (length typo_letters)
                then combine correct_letters typo_letters
                else [])
             typos)
  end.

(** The pairs of adjacent letters of the correct word of a line. *)
Definition transition_pairs (line : list ascii) : list (ascii * ascii) :=
  match entry_of_line line with
  | None => []
  | Some (correct_letters, _) => combine correct_letters (tail correct_letters)
  end.

(** The first letter of the correct word of a line. *)
Definition start_keys (line : list ascii) : list ascii :=
  match entry_of_line line with
  | None => []
  | Some (correct_letters, _) => firstn 1 correct_letters
  end.

(** The number of occurrences of [x] in [l]. *)
Fixpoint occurrences {A : Type} `{EqDecision A} (x : A) (l : list A) : nat :=
  match l with
  | [] => 0
  | y :: l' => (if decide (y = x) then 1 else 0) + occurrences x l'
  end.

(** [d[a][b] += 1] for every pair of a list, and [c[k] += 1] for every key
    of a list. *)
Definition incr_pairs (ps : list (ascii * ascii))
    (d : gmap ascii (gmap ascii nat)) : gmap ascii (gmap ascii nat) :=
  fold_left (fun d '(a, b) => dd_incr a b d) ps d.

Definition incr_keys (ks : list ascii) (c : gmap ascii nat)
  : gmap ascii nat :=
  fold_left (fun c k => counter_incr k c) ks c.

(** ** The weight of a hidden path *)

(** [start[s]], [E[s][o]] and [T[p][s]]; 0 where the table has no entry. *)
Definition start_prob (hmm : HMM) (s : ascii) : Q :=
  default 0%Q (hmm_start hmm !! s).

Definition emit_prob (hmm : HMM) (s o : ascii) : Q :=
  default 0%Q (table_get (hmm_E hmm) s o).

Definition trans_prob (hmm : HMM) (p s : ascii) : Q :=
  default 0%Q (table_get (hmm_T hmm) p s).

(** The product of [T[prev][s] * E[s][o]] along the part of a path that
    follows the symbol [prev]. *)
Fixpoint chain_prob (hmm : HMM) (prev : ascii) (path obs : list ascii) : Q :=
  match path, obs with
  | s :: path', o :: obs' =>
      (trans_prob hmm prev s * emit_prob hmm s o
       * chain_prob hmm s path' obs')%Q
  | _, _ => 1%Q
  end.

(** The weight the model gives to the hidden symbols [path] together with
    the observations [obs]:
    [start[p0] * E[p0][o0] * T[p0][p1] * E[p1][o1] * ...]. *)
Definition path_prob (hmm : HMM) (path obs : list ascii) : Q :=
  match path, obs with
  | s :: path', o :: obs' =>
      (start_prob hmm s * emit_prob hmm s o * chain_prob hmm s path' obs')%Q
  | _, _ => 1%Q
  end.

(** The same weight in log space, as the sum the decoder accumulates. *)
Fixpoint chain_score (hmm : HMM) (prev : ascii) (path obs : list ascii) : R :=
  match path, obs with
  | s :: path', o :: obs' =>
      (ln (Q2R (trans_prob hmm prev s)) + ln (Q2R (emit_prob hmm s o))
       + chain_score hmm s path' obs')%R
  | _, _ => 0%R
  end.

Definition path_score (hmm : HMM) (path obs : list ascii) : R :=
  match path, obs with
  | s :: path', o :: obs' =>
      (ln (Q2R (start_prob hmm s)) + ln (Q2R (emit_prob hmm s o))
       + chain_score hmm s path' obs')%R
  | _, _ => 0%R
  end.

(** The score row [M] of the last of the observations [os] is optimal, and
    the backpointer rows [Bs] of the time steps [1 ..] lead back along an
    optimal path: for every symbol [s] there is a path ending in [s] whose
    log-weight is [M[s]], which no path ending in [s] exceeds and which
    backtracking from [s] spells. *)
Definition best_row (hmm : HMM) (os : list ascii)
    (M : dict ascii (@score RScore)) (Bs : list (dict ascii (option ascii)))
  : Prop :=
  forall s, s ∈ hmm_alphabet hmm ->
    exists q,
      length (q ++ [s]) = length os
      /\ Forall (fun c => c ∈ hmm_alphabet hmm) q
      /\ dict_get M s = Some (path_score hmm (q ++ [s]) os)
      /\ backtrack (rev Bs) (Some s) = Ok (Some <$> rev (q ++ [s]))
      /\ forall q', length (q' ++ [s]) = length os ->
                    Forall (fun c => c ∈ hmm_alphabet hmm) q' ->
                    (path_score hmm (q' ++ [s]) os
                     <= path_score hmm (q ++ [s]) os)%R.

(** * Properties *)

(** ** Tables built by a loop over the alphabet *)

Section Build.
Context {V : Type} (f : ascii -> V).

Lemma build_lookup l m0 k :
  build f l m0 !! k = if decide (k ∈ l) then Some (f k) else m0 !! k.
Proof.
  revert m0. induction l as [|a l IH]; intros m0; simpl.
  - done.
  - rewrite IH. destruct (decide (k ∈ l)) as [Hl|Hl].
    + rewrite decide_True; [done | by right].
    + destruct (decide (k = a)) as [->|Hne].
      * rewrite lookup_insert_eq, decide_True; [done | by left].
      * rewrite lookup_insert_ne by done.
        rewrite decide_False; [done|].
        intros [?|?]%elem_of_cons; contradiction.
Qed.

Lemma build_snoc l k m0 :
  build f (l ++ [k]) m0 = <[k := f k]> (build f l m0).
Proof. unfold build. by rewrite fold_left_app. Qed.
End Build.

Lemma alphabet_NoDup : NoDup alphabet.
Proof. apply (bool_decide_unpack _). by vm_compute. Qed.

Lemma In_list_spec c l : PyStr.In_list c l = true <-> c ∈ l.
Proof.
  unfold PyStr.In_list. rewrite existsb_exists. split.
  - intros (x & Hx & Heq). apply Ascii.eqb_eq in Heq. subst.
    by apply list_elem_of_In.
  - intros H. exists c. split; [by apply list_elem_of_In | apply Ascii.eqb_refl].
Qed.

Lemma letters_of_elem abc s c : c ∈ letters_of abc s -> c ∈ abc.
Proof.
  unfold letters_of. rewrite list_elem_of_In, filter_In.
  intros [_ H]. by apply In_list_spec.
Qed.

Lemma letters_of_Forall abc s : Forall (fun c => c ∈ abc) (letters_of abc s).
Proof. apply Forall_forall. intros c. apply letters_of_elem. Qed.

(** ** Counters whose keys are alphabet symbols *)

Lemma counter_total_empty : counter_total ∅ = 0.
Proof. unfold counter_total. by rewrite map_fold_empty. Qed.

Lemma counter_total_insert (c : gmap ascii nat) k v :
  c !! k = None -> counter_total (<[k := v]> c) = v + counter_total c.
Proof.
  intros Hk. unfold counter_total.
  rewrite map_fold_insert_L; [done | intros; lia | done].
Qed.

Lemma sum_list_point (l : list ascii) (g h : ascii -> nat) i :
  NoDup l -> i ∈ l -> h i = 0 -> (forall k, k ≠ i -> g k = h k) ->
  sum_list (g <$> l) = g i + sum_list (h <$> l).
Proof.
  intros Hnd Hi Hz Hgh. induction Hnd as [|a l Ha Hnd IH]; [by inversion Hi|].
  csimpl. destruct (decide (a = i)) as [->|Hne].
  - rewrite Hz. f_equal. simpl. f_equal. apply list_fmap_ext.
    intros ? k Hk. apply Hgh. intros ->. apply Ha.
    by eapply list_elem_of_lookup_2.
  - rewrite IH; [rewrite (Hgh a Hne); lia|].
    apply elem_of_cons in Hi as [->|Hi]; [done | done].
Qed.

(** [sum(c.values())] is the sum of [c[k]] over the alphabet. *)
Lemma counter_total_alphabet abc (c : gmap ascii nat) :
  NoDup abc -> counter_ok abc c ->
  counter_total c = sum_list (counter_get c <$> abc).
Proof.
  intros Hnd. induction c as [|k v c Hk _ IH] using map_first_key_ind.
  - intros _. rewrite counter_total_empty. symmetry.
    induction abc as [|a abc IHa]; [done|]. csimpl.
    unfold counter_get at 1. rewrite lookup_empty. simpl.
    apply IHa. by inversion Hnd.
  - intros Hok. rewrite counter_total_insert by done.
    assert (Hin : k ∈ abc) by (apply Hok; rewrite lookup_insert_eq; eauto).
    rewrite (sum_list_point abc (counter_get (<[k:=v]> c)) (counter_get c) k);
      try done.
    + unfold counter_get at 1. rewrite lookup_insert_eq. simpl.
      rewrite IH; [done|]. intros j Hj. apply Hok.
      destruct (decide (j = k)) as [->|Hne].
      * rewrite lookup_insert_eq. eauto.
      * by rewrite lookup_insert_ne.
    + unfold counter_get. by rewrite Hk.
    + intros j Hj. unfold counter_get. by rewrite lookup_insert_ne.
Qed.

Lemma counter_ok_empty abc : counter_ok abc ∅.
Proof. intros k [v Hv]. by rewrite lookup_empty in Hv. Qed.

Lemma counter_incr_ok abc k c :
  k ∈ abc -> counter_ok abc c -> counter_ok abc (counter_incr k c).
Proof.
  intros Hk Hc j. unfold counter_incr.
  destruct (decide (j = k)) as [->|Hne]; [done|].
  rewrite lookup_insert_ne by done. apply Hc.
Qed.

Lemma dd_get_ok abc d a : dd_ok abc d -> counter_ok abc (dd_get d a).
Proof.
  intros Hd. unfold dd_get. destruct (d !! a) as [c|] eqn:E; simpl.
  - by eapply Hd.
  - apply counter_ok_empty.
Qed.

Lemma dd_incr_ok abc a b d :
  b ∈ abc -> dd_ok abc d -> dd_ok abc (dd_incr a b d).
Proof.
  intros Hb Hd j c. unfold dd_incr.
  destruct (decide (j = a)) as [->|Hne].
  - rewrite lookup_insert_eq. intros [= <-].
    apply counter_incr_ok; [done | by apply dd_get_ok].
  - rewrite lookup_insert_ne by done. apply Hd.
Qed.

Lemma learn_typo_ok cl ec typo :
  dd_ok alphabet ec -> dd_ok alphabet (learn_typo cl ec typo).
Proof.
  intros Hec. unfold learn_typo.
  destruct (Nat.eqb _ _); [|done].
  pose proof (letters_of_Forall alphabet typo) as Hall.
  revert cl ec Hec.
  induction Hall as [|t tl Ht _ IH]; intros [|c cl] ec Hec; simpl; try done.
  apply IH. by apply dd_incr_ok.
Qed.

Lemma learn_transitions_ok cl tc :
  Forall (fun c => c ∈ alphabet) cl ->
  dd_ok alphabet tc -> dd_ok alphabet (learn_transitions cl tc).
Proof.
  intros Hall. revert tc.
  induction Hall as [|c cl Hc Hall IH]; intros tc Htc; [done|].
  destruct cl as [|n cl]; [done|]. simpl.
  apply IH. apply dd_incr_ok; [|done]. by inversion Hall.
Qed.

Lemma learn_entry_ok st w typos :
  counts_ok st -> counts_ok (learn_entry st w typos).
Proof.
  intros [He Ht Hs]. unfold learn_entry.
  pose proof (letters_of_Forall alphabet w) as Hall.
  destruct (letters_of alphabet w) as [|c cl] eqn:E; [done|].
  split; cbn [emission_counts transition_counts start_counts].
  - generalize (emission_counts st), He. clear.
    induction typos as [|typo typos IH]; intros ec He; [done|].
    simpl. apply IH. by apply learn_typo_ok.
  - by apply learn_transitions_ok.
  - apply counter_incr_ok; [by inversion Hall | done].
Qed.

Lemma learn_line_ok st line : counts_ok st -> counts_ok (learn_line st line).
Proof.
  intros Hst. unfold learn_line.
  destruct (PyStr.lower _); [done|].
  destruct (PyStr.split_once _ _) as [[p0 p1]|]; [|done].
  by apply learn_entry_ok.
Qed.

Lemma learn_lines_ok lines : counts_ok (learn_lines lines).
Proof.
  unfold learn_lines.
  assert (H0 : counts_ok no_counts).
  { split; simpl; [intros ? ? H; by rewrite lookup_empty in H ..
                  | apply counter_ok_empty]. }
  revert H0. generalize no_counts as st.
  induction lines as [|l lines IH]; intros st Hst; [done|].
  simpl. apply IH. by apply learn_line_ok.
Qed.

(** ** Reading the tables *)

Lemma row_total_pos cnt : (0 < row_total cnt)%Q.
Proof.
  unfold row_total, Qnat, smoothing, V.
  assert (0 <= inject_Z (Z.of_nat (counter_total cnt)))%Q.
  { change 0%Q with (inject_Z 0). rewrite <- Zle_Qle. lia. }
  assert (0 < inject_Z (Z.of_nat (length alphabet)) * 0.01)%Q by reflexivity.
  Lqa.lra.
Qed.

Lemma emission_row_build cnt correct :
  emission_row cnt correct =
  build (fun typed =>
           ((Qnat (if Ascii.eqb correct typed
                   then counter_get cnt typed + 5
                   else counter_get cnt typed) + smoothing)
            / row_total cnt)%Q) alphabet ∅.
Proof. reflexivity. Qed.

Lemma transition_row_build cnt :
  transition_row cnt =
  build (fun next_char =>
           ((Qnat (counter_get cnt next_char) + smoothing) / row_total cnt)%Q)
        alphabet ∅.
Proof. reflexivity. Qed.

Lemma emission_table_get ec s t :
  s ∈ alphabet -> t ∈ alphabet ->
  table_get (emission_table ec) s t =
  Some ((Qnat (if Ascii.eqb s t
               then counter_get (dd_get ec s) t + 5
               else counter_get (dd_get ec s) t) + smoothing)
        / row_total (dd_get ec s))%Q.
Proof.
  intros Hs Ht. unfold table_get, emission_table.
  change (fold_left _ alphabet ∅)
    with (build (fun c => emission_row (dd_get ec c) c) alphabet ∅).
  rewrite build_lookup, decide_True by done. simpl.
  rewrite emission_row_build, build_lookup, decide_True by done. done.
Qed.

Lemma transition_table_get tc s t :
  s ∈ alphabet -> t ∈ alphabet ->
  table_get (transition_table tc) s t =
  Some ((Qnat (counter_get (dd_get tc s) t) + smoothing)
        / row_total (dd_get tc s))%Q.
Proof.
  intros Hs Ht. unfold table_get, transition_table.
  change (fold_left _ alphabet ∅)
    with (build (fun c => transition_row (dd_get tc c)) alphabet ∅).
  rewrite build_lookup, decide_True by done. simpl.
  rewrite transition_row_build, build_lookup, decide_True by done. done.
Qed.

Lemma start_table_build sc :
  start_table sc =
  build (fun letter =>
           ((Qnat (counter_get sc letter) + smoothing) / row_total sc)%Q)
        alphabet ∅.
Proof. reflexivity. Qed.

Lemma start_table_get sc s :
  s ∈ alphabet ->
  start_table sc !! s =
  Some ((Qnat (counter_get sc s) + smoothing) / row_total sc)%Q.
Proof.
  intros Hs. by rewrite start_table_build, build_lookup, decide_True.
Qed.

(** ** Sums of rows *)

Lemma Qplus_swap (a b c : Q) : (a + (b + c))%Q = (b + (a + c))%Q.
Proof.
  destruct a as [an ad], b as [bn bd], c as [cn cd].
  unfold Qplus; simpl. f_equal; [|lia].
  rewrite !Pos2Z.inj_mul. ring.
Qed.

Lemma dist_sum_insert (d : gmap ascii Q) k p :
  d !! k = None -> dist_sum (<[k := p]> d) = (p + dist_sum d)%Q.
Proof.
  intros Hk. unfold dist_sum.
  rewrite map_fold_insert_L; [done | | done].
  intros. apply Qplus_swap.
Qed.

Lemma Qsum_snoc l x : (Qsum (l ++ [x]) == x + Qsum l)%Q.
Proof.
  induction l as [|a l IH]; simpl.
  - reflexivity.
  - rewrite IH. ring.
Qed.

Lemma dist_sum_build (f : ascii -> Q) l :
  NoDup l -> (dist_sum (build f l ∅) == Qsum (f <$> l))%Q.
Proof.
  induction l as [|k l IH] using rev_ind; intros Hnd.
  - unfold dist_sum, build. simpl. rewrite map_fold_empty. reflexivity.
  - apply NoDup_app in Hnd as (Hl & Hk & _).
    rewrite build_snoc, dist_sum_insert.
    + rewrite fmap_app. simpl. rewrite Qsum_snoc, IH by done. reflexivity.
    + rewrite build_lookup, decide_False; [done|].
      intros Hin. eapply Hk; [done | by left].
Qed.

Lemma Qnat_plus a b : (Qnat (a + b) == Qnat a + Qnat b)%Q.
Proof. unfold Qnat. rewrite Nat2Z.inj_add, inject_Z_plus. reflexivity. Qed.

Lemma Qnat_S n : (Qnat (S n) == 1 + Qnat n)%Q.
Proof. change (S n) with (1 + n). apply Qnat_plus. Qed.

Lemma Qsum_smoothed (g : ascii -> nat) (tot : Q) l :
  ~ (tot == 0)%Q ->
  (Qsum ((fun k => (Qnat (g k) + smoothing) / tot) <$> l)
   == (Qnat (sum_list (g <$> l)) + Qnat (length l) * smoothing) / tot)%Q.
Proof.
  intros Htot. induction l as [|a l IH]; csimpl.
  - unfold Qnat; simpl. field. done.
  - rewrite IH, Qnat_plus, Qnat_S. field. done.
Qed.

Lemma sum_list_bonus (g : ascii -> nat) s l :
  NoDup l -> s ∈ l ->
  sum_list ((fun t => if Ascii.eqb s t then g t + 5 else g t) <$> l)
  = sum_list (g <$> l) + 5.
Proof.
  intros Hnd Hs. induction Hnd as [|a l Ha Hnd IH]; [by inversion Hs|].
  csimpl. destruct (Ascii.eqb s a) eqn:E.
  - apply Ascii.eqb_eq in E as ->.
    assert (Hrest : (fun t => if Ascii.eqb a t then g t + 5 else g t) <$> l
                    = g <$> l).
    { apply list_fmap_ext. intros i t Ht.
      destruct (Ascii.eqb a t) eqn:E'; [|done].
      apply Ascii.eqb_eq in E' as ->. exfalso. apply Ha.
      by eapply list_elem_of_lookup_2. }
    rewrite Hrest. lia.
  - rewrite IH; [lia|].
    apply elem_of_cons in Hs as [->|Hs]; [|done].
    by rewrite Ascii.eqb_refl in E.
Qed.

(** ** The trained tables *)

Lemma Qnat_nonneg n : (0 <= Qnat n)%Q.
Proof. unfold Qnat. change 0%Q with (inject_Z 0). rewrite <- Zle_Qle. lia. Qed.

Lemma smoothed_pos n tot : (0 < tot)%Q -> (0 < (Qnat n + smoothing) / tot)%Q.
Proof.
  intros Htot. apply Qlt_shift_div_l; [done|].
  pose proof (Qnat_nonneg n). unfold smoothing. Lqa.lra.
Qed.

Lemma row_total_eq cnt :
  (row_total cnt == Qnat (counter_total cnt) + 27 * 0.01)%Q.
Proof. reflexivity. Qed.

Lemma row_total_nonzero cnt : ~ (row_total cnt == 0)%Q.
Proof. pose proof (row_total_pos cnt). Lqa.lra. Qed.

(** X7: Every transition row of a trained model sums to 1. *)
Theorem transition_rows_sum_to_1 lines s :
  PyStr.In_list s alphabet = true ->
  exists row, hmm_T (train lines) !! s = Some row /\ (dist_sum row == 1)%Q.
Proof.
  intros Hs%In_list_spec. unfold train, hmm_of_counts; cbn [hmm_T].
  unfold transition_table.
  change (fold_left _ alphabet ∅)
    with (build (fun c => transition_row
                            (dd_get (transition_counts (learn_lines lines)) c))
                alphabet ∅).
  rewrite build_lookup, decide_True by done.
  eexists; split; [done|].
  set (cnt := dd_get _ s).
  rewrite transition_row_build, dist_sum_build by apply alphabet_NoDup.
  rewrite (Qsum_smoothed (counter_get cnt)) by apply row_total_nonzero.
  rewrite <- counter_total_alphabet.
  - fold V. fold (row_total cnt). field. apply row_total_nonzero.
  - apply alphabet_NoDup.
  - apply dd_get_ok, learn_lines_ok.
Qed.

(** X8: The start distribution of a trained model sums to 1. *)
Theorem start_sums_to_1 lines : (dist_sum (hmm_start (train lines)) == 1)%Q.
Proof.
  unfold train, hmm_of_counts; cbn [hmm_start]. set (cnt := start_counts _).
  rewrite start_table_build, dist_sum_build by apply alphabet_NoDup.
  rewrite (Qsum_smoothed (counter_get cnt)) by apply row_total_nonzero.
  rewrite <- counter_total_alphabet.
  - fold V. fold (row_total cnt). field. apply row_total_nonzero.
  - apply alphabet_NoDup.
  - apply learn_lines_ok.
Qed.

(** Every emission row of a trained model sums to [1 + 5 / total], where
    [total] is the row total the entries are divided by: the diagonal bonus
    is in one numerator and not in the denominator. *)
Theorem emission_rows_sum lines s :
  PyStr.In_list s alphabet = true ->
  exists row, hmm_E (train lines) !! s = Some row /\
    (dist_sum row ==
     1 + 5 / (Qnat (counter_total
                      (dd_get (hmm_emission_counts (train lines)) s))
              + 27 * 0.01))%Q.
Proof.
  intros Hs%In_list_spec.
  unfold train, hmm_of_counts; cbn [hmm_E hmm_emission_counts].
  unfold emission_table.
  change (fold_left _ alphabet ∅)
    with (build (fun c => emission_row
                            (dd_get (emission_counts (learn_lines lines)) c) c)
                alphabet ∅).
  rewrite build_lookup, decide_True by done.
  eexists; split; [done|].
  set (cnt := dd_get _ s).
  rewrite emission_row_build, dist_sum_build by apply alphabet_NoDup.
  rewrite (Qsum_smoothed
             (fun t => if Ascii.eqb s t then counter_get cnt t + 5
                       else counter_get cnt t))
    by apply row_total_nonzero.
  rewrite sum_list_bonus by (apply alphabet_NoDup || done).
  rewrite <- counter_total_alphabet.
  - rewrite Qnat_plus. fold V. change (Qnat 5) with 5%Q.
    change (27 * 0.01)%Q with (Qnat V * smoothing)%Q.
    pose proof (row_total_nonzero cnt) as Hnz. unfold row_total in *.
    field. exact Hnz.
  - apply alphabet_NoDup.
  - apply dd_get_ok, learn_lines_ok.
Qed.

(** C1, at a corpus: after training on ["the: teh hte"; "receive: recieve"]
    the emission row of [t], whose raw counts are [t->t: 1] and [t->h: 1],
    sums to [7.27 / 2.27], not to 1. *)
Theorem emission_row_sum_sample :
  exists row, hmm_E (train sample_corpus) !! "t"%char = Some row /\
    (dist_sum row == 7.27 / 2.27)%Q /\ (1 + 1e-9 < dist_sum row)%Q.
Proof.
  destruct (emission_rows_sum sample_corpus "t"%char eq_refl)
    as (row & Hrow & Hsum).
  exists row. split; [done|].
  assert (Hv : (dist_sum row == 7.27 / 2.27)%Q).
  { rewrite Hsum. vm_compute. reflexivity. }
  split; [done|]. rewrite Hv. reflexivity.
Qed.

(** C4: in a trained model the emission entry [E[s][t]] is
    [(raw + bonus + 0.01) / (total + 27 * 0.01)], where [raw] is the raw
    count of [s] typed as [t], [total] the sum of the raw counts of row [s],
    and [bonus] is 5 on the diagonal and 0 elsewhere: the bonus is added once
    to the diagonal count, whatever the number of occurrences. *)
Theorem diagonal_bonus_once lines s t :
  PyStr.In_list s alphabet = true ->
  PyStr.In_list t alphabet = true ->
  exists p,
    table_get (hmm_E (train lines)) s t = Some p /\
    (p == (Qnat (counter_get (dd_get (hmm_emission_counts (train lines)) s) t)
           + (if Ascii.eqb s t then 5 else 0) + 0.01)
          / (Qnat (counter_total
                     (dd_get (hmm_emission_counts (train lines)) s))
             + 27 * 0.01))%Q.
Proof.
  intros Hs%In_list_spec Ht%In_list_spec.
  unfold train, hmm_of_counts; cbn [hmm_E hmm_emission_counts].
  rewrite emission_table_get by done.
  eexists; split; [done|].
  set (cnt := dd_get _ s).
  pose proof (row_total_nonzero cnt) as Hnz.
  change (27 * 0.01)%Q with (Qnat V * smoothing)%Q.
  unfold row_total in *.
  destruct (Ascii.eqb s t).
  - rewrite Qnat_plus. change (Qnat 5) with 5%Q. unfold smoothing.
    reflexivity.
  - unfold smoothing in *. field. exact Hnz.
Qed.

Lemma diagonal_bonus_once_witness :
  exists p,
    table_get (hmm_E (train sample_corpus)) "t"%char "t"%char = Some p /\
    (p == (Qnat (counter_get
                   (dd_get (hmm_emission_counts (train sample_corpus))
                           "t"%char) "t"%char)
           + (if Ascii.eqb "t"%char "t"%char then 5 else 0) + 0.01)
          / (Qnat (counter_total
                     (dd_get (hmm_emission_counts (train sample_corpus))
                             "t"%char))
             + 27 * 0.01))%Q.
Proof.
  apply (diagonal_bonus_once sample_corpus "t"%char "t"%char);
    reflexivity.
Defined.

(** C2 as stated fails on the emission diagonal: after training on the
    sample corpus the pair [(a, a)] has raw count 0 and row total 0, yet
    [E[a][a]] is [5.01 / 0.27], not the floor [0.01 / 0.27]. *)
Lemma smoothing_floor_counterexample :
  counter_get (dd_get (emission_counts (learn_lines sample_corpus)) "a"%char)
              "a"%char = 0 /\
  counter_total (dd_get (emission_counts (learn_lines sample_corpus))
                        "a"%char) = 0 /\
  exists p,
    table_get (hmm_E (train sample_corpus)) "a"%char "a"%char = Some p /\
    (p == 5.01 / 0.27)%Q /\
    ~ (p == 0.01 / (Qnat 0 + 27 * 0.01))%Q.
Proof.
  split; [by vm_compute|]. split; [by vm_compute|].
  eexists. split; [by vm_compute|]. split; [by vm_compute|].
  by vm_compute.
Qed.

(** C2, amended: in a trained model a pair with zero raw count gets a
    strictly positive probability.  It is the floor
    [0.01 / (total + 27 * 0.01)] in the transition table, in the start
    table and off the diagonal of the emission table; on the diagonal of
    the emission table, where the bonus is added, it is above that
    floor. *)
Theorem smoothing_floor lines s t :
  PyStr.In_list s alphabet = true ->
  PyStr.In_list t alphabet = true ->
  let st := learn_lines lines in
  (counter_get (dd_get (emission_counts st) s) t = 0 ->
   exists p, table_get (hmm_E (train lines)) s t = Some p /\
     (0 < p)%Q /\
     if Ascii.eqb s t
     then (0.01 / (Qnat (counter_total (dd_get (emission_counts st) s))
                   + 27 * 0.01) < p)%Q
     else (p == 0.01 / (Qnat (counter_total (dd_get (emission_counts st) s))
                        + 27 * 0.01))%Q) /\
  (counter_get (dd_get (transition_counts st) s) t = 0 ->
   exists p, table_get (hmm_T (train lines)) s t = Some p /\
     (0 < p)%Q /\
     (p == 0.01 / (Qnat (counter_total (dd_get (transition_counts st) s))
                   + 27 * 0.01))%Q) /\
  (counter_get (start_counts st) s = 0 ->
   exists p, hmm_start (train lines) !! s = Some p /\
     (0 < p)%Q /\
     (p == 0.01 / (Qnat (counter_total (start_counts st)) + 27 * 0.01))%Q).
Proof.
  intros Hs%In_list_spec Ht%In_list_spec st.
  unfold train, hmm_of_counts; cbn [hmm_E hmm_T hmm_start]. fold st.
  change (27 * 0.01)%Q with (Qnat V * smoothing)%Q.
  repeat split.
  - intros H0. rewrite emission_table_get by done. rewrite H0.
    eexists; split; [done|]. split; [|].
    + destruct (Ascii.eqb s t); apply smoothed_pos, row_total_pos.
    + fold (row_total (dd_get (emission_counts st) s)).
      pose proof (row_total_pos (dd_get (emission_counts st) s)) as Hpos.
      destruct (Ascii.eqb s t); [|reflexivity].
      apply Qlt_shift_div_l; [done|].
      change (Qnat (0 + 5) + smoothing)%Q with 5.01%Q.
      set (tot := row_total _) in *.
      assert (Heq : (0.01 / tot * tot == 0.01)%Q) by (field; Lqa.lra).
      rewrite Heq. reflexivity.
  - intros H0. rewrite transition_table_get by done. rewrite H0.
    eexists; split; [done|]. split; [apply smoothed_pos, row_total_pos|].
    reflexivity.
  - intros H0. rewrite start_table_get by done. rewrite H0.
    eexists; split; [done|]. split; [apply smoothed_pos, row_total_pos|].
    reflexivity.
Qed.

Lemma smoothing_floor_witness :
  (exists p, table_get (hmm_E (train sample_corpus)) "a"%char "b"%char
             = Some p /\ (0 < p)%Q /\ (p == 0.01 / 0.27)%Q) /\
  (exists p, table_get (hmm_T (train sample_corpus)) "a"%char "b"%char
             = Some p /\ (0 < p)%Q /\ (p == 0.01 / 0.27)%Q) /\
  (exists p, hmm_start (train sample_corpus) !! "a"%char = Some p /\
             (0 < p)%Q /\ (p == 0.01 / 2.27)%Q).
Proof.
  destruct (smoothing_floor sample_corpus "a"%char "b"%char eq_refl eq_refl)
    as (HE & HT & HS).
  split; [|split].
  - destruct (HE eq_refl) as (p & Hp & Hpos & Heq).
    exists p. split; [exact Hp|]. split; [exact Hpos|].
    cbn [Ascii.eqb Bool.eqb andb] in Heq. rewrite Heq. vm_compute. reflexivity.
  - destruct (HT eq_refl) as (p & Hp & Hpos & Heq).
    exists p. split; [exact Hp|]. split; [exact Hpos|].
    rewrite Heq. vm_compute. reflexivity.
  - destruct (HS eq_refl) as (p & Hp & Hpos & Heq).
    exists p. split; [exact Hp|]. split; [exact Hpos|].
    rewrite Heq. vm_compute. reflexivity.
Defined.

(** ** What an entry contributes to the counts *)

(** ** The result monad *)

Lemma bind_Ok {A B} (r : result A) (k : A -> result B) b :
  (r ≫= k) = Ok b <-> exists a, r = Ok a /\ k a = Ok b.
Proof.
  destruct r as [a|e]; simpl; split.
  - intros H. by exists a.
  - by intros (a' & [= <-] & H).
  - done.
  - by intros (a' & [=] & _).
Qed.

Lemma of_option_Ok {A} e (o : option A) a : of_option e o = Ok a <-> o = Some a.
Proof. destruct o; simpl; split; congruence. Qed.

Ltac inv_bind H :=
  repeat match type of H with
         | (_ ≫= _) = Ok _ =>
             let a := fresh "a" in
             let Ha := fresh "Ha" in
             apply bind_Ok in H as (a & Ha & H)
         end.

(** ** The log utility *)

Section SafeLog.
Context {S : Score}.

(** [safe_log] returns a score on every input. *)
Lemma safe_log_returns x : exists v, safe_log x = Ok v.
Proof.
  unfold safe_log. destruct (Qle_bool x 0) eqn:E; [by eexists|].
  destruct (math_log x) as [v|] eqn:Hlog; [by eexists|].
  apply math_log_domain, Qle_bool_iff in Hlog. congruence.
Qed.
End SafeLog.

Lemma R_safe_log_nonpos (p : Q) :
  (p <= 0)%Q -> @safe_log RScore p = Ok (-1e9)%R.
Proof.
  intros Hp. unfold safe_log; cbn [LOG_ZERO RScore].
  apply Qle_bool_iff in Hp. by rewrite Hp.
Qed.

Lemma R_safe_log_pos (p : Q) :
  (0 < p)%Q -> @safe_log RScore p = Ok (ln (Q2R p)).
Proof.
  intros Hp. unfold safe_log; cbn [math_log RScore]. unfold R_log.
  destruct (Qle_bool p 0) eqn:E; [|done].
  apply Qle_bool_iff in E. Lqa.lra.
Qed.

(** C9: on the reals, [safe_log p] returns the sentinel [-1e9] when
    [p <= 0] and the natural logarithm of [p] when [p > 0]; in both cases it
    returns a value and raises nothing. *)
Theorem safe_log_spec (p : Q) :
  ((p <= 0)%Q -> @safe_log RScore p = Ok (-1e9)%R) /\
  ((0 < p)%Q -> @safe_log RScore p = Ok (ln (Q2R p))) /\
  (exists v : R, @safe_log RScore p = Ok v).
Proof.
  split; [apply R_safe_log_nonpos|]. split; [apply R_safe_log_pos|].
  destruct (Qlt_le_dec 0 p) as [Hp|Hp].
  - eexists. by apply R_safe_log_pos.
  - eexists. by apply R_safe_log_nonpos.
Qed.

Lemma safe_log_spec_witness :
  @safe_log RScore 0 = Ok (-1e9)%R /\
  @safe_log RScore 0.5 = Ok (ln (Q2R 0.5)).
Proof.
  split.
  - apply (proj1 (safe_log_spec 0)). apply Qle_bool_imp_le. reflexivity.
  - apply (proj1 (proj2 (safe_log_spec 0.5))). reflexivity.
Defined.

(** ** Examples *)

Example viterbi_teh :
  @viterbi ZScore (chars "teh") sample_hmm = Ok (chars "the").
Proof. vm_compute. reflexivity. Qed.

Example viterbi_mixed_case :
  @viterbi ZScore (chars "Recieve!") sample_hmm = Ok (chars "receive").
Proof. vm_compute. reflexivity. Qed.

Example correct_sentence_sample :
  @correct_sentence ZScore (chars "  teh  dog 12 ") sample_hmm
  = Ok (chars "the dog 12").
Proof. vm_compute. reflexivity. Qed.

Example build_hmm_missing_file : build_hmm_from_aspell None = None.
Proof. reflexivity. Qed.

(** ** Whitespace splitting *)

Lemma split_from_tokens s cur :
  Forall (fun c => PyStr.isspace c = false) cur ->
  Forall (fun w => w ≠ [] /\ Forall (fun c => PyStr.isspace c = false) w)
         (PyStr.split_from s cur).
Proof.
  revert cur. induction s as [|c s IH]; intros cur Hcur; simpl.
  - destruct cur as [|c' cur]; [done|]. constructor; [|done]. split.
    + intros Heq. apply (f_equal (@length ascii)) in Heq.
      rewrite length_rev in Heq. done.
    + apply Forall_forall. intros x Hx.
      rewrite Forall_forall in Hcur. apply Hcur.
      by apply list_elem_of_In, in_rev, list_elem_of_In.
  - destruct (PyStr.isspace c) eqn:Hc.
    + destruct cur as [|c' cur]; [by apply IH|].
      constructor; [|by apply IH]. split.
      * intros Heq. apply (f_equal (@length ascii)) in Heq.
        rewrite length_rev in Heq. done.
      * apply Forall_forall. intros x Hx.
        rewrite Forall_forall in Hcur. apply Hcur.
        by apply list_elem_of_In, in_rev, list_elem_of_In.
    + apply IH. by constructor.
Qed.

(** The tokens of [s.split()] are non-empty and free of whitespace. *)
Lemma split_tokens s :
  Forall (fun w => w ≠ [] /\ Forall (fun c => PyStr.isspace c = false) w)
         (PyStr.split s).
Proof. by apply split_from_tokens. Qed.

(** ** The decoder: fallback and sentences *)

Section DecoderBasics.
Context {S : Score}.

(** C7, amended: when no character of the lowercased input is in the
    model's alphabet, [viterbi] returns the input itself, unchanged, and
    raises nothing. *)
Theorem viterbi_fallback observations hmm :
  letters_of (hmm_alphabet hmm) (PyStr.lower observations) = [] ->
  viterbi observations hmm = Ok observations.
Proof. intros H. unfold viterbi. by rewrite H. Qed.

Lemma foldM_append_mapM {A B} (f : A -> result B) l acc :
  foldM (fun acc a => b ← f a; Ok (acc ++ [b])) l acc =
  (bs ← mapM f l; Ok (acc ++ bs)).
Proof.
  revert acc. induction l as [|a l IH]; intros acc; simpl.
  - by rewrite app_nil_r.
  - destruct (f a) as [b|e]; simpl; [|done].
    rewrite IH. destruct (mapM f l) as [bs|e]; simpl; [|done].
    by rewrite <- app_assoc.
Qed.

(** C8: [correct_sentence] decodes the whitespace-delimited tokens of the
    text one by one, in order, each by its own call of [viterbi], and
    joins the results with single spaces; it raises what the first
    failing token raises. *)
Theorem correct_sentence_spec text hmm :
  correct_sentence text hmm =
  (decoded ← mapM (fun word => viterbi word hmm) (PyStr.split text);
   Ok (PyStr.join (chars " ") decoded)).
Proof.
  unfold correct_sentence. rewrite foldM_append_mapM.
  by destruct (mapM _ _).
Qed.
End DecoderBasics.

Lemma viterbi_fallback_witness :
  @viterbi ZScore (chars "123") sample_hmm = Ok (chars "123").
Proof. apply (@viterbi_fallback ZScore). reflexivity. Defined.

Lemma foldM_ext {A B} (f g : B -> A -> result B) l b :
  (forall b a, f b a = g b a) -> foldM f l b = foldM g l b.
Proof.
  intros Hfg. revert b. induction l as [|a l IH]; intros b; [done|].
  simpl. rewrite Hfg. destruct (g b a); simpl; [apply IH | done].
Qed.

(** ** Insertion-ordered dicts *)

Section DictProps.
Context {K V : Type} `{EqDecision K}.
Implicit Types (d : dict K V) (k : K) (v : V).

Lemma dict_get_set_eq d k v : dict_get (dict_set d k v) k = Some v.
Proof.
  induction d as [|[k' v'] d IH]; simpl.
  - by rewrite decide_True.
  - destruct (decide (k = k')) as [->|Hne]; simpl.
    + by rewrite decide_True.
    + by rewrite decide_False.
Qed.

Lemma dict_get_set_ne d k k' v :
  k ≠ k' -> dict_get (dict_set d k v) k' = dict_get d k'.
Proof.
  intros Hne. induction d as [|[k0 v0] d IH]; simpl.
  - by rewrite decide_False.
  - destruct (decide (k = k0)) as [->|Hne0]; simpl.
    + by rewrite !decide_False.
    + by rewrite IH.
Qed.

(** A new key goes to the end. *)
Lemma dict_set_fresh d k v :
  k ∉ dict_keys d -> dict_set d k v = d ++ [(k, v)].
Proof.
  induction d as [|[k' v'] d IH]; simpl; [done|].
  intros Hk. apply not_elem_of_cons in Hk as [Hne Hk].
  rewrite decide_False by done. by rewrite IH.
Qed.

Lemma dict_keys_snoc_fresh d k k' v :
  k' ∉ dict_keys d -> k' ≠ k -> k' ∉ dict_keys (d ++ [(k, v)]).
Proof.
  intros Hd Hne. unfold dict_keys. rewrite map_app. simpl.
  apply not_elem_of_app. split; [done|].
  apply not_elem_of_cons. split; [done | apply not_elem_of_nil].
Qed.

Lemma dict_get_elem d k v : dict_get d k = Some v -> (k, v) ∈ d.
Proof.
  induction d as [|[k' v'] d IH]; simpl; [done|].
  destruct (decide (k = k')) as [->|Hne].
  - intros [= ->]. by left.
  - intros H'. right. by apply IH.
Qed.

Lemma dict_get_fmap (f : K -> V) (l : list K) k :
  k ∈ l -> dict_get ((fun s => (s, f s)) <$> l) k = Some (f k).
Proof.
  induction l as [|a l IH]; [by inversion 1|].
  intros Hk. csimpl. destruct (decide (k = a)) as [->|Hne]; [done|].
  apply elem_of_cons in Hk as [?|Hk]; [done | by apply IH].
Qed.
End DictProps.

(** ** Loops that fill one row of [M] and of [Backpointers] *)

Section Rows.
Context {S : Score}.
Local Open Scope score_scope.

Lemma init_rows_fill hmm o0 l MB :
  foldM (init_state hmm o0) l MB =
  fill_rows (fun state => v ← init_score hmm o0 state; Ok (v, None)) l MB.
Proof.
  apply foldM_ext. intros MB' state. unfold init_state.
  by destruct (init_score hmm o0 state).
Qed.

Lemma step_rows_fill hmm Mprev o l MB :
  foldM (step_state hmm Mprev o) l MB =
  fill_rows (best_prev hmm Mprev o) l MB.
Proof. reflexivity. Qed.

(** Over distinct keys and from rows that do not hold them, the loop
    appends one entry per key, in order. *)
Lemma fill_rows_Ok g l M B M' B' :
  NoDup l ->
  (forall s, s ∈ l -> s ∉ dict_keys M) ->
  (forall s, s ∈ l -> s ∉ dict_keys B) ->
  fill_rows g l (M, B) = Ok (M', B') ->
  exists rs,
    Forall2 (fun s r => g s = Ok r) l rs /\
    M' = M ++ zip l (fst <$> rs) /\
    B' = B ++ zip l (snd <$> rs).
Proof.
  intros Hnd. revert M B.
  induction Hnd as [|a l Ha Hnd IH]; intros M B HM HB Hfill.
  - injection Hfill as <- <-. exists []. by rewrite !app_nil_r.
  - unfold fill_rows in Hfill. simpl in Hfill.
    apply bind_Ok in Hfill as (MB1 & H1 & Hfill).
    apply bind_Ok in H1 as (r & Hr & H1). injection H1 as <-.
    simpl in Hfill.
    rewrite !dict_set_fresh in Hfill by (apply HM || apply HB; by left).
    apply IH in Hfill as (rs & Hrs & -> & ->).
    + exists (r :: rs). split; [by constructor|].
      by rewrite <- !app_assoc.
    + intros s Hs. apply dict_keys_snoc_fresh; [apply HM; by right|].
      by intros ->.
    + intros s Hs. apply dict_keys_snoc_fresh; [apply HB; by right|].
      by intros ->.
Qed.

Lemma fill_rows_empty g l M' B' :
  NoDup l ->
  fill_rows g l ([], []) = Ok (M', B') ->
  exists rs,
    Forall2 (fun s r => g s = Ok r) l rs /\
    M' = zip l (fst <$> rs) /\ B' = zip l (snd <$> rs).
Proof.
  intros Hnd Hfill.
  apply fill_rows_Ok in Hfill as (rs & Hrs & -> & ->);
    [by exists rs | done | intros ? ?; apply not_elem_of_nil ..].
Qed.

(** Conversely, when the body succeeds on every key the loop succeeds. *)
Lemma fill_rows_run g l rs :
  NoDup l ->
  Forall2 (fun s r => g s = Ok r) l rs ->
  fill_rows g l ([], []) = Ok (zip l (fst <$> rs), zip l (snd <$> rs)).
Proof.
  intros Hnd Hrs.
  enough (Hgen : forall M B,
             (forall s, s ∈ l -> s ∉ dict_keys M) ->
             (forall s, s ∈ l -> s ∉ dict_keys B) ->
             fill_rows g l (M, B)
             = Ok (M ++ zip l (fst <$> rs), B ++ zip l (snd <$> rs))).
  { apply (Hgen [] []); intros ? ?; apply not_elem_of_nil. }
  induction Hrs as [|a r l rs Hr Hrs IH]; intros M B HM HB.
  - by rewrite !app_nil_r.
  - unfold fill_rows. simpl. rewrite Hr. simpl.
    rewrite !dict_set_fresh by (apply HM || apply HB; by left).
    apply NoDup_cons in Hnd as [Ha Hnd].
    unfold fill_rows in IH. rewrite IH; [by rewrite <- !app_assoc | done | |].
    + intros s Hs. apply dict_keys_snoc_fresh; [apply HM; by right|].
      by intros ->.
    + intros s Hs. apply dict_keys_snoc_fresh; [apply HB; by right|].
      by intros ->.
Qed.

End Rows.

(** ** Running maxima *)

Section Maxima.
Context {S : Score}.
Local Open Scope score_scope.

Lemma score_gtb_lift (v u a : score) :
  (v >? a) = true -> (u >? a) = false -> (v >? u) = true.
Proof.
  intros Hva Hua. destruct (a >? u) eqn:Hau.
  - by eapply score_gtb_trans.
  - by rewrite (score_gtb_total u a Hua Hau).
Qed.

Lemma score_gtb_asym (a b : score) : (a >? b) = true -> (b >? a) = false.
Proof.
  intros Hab. destruct (b >? a) eqn:Hba; [|done].
  pose proof (score_gtb_trans _ _ _ Hab Hba) as Haa.
  by rewrite score_gtb_irrefl in Haa.
Qed.

Lemma scan_spec l a ka v kr :
  scan l (a, ka) = (v, kr) ->
  (kr = ka /\ v = a /\ Forall (fun x => (x.2 >? a) = false) l) \/
  (exists k, kr = Some k /\ first_max l k v /\ (v >? a) = true).
Proof.
  revert a ka. induction l as [|[k0 v0] l IH]; intros a ka Hscan.
  - injection Hscan as <- <-. by left.
  - simpl in Hscan. destruct (v0 >? a) eqn:Hgt.
    + right. apply IH in Hscan as [(-> & -> & Hall)|(k & -> & Hmax & Hv)].
      * exists k0. split; [done|]. split; [|done].
        exists [], l. by repeat split.
      * exists k. split; [done|]. split; [|by eapply score_gtb_trans].
        destruct Hmax as (l1 & l2 & -> & H1 & H2).
        exists ((k0, v0) :: l1), l2. repeat split; [|done].
        by constructor.
    + apply IH in Hscan as [(-> & -> & Hall)|(k & -> & Hmax & Hv)].
      * left. repeat split. by constructor.
      * right. exists k. split; [done|]. split; [|done].
        destruct Hmax as (l1 & l2 & -> & H1 & H2).
        exists ((k0, v0) :: l1), l2. repeat split; [|done].
        constructor; [|done]. simpl. by eapply score_gtb_lift.
Qed.

(** When no value exceeds the running maximum it stays as it is. *)
Lemma scan_keep l acc :
  Forall (fun x => (x.2 >? acc.1) = false) l -> scan l acc = acc.
Proof.
  induction 1 as [|[k v] l Hx _ IH]; [done|].
  simpl in *. by rewrite Hx.
Qed.

Lemma max_from_scan d k v : (scan d (v, Some k)).2 = Some (max_from d k v).
Proof.
  revert k v. induction d as [|[k' v'] d IH]; intros k v; [done|].
  simpl. destruct (v' >? v); apply IH.
Qed.

(** [max(d, key=d.get)] returns the key of the first maximum of [d]. *)
Lemma py_max_spec d k :
  py_max d = Ok k -> exists v, first_max d k v.
Proof.
  destruct d as [|[k0 v0] d]; [done|]. simpl. intros [= <-].
  pose proof (max_from_scan d k0 v0) as Hkey.
  destruct (scan d (v0, Some k0)) as [v kr] eqn:Hscan. simpl in Hkey. subst kr.
  apply scan_spec in Hscan as [(Hk & -> & Hall)|(k & [= Hk] & Hmax & Hv)].
  - injection Hk as ->. exists v0. exists [], d. by repeat split.
  - rewrite Hk. exists v.
    destruct Hmax as (l1 & l2 & -> & H1 & H2).
    exists ((k0, v0) :: l1), l2. repeat split; [|done]. by constructor.
Qed.

Lemma py_max_nonempty d : d ≠ [] -> exists k, py_max d = Ok k.
Proof. destruct d as [|[k v] d]; [done|]. intros _. by eexists. Qed.

Lemma py_max_key d k : py_max d = Ok k -> k ∈ dict_keys d.
Proof.
  intros (v & l1 & l2 & -> & _)%py_max_spec.
  unfold dict_keys. rewrite map_app. simpl.
  apply elem_of_app. right. by left.
Qed.

Lemma try_prev_Ok hmm Mprev state o acc p v :
  candidate hmm Mprev state o p = Ok v ->
  try_prev hmm Mprev state o acc p
  = Ok (if v >? acc.1 then (v, Some p) else acc).
Proof. intros Hv. unfold try_prev. by rewrite Hv. Qed.

(** The loop over [prev_state] is the running maximum of the candidates. *)
Lemma foldM_try_prev hmm Mprev state o l acc r :
  foldM (try_prev hmm Mprev state o) l acc = Ok r <->
  exists vals,
    Forall2 (fun p v => candidate hmm Mprev state o p = Ok v) l vals /\
    r = scan (zip l vals) acc.
Proof.
  revert acc r. induction l as [|p l IH]; intros acc r; simpl.
  - split.
    + intros [= <-]. exists []. by split.
    + intros (vals & Hvals & ->). by inversion Hvals.
  - split.
    + intros H. apply bind_Ok in H as (acc' & H1 & H).
      unfold try_prev in H1. apply bind_Ok in H1 as (v & Hv & [= <-]).
      apply IH in H as (vals & Hvals & ->).
      exists (v :: vals). split; [by constructor | done].
    + intros (vals & Hvals & ->).
      inversion Hvals as [|? v ? vals' Hv Hvals']; subst.
      rewrite (try_prev_Ok _ _ _ _ _ _ _ Hv). simpl.
      apply IH. by exists vals'.
Qed.

(** What [for prev_state in alphabet] leaves in [(max_val, best_prev)]:
    either no candidate exceeds [LOG_ZERO], and then [max_val] is
    [LOG_ZERO] and [best_prev] is [None]; or [best_prev] is the first
    maximum of the candidates and [max_val] its value. *)
Lemma best_prev_spec hmm Mprev o state v bp :
  best_prev hmm Mprev o state = Ok (v, bp) ->
  exists vals,
    Forall2 (fun p c => candidate hmm Mprev state o p = Ok c)
            (hmm_alphabet hmm) vals /\
    ((bp = None /\ v = LOG_ZERO /\
      Forall (fun c => (c >? LOG_ZERO) = false) vals) \/
     (exists p, bp = Some p /\
        first_max (zip (hmm_alphabet hmm) vals) p v /\
        (v >? LOG_ZERO) = true)).
Proof.
  unfold best_prev. intros (vals & Hvals & Hscan)%foldM_try_prev.
  exists vals. split; [done|]. symmetry in Hscan.
  apply scan_spec in Hscan as [(-> & -> & Hall)|(p & -> & Hmax & Hv)].
  - left. repeat split.
    clear -Hvals Hall. induction Hvals as [|p c l vals _ _ IH]; [done|].
    simpl in Hall. inversion Hall; subst. constructor; [done | by apply IH].
  - right. by exists p.
Qed.

End Maxima.

(** ** The tables [M] and [Backpointers] *)

Section Tables.
Context {S : Score}.
Local Open Scope score_scope.

Lemma row_of_get g abc Mt Bt s :
  row_of g abc Mt Bt -> s ∈ abc ->
  exists r, g s = Ok r /\
    dict_get Mt s = Some r.1 /\ dict_get Bt s = Some r.2.
Proof.
  intros (rs & Hrs & -> & ->) Hs.
  induction Hrs as [|a r l rs Hr Hrs IH]; [by inversion Hs|].
  csimpl. destruct (decide (s = a)) as [->|Hne].
  - by exists r.
  - apply elem_of_cons in Hs as [?|Hs]; [done | by apply IH].
Qed.

Lemma row_of_keys g abc Mt Bt :
  row_of g abc Mt Bt -> dict_keys Mt = abc /\ dict_keys Bt = abc.
Proof.
  intros (rs & Hrs & -> & ->). unfold dict_keys.
  induction Hrs as [|a r l rs Hr Hrs [IH1 IH2]]; [done|].
  csimpl. by rewrite IH1, IH2.
Qed.

Lemma row_of_values g abc Mt Bt k bp :
  row_of g abc Mt Bt -> (k, bp) ∈ Bt ->
  k ∈ abc /\ exists v, g k = Ok (v, bp).
Proof.
  intros (rs & Hrs & -> & ->).
  induction Hrs as [|a r l rs Hr Hrs IH]; [by inversion 1|].
  csimpl. intros [Heq|Hin]%elem_of_cons.
  - injection Heq as -> ->. split; [by left|]. exists r.1. by destruct r.
  - destruct (IH Hin) as [Hk Hv]. split; [by right | done].
Qed.

Lemma recursion_rows hmm Mprev obs Ms Bs :
  NoDup (hmm_alphabet hmm) ->
  recursion hmm Mprev obs = Ok (Ms, Bs) <-> rows_from hmm Mprev obs Ms Bs.
Proof.
  intros Hnd. revert Mprev Ms Bs.
  induction obs as [|o obs IH]; intros Mprev Ms Bs; simpl.
  - split.
    + intros [= <- <-]. constructor.
    + by inversion 1.
  - split.
    + intros H. apply bind_Ok in H as ([Mt Bt] & Hrow & H).
      apply bind_Ok in H as ([Ms' Bs'] & Hrest & [= <- <-]).
      rewrite step_rows_fill in Hrow.
      apply fill_rows_empty in Hrow as (rs & Hrs & -> & ->); [|done].
      constructor; [by exists rs | by apply IH].
    + inversion 1 as [|? ? ? Mt Bt Ms' Bs' (rs & Hrs & -> & ->) Hrest]; subst.
      rewrite step_rows_fill, (fill_rows_run _ _ rs) by done. simpl.
      apply IH in Hrest. by rewrite Hrest.
Qed.

Lemma rows_from_length hmm Mprev obs Ms Bs :
  rows_from hmm Mprev obs Ms Bs ->
  length Ms = length obs /\ length Bs = length obs.
Proof. induction 1 as [|? ? ? ? ? ? ? _ _ [IH1 IH2]]; simpl; auto. Qed.

(** Row [i] of the recursion is computed from row [i - 1] (from [Mprev]
    when [i = 0]) and observation [i]. *)
Lemma rows_from_lookup hmm Mprev obs Ms Bs i o :
  rows_from hmm Mprev obs Ms Bs ->
  obs !! i = Some o ->
  exists Mp Mt Bt,
    (Mprev :: Ms) !! i = Some Mp /\ Ms !! i = Some Mt /\ Bs !! i = Some Bt /\
    row_of (best_prev hmm Mp o) (hmm_alphabet hmm) Mt Bt.
Proof.
  intros Hrows. revert i.
  induction Hrows as [|Mprev o' obs Mt Bt Ms Bs Hrow Hrows IH]; intros i Hi.
  - by rewrite lookup_nil in Hi.
  - destruct i as [|i]; simpl in Hi.
    + injection Hi as ->. by exists Mprev, Mt, Bt.
    + destruct (IH i Hi) as (Mp & Mt' & Bt' & H1 & H2 & H3 & H4).
      by exists Mp, Mt', Bt'.
Qed.

Lemma forward_rows hmm o0 obs M BP :
  NoDup (hmm_alphabet hmm) ->
  forward hmm o0 obs = Ok (M, BP) <->
  exists M0 B0 Ms Bs,
    M = M0 :: Ms /\ BP = B0 :: Bs /\
    row_of (fun state => v ← init_score hmm o0 state; Ok (v, None))
           (hmm_alphabet hmm) M0 B0 /\
    rows_from hmm M0 obs Ms Bs.
Proof.
  intros Hnd. unfold forward. rewrite init_rows_fill. split.
  - intros H. apply bind_Ok in H as ([M0 B0] & H0 & H).
    apply bind_Ok in H as ([Ms Bs] & Hrest & [= <- <-]).
    apply fill_rows_empty in H0 as (rs & Hrs & -> & ->); [|done].
    eexists _, _, Ms, Bs. repeat split; [by exists rs|].
    by apply recursion_rows.
  - intros (M0 & B0 & Ms & Bs & -> & -> & (rs & Hrs & -> & ->) & Hrest).
    rewrite (fill_rows_run _ _ rs) by done. simpl.
    apply recursion_rows in Hrest; [|done]. by rewrite Hrest.
Qed.

(** The recursion step, as the code performs it: at every time step
    [time >= 1] and for every symbol [state] the stored score and
    backpointer are those of the running maximum over the candidates
    [M[time-1][p] + safe_log(T[p][state]) + safe_log(E[state][O[time]])],
    started at [(LOG_ZERO, None)]. *)
Theorem recursion_step hmm o0 obs M BP time o state :
  NoDup (hmm_alphabet hmm) ->
  forward hmm o0 obs = Ok (M, BP) ->
  (o0 :: obs) !! (time + 1)%nat = Some o ->
  state ∈ hmm_alphabet hmm ->
  exists Mprev Mt Bt v bp vals,
    M !! time = Some Mprev /\ M !! (time + 1)%nat = Some Mt /\
    BP !! (time + 1)%nat = Some Bt /\
    dict_get Mt state = Some v /\ dict_get Bt state = Some bp /\
    Forall2 (fun p c => candidate hmm Mprev state o p = Ok c)
            (hmm_alphabet hmm) vals /\
    ((bp = None /\ v = LOG_ZERO /\
      Forall (fun c => (c >? LOG_ZERO) = false) vals) \/
     (exists p, bp = Some p /\
        first_max (zip (hmm_alphabet hmm) vals) p v /\
        (v >? LOG_ZERO) = true)).
Proof.
  intros Hnd Hfwd Ho Hstate.
  apply forward_rows in Hfwd
    as (M0 & B0 & Ms & Bs & -> & -> & _ & Hrows); [|done].
  rewrite Nat.add_1_r in *. simpl in Ho |- *.
  destruct (rows_from_lookup _ _ _ _ _ _ _ Hrows Ho)
    as (Mp & Mt & Bt & HMp & HMt & HBt & Hrow).
  destruct (row_of_get _ _ _ _ _ Hrow Hstate) as ([v bp] & Hbest & HM & HB).
  apply best_prev_spec in Hbest as (vals & Hvals & Hcases).
  by exists Mp, Mt, Bt, v, bp, vals.
Qed.

End Tables.

(** ** Termination and backtracking *)

Section Backtrack.
Context {Sc : Score}.

Lemma backtrack_length rows best path :
  backtrack rows best = Ok path -> length path = S (length rows).
Proof.
  revert best path. induction rows as [|row rows IH]; intros best path; simpl.
  - by intros [= <-].
  - intros H. apply bind_Ok in H as (prev & _ & H).
    apply bind_Ok in H as (path' & Hpath & [= <-]).
    simpl. f_equal. by eapply IH.
Qed.

(** Every item of the path is the symbol the walk starts from or a value
    stored in one of the backpointer rows. *)
Lemma backtrack_items rows best path x :
  backtrack rows best = Ok path -> x ∈ path ->
  x = best \/ exists row k, row ∈ rows /\ (k, x) ∈ row.
Proof.
  revert best path. induction rows as [|row rows IH]; intros best path; simpl.
  - intros [= <-] Hx. left. by apply list_elem_of_singleton in Hx.
  - intros H Hx. apply bind_Ok in H as (prev & Hprev & H).
    apply bind_Ok in H as (path' & Hpath & [= <-]).
    apply elem_of_cons in Hx as [->|Hx]; [by left|]. right.
    destruct (IH _ _ Hpath Hx) as [->|(row' & k & Hrow & Hk)].
    + destruct best as [b|]; [|done].
      apply of_option_Ok, dict_get_elem in Hprev.
      exists row, b. split; [by left | done].
    + exists row', k. split; [by right | done].
Qed.

Lemma join_path_Ok path s :
  join_path path = Ok s <-> path = Some <$> s.
Proof.
  revert s. induction path as [|[c|] path IH]; intros s; simpl.
  - split; [intros [= <-]; done | by destruct s].
  - split.
    + intros H. apply bind_Ok in H as (s' & Hs & [= <-]).
      apply IH in Hs as ->. done.
    + destruct s as [|c' s]; [done|]. csimpl. intros [= -> ->].
      by rewrite (proj2 (IH s) eq_refl).
  - split; [done | by destruct s].
Qed.

Lemma join_path_raises path e :
  join_path path = Raise e -> e = TypeError /\ None ∈ path.
Proof.
  induction path as [|[c|] path IH]; simpl; [done| |].
  - destruct (join_path path) as [s|e'] eqn:E; simpl; [done|].
    intros [= ->]. destruct (IH eq_refl) as [-> Hin]. split; [done | by right].
  - intros [= <-]. split; [done | by left].
Qed.

Lemma recursion_length hmm Mprev obs Ms Bs :
  recursion hmm Mprev obs = Ok (Ms, Bs) ->
  length Ms = length obs /\ length Bs = length obs.
Proof.
  revert Mprev Ms Bs. induction obs as [|o obs IH]; intros Mprev Ms Bs; simpl.
  - by intros [= <- <-].
  - intros H. apply bind_Ok in H as (MB & _ & H).
    apply bind_Ok in H as ([Ms' Bs'] & Hrest & [= <- <-]).
    apply IH in Hrest as [H1 H2]. simpl. by rewrite H1, H2.
Qed.

Lemma forward_length hmm o0 obs M BP :
  forward hmm o0 obs = Ok (M, BP) ->
  length M = S (length obs) /\ length BP = S (length obs).
Proof.
  unfold forward. intros H. apply bind_Ok in H as (MB0 & _ & H).
  apply bind_Ok in H as ([Ms Bs] & Hrest & [= <- <-]).
  apply recursion_length in Hrest as [H1 H2]. simpl. by rewrite H1, H2.
Qed.

Lemma decode_tables_length tables out :
  decode_tables tables = Ok out -> length out = S (length (tail tables.2)).
Proof.
  unfold decode_tables. intros H. apply bind_Ok in H as (best & _ & H).
  apply bind_Ok in H as (path & Hpath & H).
  apply join_path_Ok in H. apply backtrack_length in Hpath.
  apply (f_equal length) in H.
  rewrite length_rev, length_fmap, Hpath, length_rev in H. done.
Qed.

(** Whatever [viterbi] returns off the fallback path has as many
    characters as the lowercased, alphabet-filtered input. *)
Lemma viterbi_length_Ok observations hmm out :
  letters_of (hmm_alphabet hmm) (PyStr.lower observations) ≠ [] ->
  viterbi observations hmm = Ok out ->
  length out
  = length (letters_of (hmm_alphabet hmm) (PyStr.lower observations)).
Proof.
  unfold viterbi.
  destruct (letters_of _ _) as [|o0 obs]; [done|]. intros _ H.
  apply bind_Ok in H as ([M BP] & Hfwd & H).
  apply decode_tables_length in H. rewrite H.
  apply forward_length in Hfwd as [_ HBP]. simpl.
  destruct BP as [|B0 Bs]; [done|]. simpl in *. lia.
Qed.

End Backtrack.


(** ** The symbols of the decoded string *)

(** The alphabet is the lowercase letters and the apostrophe. *)
Lemma alphabet_symbols c : PyStr.In_list c alphabet = is_lower_symbol c.
Proof. by destruct c as [[] [] [] [] [] [] [] []]. Qed.

Lemma lower_upper c :
  is_upper c = true ->
  PyStr.In_list (PyStr.lower_char c) alphabet = true /\
  is_lower_symbol c = false.
Proof. destruct c as [[] [] [] [] [] [] [] []]; by vm_compute. Qed.

Lemma letters_of_lower_upper s :
  Forall (fun c => is_upper c = true) s ->
  letters_of alphabet (PyStr.lower s) = PyStr.lower s.
Proof.
  induction 1 as [|c s Hc _ IH]; [done|].
  unfold letters_of, PyStr.lower in *. cbn [map List.filter].
  destruct (lower_upper c Hc) as [-> _]. by rewrite IH.
Qed.

Lemma last_elem {A} (l : list A) (d : A) : l ≠ [] -> List.last l d ∈ l.
Proof.
  intros Hne. apply list_elem_of_In.
  destruct (exists_last Hne) as (l' & x & ->).
  rewrite last_last. apply in_or_app. right. by left.
Qed.

Section Symbols.
Context {Sc : Score}.

Lemma first_max_key (l : list ascii) (vals : list score) p v :
  first_max (zip l vals) p v -> p ∈ l.
Proof.
  intros (l1 & l2 & Hzip & _).
  assert (Hin : (p, v) ∈ zip l vals).
  { rewrite Hzip. apply elem_of_app. right. by left. }
  clear Hzip. revert vals Hin.
  induction l as [|a l IH]; intros [|c vals]; simpl; try by inversion 1.
  intros [[= -> ->]|Hin]%elem_of_cons; [by left|]. right. by eapply IH.
Qed.

Lemma best_prev_symbol hmm Mprev o state v p :
  best_prev hmm Mprev o state = Ok (v, Some p) -> p ∈ hmm_alphabet hmm.
Proof.
  intros (vals & _ & [(? & _)|(p' & [= <-] & Hmax & _)])%best_prev_spec;
    [done|].
  by eapply first_max_key.
Qed.

Lemma rows_from_rows hmm Mprev obs Ms Bs :
  rows_from hmm Mprev obs Ms Bs ->
  Forall (fun Mt => dict_keys Mt = hmm_alphabet hmm) Ms /\
  Forall (fun Bt => exists Mp o Mt,
            row_of (best_prev hmm Mp o) (hmm_alphabet hmm) Mt Bt) Bs.
Proof.
  induction 1 as [|Mprev o obs Mt Bt Ms Bs Hrow _ [IH1 IH2]]; [done|].
  split; constructor; try done.
  - by apply row_of_keys in Hrow as [? _].
  - by exists Mprev, o, Mt.
Qed.

(** Whatever [viterbi] returns off the fallback path is made of symbols of
    the model's alphabet. *)
Lemma decode_symbols hmm o0 obs tables out :
  NoDup (hmm_alphabet hmm) ->
  forward hmm o0 obs = Ok tables ->
  decode_tables tables = Ok out ->
  Forall (fun c => c ∈ hmm_alphabet hmm) out.
Proof.
  intros Hnd Hfwd Hdec. destruct tables as [M BP].
  apply forward_rows in Hfwd
    as (M0 & B0 & Ms & Bs & -> & -> & Hrow0 & Hrows); [|done].
  apply rows_from_rows in Hrows as [HMs HBs].
  unfold decode_tables in Hdec. simpl in Hdec.
  apply bind_Ok in Hdec as (best & Hbest & Hdec).
  apply bind_Ok in Hdec as (path & Hpath & Hjoin).
  apply join_path_Ok in Hjoin.
  assert (Hbest' : best ∈ hmm_alphabet hmm).
  { apply py_max_key in Hbest.
    assert (Hkeys : Forall (fun Mt => dict_keys Mt = hmm_alphabet hmm)
                           (M0 :: Ms)).
    { constructor; [|done]. by apply row_of_keys in Hrow0 as [? _]. }
    assert (Hlast : List.last (M0 :: Ms) [] ∈ M0 :: Ms)
      by by apply last_elem.
    rewrite Forall_forall in Hkeys. by rewrite <- (Hkeys _ Hlast). }
  apply Forall_forall. intros c Hc.
  assert (Hin : Some c ∈ path).
  { apply list_elem_of_In, in_rev, list_elem_of_In. rewrite Hjoin.
    by apply list_elem_of_fmap_2. }
  destruct (backtrack_items _ _ _ _ Hpath Hin)
    as [[= ->]|(row & k & Hrow & Hk)]; [done|].
  apply list_elem_of_In, in_rev, list_elem_of_In in Hrow.
  rewrite Forall_forall in HBs.
  destruct (HBs _ Hrow) as (Mp & o & Mt & Hrow').
  destruct (row_of_values _ _ _ _ _ _ Hrow' Hk) as (_ & v & Hv).
  by eapply best_prev_symbol.
Qed.

(** With the alphabet of a trained model, whatever [viterbi] returns off
    the fallback path is made of lowercase letters and apostrophes; and a
    non-empty input of uppercase letters is not filtered away: its
    lowercased form is what the tables are computed on, and a string
    returned for it has the length of the input and differs from it. *)
Lemma viterbi_lowercases_Ok hmm :
  hmm_alphabet hmm = alphabet ->
  (forall observations out,
     letters_of alphabet (PyStr.lower observations) ≠ [] ->
     viterbi observations hmm = Ok out ->
     Forall (fun c => is_lower_symbol c = true) out) /\
  (forall observations,
     observations ≠ [] ->
     Forall (fun c => is_upper c = true) observations ->
     exists o0 obs,
       PyStr.lower observations = o0 :: obs /\
       viterbi observations hmm = forward hmm o0 obs ≫= decode_tables /\
       forall out, viterbi observations hmm = Ok out ->
                   length out = length observations /\ out ≠ observations).
Proof.
  intros Habc.
  assert (Hlow : forall observations out,
             letters_of alphabet (PyStr.lower observations) ≠ [] ->
             viterbi observations hmm = Ok out ->
             Forall (fun c => is_lower_symbol c = true) out).
  { intros observations out Hne Hvit. unfold viterbi in Hvit.
    rewrite Habc in Hvit.
    destruct (letters_of _ _) as [|o0 obs]; [done|].
    apply bind_Ok in Hvit as (tables & Hfwd & Hdec).
    pose proof (decode_symbols hmm o0 obs tables out) as Hsym.
    rewrite Habc in Hsym. specialize (Hsym alphabet_NoDup Hfwd Hdec).
    eapply Forall_impl; [exact Hsym|]. simpl. intros c Hc.
    rewrite <- alphabet_symbols. by apply In_list_spec. }
  split; [exact Hlow|].
  intros observations Hne Hup.
  pose proof (letters_of_lower_upper _ Hup) as Hletters.
  destruct observations as [|c s]; [done|].
  exists (PyStr.lower_char c), (PyStr.lower s). split; [done|].
  assert (Hvit : viterbi (c :: s) hmm
                 = forward hmm (PyStr.lower_char c) (PyStr.lower s)
                   ≫= decode_tables).
  { unfold viterbi. rewrite Habc, Hletters. done. }
  split; [exact Hvit|]. intros out Hout. split.
  - pose proof (viterbi_length_Ok (c :: s) hmm out) as Hlen.
    rewrite Habc, Hletters in Hlen. unfold PyStr.lower in Hlen.
    rewrite length_map in Hlen. apply Hlen; [done | exact Hout].
  - intros ->. apply Hlow in Hout; [|by rewrite Hletters].
    inversion Hup as [|? ? Hc _]; subst. inversion Hout as [|? ? Hc' _]; subst.
    destruct (lower_upper c Hc) as [_ Hc'']. congruence.
Qed.

End Symbols.


(** ** Running the decoder by hand *)

Section Running.
Context {Sc : Score}.
Local Open Scope score_scope.

Lemma zip_fmap_fun {A B} (f : A -> B) (l : list A) :
  zip l (f <$> l) = (fun s => (s, f s)) <$> l.
Proof. induction l as [|a l IH]; csimpl; [done | by rewrite IH]. Qed.

Lemma Forall2_fun {A B} (P : A -> B -> Prop) (f : A -> B) (l : list A) :
  (forall s, s ∈ l -> P s (f s)) -> Forall2 P l (f <$> l).
Proof.
  induction l as [|a l IH]; intros H; csimpl; constructor.
  - apply H. by left.
  - apply IH. intros s Hs. apply H. by right.
Qed.

(** The rows of a loop whose body stores [f state]. *)
Lemma fill_rows_fun g (f : ascii -> score * option ascii) l :
  NoDup l ->
  (forall s, s ∈ l -> g s = Ok (f s)) ->
  fill_rows g l ([], [])
  = Ok ((fun s => (s, (f s).1)) <$> l, (fun s => (s, (f s).2)) <$> l).
Proof.
  intros Hnd Hg.
  rewrite (fill_rows_run g l (f <$> l) Hnd) by by apply Forall2_fun.
  rewrite <- !list_fmap_compose, !zip_fmap_fun. done.
Qed.

(** A step at which no candidate exceeds [LOG_ZERO] stores
    [(LOG_ZERO, None)]. *)
Lemma best_prev_dead hmm Mprev o state (cand : ascii -> score) :
  (forall p, p ∈ hmm_alphabet hmm ->
             candidate hmm Mprev state o p = Ok (cand p) /\
             (cand p >? LOG_ZERO) = false) ->
  best_prev hmm Mprev o state = Ok (LOG_ZERO, None).
Proof.
  intros Hcand. unfold best_prev. apply foldM_try_prev.
  exists (cand <$> hmm_alphabet hmm). split.
  - apply Forall2_fun. intros p Hp. by apply Hcand.
  - rewrite zip_fmap_fun, scan_keep; [done|].
    apply Forall_forall. intros [p c] Hin.
    apply list_elem_of_fmap in Hin as (p' & [= -> ->] & Hp). simpl.
    by apply Hcand.
Qed.

(** The decoder raises [TypeError] on a two-symbol input whose second
    step finds no candidate above [LOG_ZERO]. *)
Lemma viterbi_dead_end hmm observations o0 o1 (f0 : ascii -> score)
    (cand : ascii -> ascii -> score) :
  NoDup (hmm_alphabet hmm) ->
  letters_of (hmm_alphabet hmm) (PyStr.lower observations) = [o0; o1] ->
  (forall s, s ∈ hmm_alphabet hmm -> init_score hmm o0 s = Ok (f0 s)) ->
  (forall M0 s p,
     (forall q, q ∈ hmm_alphabet hmm -> dict_get M0 q = Some (f0 q)) ->
     s ∈ hmm_alphabet hmm -> p ∈ hmm_alphabet hmm ->
     candidate hmm M0 s o1 p = Ok (cand s p) /\
     (cand s p >? LOG_ZERO) = false) ->
  forward hmm o0 [o1]
  = Ok ([(fun s => (s, f0 s)) <$> hmm_alphabet hmm;
         (fun s => (s, LOG_ZERO)) <$> hmm_alphabet hmm],
        [(fun s => (s, None)) <$> hmm_alphabet hmm;
         (fun s => (s, None)) <$> hmm_alphabet hmm]) /\
  viterbi observations hmm = Raise TypeError.
Proof.
  intros Hnd HO Hinit Hcand.
  set (abc := hmm_alphabet hmm) in *.
  set (M0 := (fun s => (s, f0 s)) <$> abc).
  set (M1 := (fun s => (s, LOG_ZERO)) <$> abc).
  set (B := (fun s : ascii => (s, @None ascii)) <$> abc).
  assert (Hfwd : forward hmm o0 [o1] = Ok ([M0; M1], [B; B])).
  { unfold forward. fold abc. rewrite init_rows_fill.
    rewrite (fill_rows_fun _ (fun s => (f0 s, None))); [|done|].
    2:{ intros s Hs. by rewrite Hinit. }
    cbn [mbind result_bind fst snd recursion]. fold abc.
    rewrite step_rows_fill.
    rewrite (fill_rows_fun _ (fun s => (LOG_ZERO, None))); [done | done |].
    intros s Hs. apply (best_prev_dead _ _ _ _ (cand s)).
    intros p Hp. apply Hcand; [|done..].
    intros q Hq. by apply (dict_get_fmap f0). }
  split; [exact Hfwd|].
  unfold viterbi. fold abc. rewrite HO. rewrite Hfwd.
  cbn [mbind result_bind]. unfold decode_tables.
  cbn [fst snd List.last tail rev app].
  assert (Habc : abc ≠ []).
  { intros Heq. unfold letters_of in HO. rewrite Heq in HO.
    clear -HO. induction (PyStr.lower observations); [done | by simpl in HO]. }
  destruct (py_max_nonempty M1) as [best Hbest].
  { unfold M1. destruct abc; [done | by csimpl]. }
  rewrite Hbest. cbn [mbind result_bind backtrack].
  assert (Hin : best ∈ abc).
  { apply py_max_key in Hbest. unfold dict_keys, M1 in Hbest.
    rewrite <- list_fmap_compose in Hbest.
    by apply list_elem_of_fmap in Hbest as (s & -> & Hs). }
  unfold B. rewrite (dict_get_fmap (fun _ => None)) by done.
  done.
Qed.

End Running.

(** ** A step with no candidate above the sentinel, on the reals *)

Lemma R_safe_log_indicator (b : bool) :
  @safe_log RScore (if b then 1%Q else 0%Q)
  = Ok (if b then 0%R else (-1e9)%R).
Proof.
  destruct b; unfold safe_log; cbn [math_log LOG_ZERO RScore]; [|done].
  unfold R_log. cbn [Qle_bool Qnum Qden Z.leb Z.mul Z.compare Pos.mul].
  simpl of_option. do 2 f_equal.
  unfold Q2R. simpl. rewrite Rinv_1, Rmult_1_r. apply ln_1.
Qed.

Lemma indicator_row_lookup s o :
  o ∈ alphabet ->
  indicator_row s !! o = Some (if Ascii.eqb s o then 1%Q else 0%Q).
Proof.
  intros Ho. unfold indicator_row.
  change (fold_left _ alphabet ∅)
    with (build (fun o => if Ascii.eqb s o then 1%Q else 0%Q) alphabet ∅).
  by rewrite build_lookup, decide_True.
Qed.

Lemma indicator_table_lookup s o :
  s ∈ alphabet -> o ∈ alphabet ->
  lookup2 indicator_table s o
  = Ok (if Ascii.eqb s o then 1%Q else 0%Q).
Proof.
  intros Hs Ho. unfold lookup2, indicator_table.
  change (fold_left _ alphabet ∅) with (build indicator_row alphabet ∅).
  rewrite build_lookup, decide_True by done.
  cbn [of_option mbind result_bind]. by rewrite indicator_row_lookup.
Qed.

Lemma frozen_init_score s :
  s ∈ alphabet ->
  @init_score RScore frozen_hmm "a" s = Ok (frozen_init s).
Proof.
  intros Hs. unfold init_score. cbn [hmm_start hmm_E frozen_hmm].
  rewrite indicator_row_lookup by done. cbn [of_option mbind result_bind].
  rewrite !indicator_table_lookup by (done || by apply In_list_spec).
  repeat (rewrite R_safe_log_indicator; cbn [mbind result_bind]).
  done.
Qed.

Lemma frozen_candidate (M0 : dict ascii (@score RScore)) s p :
  dict_get M0 p = Some (frozen_init p) ->
  s ∈ alphabet -> p ∈ alphabet ->
  @candidate RScore frozen_hmm M0 s "b" p = Ok (frozen_cand s p).
Proof.
  intros HM Hs Hp. unfold candidate. cbn [hmm_T hmm_E frozen_hmm].
  rewrite HM. cbn [of_option mbind result_bind].
  rewrite !indicator_table_lookup by (done || by apply In_list_spec).
  cbn [mbind result_bind].
  repeat (rewrite R_safe_log_indicator; cbn [mbind result_bind]).
  done.
Qed.

Lemma frozen_cand_le s p : (frozen_cand s p <= -1e9)%R.
Proof.
  unfold frozen_cand, frozen_init.
  destruct (Ascii.eqb_spec "a" p) as [<-|Hp].
  - destruct (Ascii.eqb_spec "a" s) as [<-|Hs];
      [|destruct (Ascii.eqb s "b")]; simpl; lra.
  - destruct (Ascii.eqb p "a"), (Ascii.eqb p s), (Ascii.eqb s "b"); lra.
Qed.

(** C3, at a model and a word: on the hand-built model
    [frozen_hmm] and the word ["ab"], at time 1 no candidate exceeds
    [LOG_ZERO].  For the symbol [c] every candidate is at most [-2e9], yet
    the stored score is [LOG_ZERO = -1e9]; for the symbol [b] the largest
    candidate, [-1e9], is offered first by [a], yet the stored backpointer
    is [None]; and the decoder ends in [TypeError]. *)
Theorem recursion_floor_frozen :
  exists M0 M1 B0 B1,
    @forward RScore frozen_hmm "a" ["b"%char] = Ok ([M0; M1], [B0; B1]) /\
    dict_get M1 "c"%char = Some (-1e9)%R /\
    dict_get B1 "c"%char = Some None /\
    (forall p, p ∈ alphabet ->
       exists c, @candidate RScore frozen_hmm M0 "c" "b" p = Ok c /\
                 (c <= -2e9)%R) /\
    @candidate RScore frozen_hmm M0 "b" "b" "a" = Ok (-1e9)%R /\
    (forall p, p ∈ alphabet ->
       exists c, @candidate RScore frozen_hmm M0 "b" "b" p = Ok c /\
                 (c <= -1e9)%R) /\
    dict_get B1 "b"%char = Some None /\
    @viterbi RScore (chars "ab") frozen_hmm = Raise TypeError.
Proof.
  destruct (@viterbi_dead_end RScore frozen_hmm (chars "ab") "a" "b"
              frozen_init frozen_cand) as [Hfwd Hvit].
  - apply alphabet_NoDup.
  - by vm_compute.
  - apply frozen_init_score.
  - intros M0 s p HM Hs Hp. split.
    + apply frozen_candidate; [by apply HM | done | done].
    + cbn [score_gtb LOG_ZERO RScore]. unfold Rgtb.
      pose proof (frozen_cand_le s p).
      destruct (Rgt_dec _ _); [lra | done].
  - cbn [hmm_alphabet frozen_hmm] in Hfwd.
    eexists _, _, _, _. split; [exact Hfwd|].
    assert (HM0 : forall q, q ∈ alphabet ->
              dict_get ((fun s => (s, frozen_init s)) <$> alphabet) q
              = Some (frozen_init q)).
    { intros q Hq. by apply (dict_get_fmap frozen_init). }
    assert (Hc : "c"%char ∈ alphabet) by by apply In_list_spec.
    assert (Hb : "b"%char ∈ alphabet) by by apply In_list_spec.
    assert (Ha : "a"%char ∈ alphabet) by by apply In_list_spec.
    refine (conj _ (conj _ (conj _ (conj _ (conj _ (conj _ _)))))).
    + exact (dict_get_fmap (fun _ => @LOG_ZERO RScore) alphabet _ Hc).
    + exact (dict_get_fmap (fun _ => None) alphabet _ Hc).
    + intros p Hp. exists (frozen_cand "c" p). split.
      * apply frozen_candidate; [by apply HM0 | done | done].
      * unfold frozen_cand, frozen_init.
        destruct (Ascii.eqb_spec "a" p) as [<-|Hne].
        -- simpl. lra.
        -- destruct (Ascii.eqb p "a"), (Ascii.eqb p "c"); simpl; lra.
    + rewrite frozen_candidate; [|by apply HM0|done..].
      f_equal. unfold frozen_cand, frozen_init. simpl. lra.
    + intros p Hp. exists (frozen_cand "b" p). split.
      * apply frozen_candidate; [by apply HM0 | done | done].
      * apply frozen_cand_le.
    + exact (dict_get_fmap (fun _ => None) alphabet _ Hb).
    + exact Hvit.
Qed.

Example viterbi_frozen_ab :
  @viterbi ZScore (chars "ab") frozen_hmm = Raise TypeError.
Proof. vm_compute. reflexivity. Qed.

(** ** The final symbol *)

Section Termination.
Context {Sc : Score}.

Lemma backtrack_head rows best path :
  backtrack rows best = Ok path -> exists path', path = best :: path'.
Proof.
  destruct rows as [|row rows]; simpl.
  - intros [= <-]. by exists [].
  - intros H. apply bind_Ok in H as (prev & _ & H).
    apply bind_Ok in H as (path' & _ & [= <-]). by exists path'.
Qed.

(** TERMINATION: the last symbol of the decoded string is the key of the
    first maximum of the last row of [M], in the row's order. *)
Theorem termination_first_max tables out :
  decode_tables tables = Ok out ->
  exists best v,
    first_max (List.last tables.1 []) best v /\ last out = Some best.
Proof.
  unfold decode_tables. intros H.
  apply bind_Ok in H as (best & Hbest & H).
  apply bind_Ok in H as (path & Hpath & Hjoin).
  apply py_max_spec in Hbest as [v Hmax]. exists best, v. split; [done|].
  apply backtrack_head in Hpath as [path' ->].
  apply join_path_Ok in Hjoin. simpl in Hjoin.
  apply (f_equal last) in Hjoin.
  rewrite last_snoc, fmap_last in Hjoin.
  destruct (last out) as [c|]; [|done]. by injection Hjoin as ->.
Qed.

(** The last row of [M] lists the alphabet in its order, so the first
    maximum is the first in alphabet order. *)
Lemma last_row_keys hmm o0 obs M BP :
  NoDup (hmm_alphabet hmm) ->
  forward hmm o0 obs = Ok (M, BP) ->
  dict_keys (List.last M []) = hmm_alphabet hmm.
Proof.
  intros Hnd Hfwd.
  apply forward_rows in Hfwd
    as (M0 & B0 & Ms & Bs & -> & -> & Hrow0 & Hrows); [|done].
  apply rows_from_rows in Hrows as [HMs _].
  assert (Hkeys : Forall (fun Mt => dict_keys Mt = hmm_alphabet hmm)
                         (M0 :: Ms)).
  { constructor; [|done]. by apply row_of_keys in Hrow0 as [? _]. }
  rewrite Forall_forall in Hkeys. apply Hkeys. by apply last_elem.
Qed.

End Termination.

(** ** When the decoder returns *)

Section Returns.
Context {Sc : Score}.

Lemma backtrack_good abc rows b :
  Forall (good_row abc) rows -> b ∈ abc ->
  exists path, backtrack rows (Some b) = Ok (Some <$> path).
Proof.
  intros Hrows. revert b.
  induction Hrows as [|row rows Hrow _ IH]; intros b Hb; simpl.
  - by exists [b].
  - destruct (Hrow b Hb) as (p & Hp & Hget). rewrite Hget. simpl.
    destruct (IH p Hp) as (path & ->). simpl. by exists (b :: path).
Qed.

Lemma fmap_rev {A B} (f : A -> B) (l : list A) :
  f <$> rev l = rev (f <$> l).
Proof.
  induction l as [|a l IH]; [done|]. csimpl. by rewrite fmap_app, IH.
Qed.

Lemma join_path_Some s : join_path (Some <$> s) = Ok s.
Proof. by apply join_path_Ok. Qed.

(** TERMINATION and BACKTRACK succeed on tables whose last score row
    lists a non-empty alphabet and whose backpointer rows of the time
    steps [1 ..] are good. *)
Lemma decode_tables_good abc (M : list (dict ascii score)) BP :
  abc ≠ [] ->
  dict_keys (List.last M []) = abc ->
  Forall (good_row abc) (tail BP) ->
  exists out, decode_tables (M, BP) = Ok out.
Proof.
  intros Habc Hkeys Hgood. unfold decode_tables. cbn [fst snd].
  destruct (py_max_nonempty (List.last M [])) as [best Hbest].
  { intros Heq. rewrite Heq in Hkeys. by symmetry in Hkeys. }
  rewrite Hbest. cbn [mbind result_bind].
  destruct (backtrack_good abc (rev (tail BP)) best) as [path Hpath].
  - apply Forall_forall. intros row Hrow.
    rewrite Forall_forall in Hgood. apply Hgood.
    by apply list_elem_of_In, in_rev, list_elem_of_In.
  - apply py_max_key in Hbest. by rewrite Hkeys in Hbest.
  - rewrite Hpath. cbn [mbind result_bind]. exists (rev path).
    apply join_path_Ok. by rewrite fmap_rev.
Qed.

Lemma lookup2_table_get tbl a b p :
  table_get tbl a b = Some p -> lookup2 tbl a b = Ok p.
Proof.
  unfold table_get, lookup2. destruct (tbl !! a) as [row|]; simpl; [|done].
  by intros ->.
Qed.

Lemma Forall2_choice {A B} (P : A -> B -> Prop) (l : list A) :
  (forall a, a ∈ l -> exists b, P a b) -> exists bs, Forall2 P l bs.
Proof.
  induction l as [|a l IH]; intros H.
  - by exists [].
  - destruct (H a) as [b Hb]; [by left|].
    destruct IH as [bs Hbs]; [intros a' Ha'; apply H; by right|].
    exists (b :: bs). by constructor.
Qed.

End Returns.

(** ** The decoder returns on models without small probabilities *)

Lemma Rgtb_true a b : Rgtb a b = true <-> (a > b)%R.
Proof. unfold Rgtb. destruct (Rgt_dec a b); split; (done || lra). Qed.

Lemma ln_mono x y : (0 < x)%R -> (x <= y)%R -> (ln x <= ln y)%R.
Proof.
  intros Hx [Hlt|Heq]; [|rewrite Heq; lra]. left. by apply ln_increasing.
Qed.

(** [ln x < x]: the bound that turns a floor on the probabilities into a
    floor on their logarithms. *)
Lemma ln_lt_id x : (0 < x)%R -> (ln x < x)%R.
Proof.
  intros Hx. rewrite <- (ln_exp x) at 2. apply ln_increasing; [done|].
  pose proof (exp_ineq1_le x). lra.
Qed.

Lemma zip_Forall2 {A B} (P : A -> B -> Prop) (l : list A) (bs : list B) a b :
  Forall2 P l bs -> (a, b) ∈ zip l bs -> P a b.
Proof.
  induction 1 as [|a' b' l bs Hab _ IH]; csimpl; [by inversion 1|].
  intros [[= -> ->]|Hin]%elem_of_cons; [done | by apply IH].
Qed.

Section ReturnsR.
Variable hmm : HMM.
Variable pmin : Q.
Hypothesis Hnd : NoDup (hmm_alphabet hmm).
Hypothesis Hpmin : (0 < pmin)%Q.
Hypothesis Hpmin1 : (pmin <= 1)%Q.
Hypothesis Hstart : forall s, s ∈ hmm_alphabet hmm ->
  exists p, hmm_start hmm !! s = Some p /\ (pmin <= p)%Q.
Hypothesis HE : forall s t, s ∈ hmm_alphabet hmm -> t ∈ hmm_alphabet hmm ->
  exists p, table_get (hmm_E hmm) s t = Some p /\ (pmin <= p)%Q.
Hypothesis HT : forall s t, s ∈ hmm_alphabet hmm -> t ∈ hmm_alphabet hmm ->
  exists p, table_get (hmm_T hmm) s t = Some p /\ (pmin <= p)%Q.

Lemma Q2R_pmin_pos : (0 < Q2R pmin)%R.
Proof. rewrite <- RMicromega.Q2R_0. by apply Qlt_Rlt. Qed.

Lemma lnmin_nonpos : (lnmin pmin <= 0)%R.
Proof.
  unfold lnmin. rewrite <- ln_1. apply ln_mono; [apply Q2R_pmin_pos|].
  rewrite <- RMicromega.Q2R_1. by apply Qle_Rle.
Qed.

Lemma safe_log_ge p :
  (pmin <= p)%Q ->
  exists v : R, @safe_log RScore p = Ok v /\ (lnmin pmin <= v)%R.
Proof.
  intros Hp. exists (ln (Q2R p)). split.
  - apply R_safe_log_pos. Lqa.lra.
  - apply ln_mono; [apply Q2R_pmin_pos | by apply Qle_Rle].
Qed.

Lemma init_score_ge o0 s :
  o0 ∈ hmm_alphabet hmm -> s ∈ hmm_alphabet hmm ->
  exists v : R, @init_score RScore hmm o0 s = Ok v /\ (2 * lnmin pmin <= v)%R.
Proof.
  intros Ho Hs. unfold init_score.
  destruct (Hstart s Hs) as (p & Hps & Hp).
  destruct (safe_log_ge p Hp) as (lp & Hlp & Hlp').
  destruct (HE s o0 Hs Ho) as (e & He%lookup2_table_get & Hpe).
  destruct (safe_log_ge e Hpe) as (le & Hle & Hle').
  rewrite Hps. cbn [of_option mbind result_bind]. rewrite Hlp.
  cbn [mbind result_bind]. rewrite He.
  cbn [mbind result_bind]. rewrite Hle. cbn [mbind result_bind].
  eexists; split; [done|]. cbn [score_add RScore]. lra.
Qed.

Lemma candidate_ge (Mprev : dict ascii (@score RScore)) s o p (m : R) :
  dict_get Mprev p = Some m ->
  s ∈ hmm_alphabet hmm -> o ∈ hmm_alphabet hmm -> p ∈ hmm_alphabet hmm ->
  exists c : R, @candidate RScore hmm Mprev s o p = Ok c /\
                (m + 2 * lnmin pmin <= c)%R.
Proof.
  intros Hm Hs Ho Hp. unfold candidate. rewrite Hm.
  destruct (HT p s Hp Hs) as (t & Ht%lookup2_table_get & Hpt).
  destruct (safe_log_ge t Hpt) as (lt & Hlt & Hlt').
  destruct (HE s o Hs Ho) as (e & He%lookup2_table_get & Hpe).
  destruct (safe_log_ge e Hpe) as (le & Hle & Hle').
  cbn [of_option mbind result_bind]. rewrite Ht.
  cbn [mbind result_bind]. rewrite Hlt. cbn [mbind result_bind].
  rewrite He. cbn [mbind result_bind]. rewrite Hle.
  cbn [mbind result_bind]. eexists; split; [done|].
  cbn [score_add RScore]. lra.
Qed.

(** A step from a row above [b] stays above the sentinel when
    [b + 2 * lnmin pmin] does: it records a symbol and a score of at least
    [b + 2 * lnmin pmin]. *)
Lemma best_prev_alive Mprev o s b :
  row_ge hmm b Mprev -> (-1e9 < b + 2 * lnmin pmin)%R ->
  o ∈ hmm_alphabet hmm -> s ∈ hmm_alphabet hmm ->
  exists (v : R) p,
    @best_prev RScore hmm Mprev o s = Ok (v, Some p) /\
    p ∈ hmm_alphabet hmm /\ (b + 2 * lnmin pmin <= v)%R.
Proof.
  intros Hrow Hb Ho Hs.
  destruct (Forall2_choice
              (fun p (c : R) => @candidate RScore hmm Mprev s o p = Ok c /\
                                (b + 2 * lnmin pmin <= c)%R)
              (hmm_alphabet hmm)) as [vals Hvals].
  { intros p Hp. destruct (Hrow p Hp) as (m & Hm & Hbm).
    destruct (candidate_ge Mprev s o p m Hm Hs Ho Hp) as (c & Hc & Hmc).
    exists c. split; [done | lra]. }
  destruct (@scan RScore (zip (hmm_alphabet hmm) vals) (LOG_ZERO, None))
    as [v kr] eqn:Hscan.
  assert (Hbest : @best_prev RScore hmm Mprev o s = Ok (v, kr)).
  { unfold best_prev. apply foldM_try_prev. exists vals. split; [|done].
    eapply Forall2_impl; [exact Hvals|]. by intros ? ? [? _]. }
  apply scan_spec in Hscan as [(_ & _ & Hall)|(k & -> & Hmax & _)].
  - exfalso. destruct Hvals as [|p c l vals' [_ Hc] _]; [by inversion Hs|].
    csimpl in Hall. inversion Hall as [|? ? Hgt _]; subst.
    cbn [snd score_gtb LOG_ZERO RScore] in Hgt.
    assert (Htrue : Rgtb c (-1e9) = true) by (apply Rgtb_true; lra).
    congruence.
  - exists v, k. split; [done|].
    split; [exact (@first_max_key RScore _ _ _ _ Hmax)|].
    destruct Hmax as (l1 & l2 & Hzip & _).
    assert (Hin : (k, v) ∈ zip (hmm_alphabet hmm) vals).
    { rewrite Hzip. apply elem_of_app. right. by left. }
    by destruct (zip_Forall2 _ _ _ _ _ Hvals Hin).
Qed.

Lemma step_alive Mprev o b :
  row_ge hmm b Mprev -> (-1e9 < b + 2 * lnmin pmin)%R ->
  o ∈ hmm_alphabet hmm ->
  exists Mt Bt,
    foldM (@step_state RScore hmm Mprev o) (hmm_alphabet hmm) ([], [])
    = Ok (Mt, Bt) /\
    row_ge hmm (b + 2 * lnmin pmin) Mt /\
    good_row (hmm_alphabet hmm) Bt /\
    dict_keys Mt = hmm_alphabet hmm.
Proof.
  intros Hrow Hb Ho.
  destruct (Forall2_choice
              (fun s r => @best_prev RScore hmm Mprev o s = Ok r)
              (hmm_alphabet hmm)) as [rs Hrs].
  { intros s Hs. destruct (best_prev_alive Mprev o s b) as (v & p & H & _);
      [done..|]. by eexists. }
  assert (Hrowof : row_of (@best_prev RScore hmm Mprev o) (hmm_alphabet hmm)
                     (zip (hmm_alphabet hmm) (fst <$> rs))
                     (zip (hmm_alphabet hmm) (snd <$> rs)))
    by by exists rs.
  eexists _, _. split.
  { rewrite step_rows_fill. by apply fill_rows_run. }
  split; [|split].
  - intros s Hs.
    destruct (row_of_get _ _ _ _ _ Hrowof Hs) as (r & Hr & HM & _).
    destruct (best_prev_alive Mprev o s b) as (v & p & H & _ & Hv); [done..|].
    rewrite H in Hr. injection Hr as <-. by exists v.
  - intros s Hs.
    destruct (row_of_get _ _ _ _ _ Hrowof Hs) as (r & Hr & _ & HB).
    destruct (best_prev_alive Mprev o s b) as (v & p & H & Hp & _); [done..|].
    rewrite H in Hr. injection Hr as <-. by exists p.
  - by apply row_of_keys in Hrowof as [? _].
Qed.

Lemma recursion_alive obs Mprev b :
  row_ge hmm b Mprev ->
  Forall (fun o => o ∈ hmm_alphabet hmm) obs ->
  (-1e9 < b + 2 * lnmin pmin * INR (length obs))%R ->
  exists Ms Bs,
    @recursion RScore hmm Mprev obs = Ok (Ms, Bs) /\
    Forall (good_row (hmm_alphabet hmm)) Bs /\
    Forall (fun Mt => dict_keys Mt = hmm_alphabet hmm) Ms.
Proof.
  intros Hrow Hobs. revert Mprev b Hrow.
  induction Hobs as [|o obs Ho _ IH]; intros Mprev b Hrow Hb.
  - by exists [], [].
  - pose proof lnmin_nonpos as Hln.
    assert (Hlen : (0 <= INR (length obs))%R) by apply pos_INR.
    rewrite length_cons, S_INR in Hb.
    destruct (step_alive Mprev o b) as (Mt & Bt & Hstep & HMt & HBt & Hkeys);
      [done | nra | done |].
    destruct (IH Mt (b + 2 * lnmin pmin)%R HMt) as (Ms & Bs & Hrec & HBs & HMs);
      [lra|].
    exists (Mt :: Ms), (Bt :: Bs). cbn [recursion].
    rewrite Hstep. cbn [mbind result_bind fst snd]. rewrite Hrec.
    cbn [mbind result_bind fst snd]. repeat split; by constructor.
Qed.

(** The decoder returns on every word whose filtered length [n] keeps
    [2 * n * lnmin pmin] above the sentinel. *)
Lemma viterbi_returns_ln observations :
  letters_of (hmm_alphabet hmm) (PyStr.lower observations) ≠ [] ->
  (-1e9 < 2 * lnmin pmin
          * INR (length (letters_of (hmm_alphabet hmm)
                                    (PyStr.lower observations))))%R ->
  exists out, @viterbi RScore observations hmm = Ok out.
Proof.
  intros Hne Hb. unfold viterbi.
  pose proof (letters_of_Forall (hmm_alphabet hmm)
                (PyStr.lower observations)) as Hall.
  destruct (letters_of _ _) as [|o0 obs]; [done|].
  apply Forall_cons in Hall as [Ho0 Hobs].
  rewrite length_cons, S_INR in Hb.
  destruct (Forall2_choice
              (fun s (r : @score RScore * option ascii) =>
                 (v ← @init_score RScore hmm o0 s; Ok (v, None)) = Ok r)
              (hmm_alphabet hmm)) as [rs Hrs].
  { intros s Hs. destruct (init_score_ge o0 s Ho0 Hs) as (v & -> & _).
    by eexists. }
  set (g := fun s => v ← @init_score RScore hmm o0 s;
                     Ok (v, @None ascii)) in *.
  assert (Hrowof : row_of g (hmm_alphabet hmm)
                     (zip (hmm_alphabet hmm) (fst <$> rs))
                     (zip (hmm_alphabet hmm) (snd <$> rs)))
    by by exists rs.
  assert (HM0 : row_ge hmm (2 * lnmin pmin) (zip (hmm_alphabet hmm) (fst <$> rs))).
  { intros s Hs.
    destruct (row_of_get _ _ _ _ _ Hrowof Hs) as (r & Hr & HM & _).
    destruct (init_score_ge o0 s Ho0 Hs) as (v & Hv & Hge).
    unfold g in Hr. rewrite Hv in Hr. injection Hr as <-. by exists v. }
  destruct (recursion_alive obs _ _ HM0 Hobs) as (Ms & Bs & Hrec & HBs & HMs);
    [lra|].
  unfold forward. rewrite init_rows_fill. fold g.
  rewrite (fill_rows_run g _ rs) by done.
  cbn [mbind result_bind fst snd]. rewrite Hrec.
  cbn [mbind result_bind fst snd].
  apply (decode_tables_good (hmm_alphabet hmm)).
  - intros Heq. rewrite Heq in Ho0. by inversion Ho0.
  - assert (Hkeys : Forall (fun Mt => dict_keys Mt = hmm_alphabet hmm)
                           (zip (hmm_alphabet hmm) (fst <$> rs) :: Ms)).
    { constructor; [|done]. by apply row_of_keys in Hrowof as [? _]. }
    rewrite Forall_forall in Hkeys. apply Hkeys. by apply last_elem.
  - done.
Qed.

Lemma init_row_ge o0 M0 B0 :
  o0 ∈ hmm_alphabet hmm ->
  row_of (fun state => v ← @init_score RScore hmm o0 state; Ok (v, None))
         (hmm_alphabet hmm) M0 B0 ->
  row_ge hmm (2 * lnmin pmin) M0.
Proof.
  intros Ho0 Hrow s Hs.
  destruct (row_of_get _ _ _ _ _ Hrow Hs) as (r & Hr & HM & _).
  destruct (init_score_ge o0 s Ho0 Hs) as (v & Hv & Hge).
  rewrite Hv in Hr. injection Hr as <-. by exists v.
Qed.

Lemma step_row_ge Mprev o Mt Bt b :
  row_ge hmm b Mprev -> (-1e9 < b + 2 * lnmin pmin)%R ->
  o ∈ hmm_alphabet hmm ->
  row_of (@best_prev RScore hmm Mprev o) (hmm_alphabet hmm) Mt Bt ->
  row_ge hmm (b + 2 * lnmin pmin) Mt.
Proof.
  intros Hrow Hb Ho Hrowof s Hs.
  destruct (row_of_get _ _ _ _ _ Hrowof Hs) as (r & Hr & HM & _).
  destruct (best_prev_alive Mprev o s b) as (v & p & H & _ & Hv); [done..|].
  rewrite H in Hr. injection Hr as <-. by exists v.
Qed.

(** The score row a time step starts from is above the sentinel by the
    margin the rest of the word needs. *)
Lemma rows_from_ge Mprev obs Ms Bs b i o :
  rows_from hmm Mprev obs Ms Bs ->
  row_ge hmm b Mprev ->
  Forall (fun o => o ∈ hmm_alphabet hmm) obs ->
  (-1e9 < b + 2 * lnmin pmin * INR (length obs))%R ->
  obs !! i = Some o ->
  exists Mp b',
    (Mprev :: Ms) !! i = Some Mp /\ row_ge hmm b' Mp /\
    (-1e9 < b' + 2 * lnmin pmin)%R.
Proof.
  intros Hrows. revert b i.
  induction Hrows as [|Mprev o' obs Mt Bt Ms Bs Hrow Hrows IH];
    intros b i Hge Hobs Hb Hi.
  - by rewrite lookup_nil in Hi.
  - pose proof lnmin_nonpos as Hln.
    assert (Hlen : (0 <= INR (length obs))%R) by apply pos_INR.
    rewrite length_cons, S_INR in Hb.
    apply Forall_cons in Hobs as [Ho' Hobs].
    destruct i as [|i].
    + exists Mprev, b. repeat split; [done|]. nra.
    + simpl in Hi.
      destruct (IH (b + 2 * lnmin pmin)%R i) as (Mp & b' & HMp & Hge' & Hb');
        [eapply step_row_ge; [done | nra | done | done] | done | lra | done |].
      by exists Mp, b'.
Qed.

(** On a word short enough for the model, every step of the recursion
    stores the first maximum of its candidates and the symbol offering
    it. *)
Lemma recursion_step_alive o0 obs M BP time o state :
  @forward RScore hmm o0 obs = Ok (M, BP) ->
  Forall (fun o => o ∈ hmm_alphabet hmm) (o0 :: obs) ->
  (-1e9 < 2 * lnmin pmin * INR (length (o0 :: obs)))%R ->
  (o0 :: obs) !! (time + 1)%nat = Some o ->
  state ∈ hmm_alphabet hmm ->
  exists Mprev Mt Bt (v : R) p vals,
    M !! time = Some Mprev /\ M !! (time + 1)%nat = Some Mt /\
    BP !! (time + 1)%nat = Some Bt /\
    dict_get Mt state = Some v /\ dict_get Bt state = Some (Some p) /\
    Forall2 (fun q c => @candidate RScore hmm Mprev state o q = Ok c)
            (hmm_alphabet hmm) vals /\
    @first_max RScore (zip (hmm_alphabet hmm) vals) p v.
Proof.
  intros Hfwd Hall Hb Ho Hstate.
  destruct (@recursion_step RScore hmm o0 obs M BP time o state
              Hnd Hfwd Ho Hstate)
    as (Mprev & Mt & Bt & v & bp & vals & HMp & HMt & HBt & Hv & Hbp
        & Hvals & Hcases).
  exists Mprev, Mt, Bt, v.
  destruct Hcases as [(-> & -> & Hdead)|(p & -> & Hmax & _)];
    [exfalso | by exists p, vals].
  apply forward_rows in Hfwd
    as (M0 & B0 & Ms & Bs & -> & -> & Hrow0 & Hrows); [|done].
  apply Forall_cons in Hall as [Ho0 Hobs].
  rewrite length_cons, S_INR in Hb. rewrite Nat.add_1_r in Ho. simpl in Ho.
  destruct (rows_from_ge M0 obs Ms Bs (2 * lnmin pmin)%R time o Hrows)
    as (Mp & b' & HMp' & Hge & Hb');
    [exact (init_row_ge o0 M0 B0 Ho0 Hrow0) | done | lra | done |].
  rewrite HMp in HMp'. injection HMp' as <-.
  assert (Ho' : o ∈ hmm_alphabet hmm).
  { rewrite Forall_forall in Hobs. apply Hobs.
    by eapply list_elem_of_lookup_2. }
  destruct (list_elem_of_lookup_1 _ _ Hstate) as [i Hi].
  destruct (Forall2_lookup_l _ _ _ _ _ Hvals Hi) as (c & Hci & Hc).
  rewrite Forall_forall in Hdead.
  pose proof (Hdead c (list_elem_of_lookup_2 _ _ _ Hci)) as Hgt.
  destruct (Hge state Hstate) as (m & Hm & Hbm).
  destruct (candidate_ge Mprev state o state m Hm Hstate Ho' Hstate)
    as (c' & Hc' & Hmc).
  rewrite Hc in Hc'. injection Hc' as <-.
  cbn [score_gtb LOG_ZERO RScore] in Hgt.
  assert (Htrue : Rgtb c (-1e9) = true) by (apply Rgtb_true; lra).
  congruence.
Qed.

End ReturnsR.

(** ** The decoder returns on trained models *)

Lemma count_bound_spec st :
  (forall s, s ∈ alphabet ->
     counter_total (dd_get (emission_counts st) s) <= count_bound st) /\
  (forall s, s ∈ alphabet ->
     counter_total (dd_get (transition_counts st) s) <= count_bound st) /\
  counter_total (start_counts st) <= count_bound st.
Proof.
  pose proof (proj1 (list_max_le _ (count_bound st)) (le_n _)) as Hall.
  unfold count_bound in *.
  rewrite !List.Forall_app in Hall. destruct Hall as (HE & HT & HS).
  rewrite List.Forall_forall in HE, HT.
  repeat split.
  - intros s Hs. apply HE, list_elem_of_In.
    exact (list_elem_of_fmap_2
             (fun s => counter_total (dd_get (emission_counts st) s))
             alphabet s Hs).
  - intros s Hs. apply HT, list_elem_of_In.
    exact (list_elem_of_fmap_2
             (fun s => counter_total (dd_get (transition_counts st) s))
             alphabet s Hs).
  - by inversion HS.
Qed.

Lemma Qnat_le a b : a <= b -> (Qnat a <= Qnat b)%Q.
Proof. intros H. unfold Qnat. rewrite <- Zle_Qle. lia. Qed.

Lemma smoothed_ge n cnt N :
  counter_total cnt <= N ->
  (0.01 / (Qnat N + 27 * 0.01) <= (Qnat n + smoothing) / row_total cnt)%Q.
Proof.
  intros Hle. pose proof (row_total_pos cnt) as Htot.
  pose proof (Qnat_nonneg n) as Hn. pose proof (Qnat_nonneg N) as HN.
  pose proof (Qnat_le _ _ Hle) as HleQ.
  assert (HB : (0 < Qnat N + 27 * 0.01)%Q) by Lqa.lra.
  apply Qle_shift_div_l; [done|].
  assert (Heq : (0.01 / (Qnat N + 27 * 0.01) * row_total cnt
                 == 0.01 * row_total cnt / (Qnat N + 27 * 0.01))%Q).
  { field. Lqa.lra. }
  rewrite Heq. apply Qle_shift_div_r; [done|].
  unfold row_total in *. change (Qnat V) with 27%Q in *. unfold smoothing in *.
  apply Qle_trans with (0.01 * (Qnat N + 27 * 0.01))%Q.
  - apply Qmult_le_l; [reflexivity | Lqa.lra].
  - apply Qmult_le_r; [done | Lqa.lra].
Qed.

Lemma trained_floor_pos st :
  (0 < trained_floor st)%Q /\ (trained_floor st <= 1)%Q.
Proof.
  unfold trained_floor. pose proof (Qnat_nonneg (count_bound st)) as HN.
  split.
  - apply Qlt_shift_div_l; Lqa.lra.
  - apply Qle_shift_div_r; Lqa.lra.
Qed.

(** Every entry of a trained model is at least [trained_floor]. *)
Lemma trained_entries st :
  (forall s, s ∈ alphabet ->
     exists p, hmm_start (hmm_of_counts st) !! s = Some p /\
               (trained_floor st <= p)%Q) /\
  (forall s t, s ∈ alphabet -> t ∈ alphabet ->
     exists p, table_get (hmm_E (hmm_of_counts st)) s t = Some p /\
               (trained_floor st <= p)%Q) /\
  (forall s t, s ∈ alphabet -> t ∈ alphabet ->
     exists p, table_get (hmm_T (hmm_of_counts st)) s t = Some p /\
               (trained_floor st <= p)%Q).
Proof.
  destruct (count_bound_spec st) as (HE & HT & HS).
  unfold hmm_of_counts; cbn [hmm_start hmm_E hmm_T]. repeat split.
  - intros s Hs. rewrite start_table_get by done.
    eexists; split; [done|]. by apply smoothed_ge.
  - intros s t Hs Ht. rewrite emission_table_get by done.
    eexists; split; [done|]. apply smoothed_ge. by apply HE.
  - intros s t Hs Ht. rewrite transition_table_get by done.
    eexists; split; [done|]. apply smoothed_ge. by apply HT.
Qed.

Lemma Q2R_Qnat n : Q2R (Qnat n) = INR n.
Proof.
  unfold Qnat, Q2R. simpl. rewrite Rinv_1, Rmult_1_r. by rewrite INR_IZR_INZ.
Qed.

(** [- ln (trained_floor st)] is below [100 * count_bound st + 27]. *)
Lemma trained_floor_ln st :
  (- (100 * INR (count_bound st) + 27) < ln (Q2R (trained_floor st)))%R.
Proof.
  destruct (trained_floor_pos st) as [Hpos _].
  assert (Hpos' : (0 < Q2R (trained_floor st))%R).
  { rewrite <- RMicromega.Q2R_0. by apply Qlt_Rlt. }
  assert (Hinv : (/ Q2R (trained_floor st)
                  = 100 * INR (count_bound st) + 27)%R).
  { rewrite <- Q2R_inv by Lqa.lra.
    assert (Heq : (/ trained_floor st
                   == 100 * Qnat (count_bound st) + 27)%Q).
    { unfold trained_floor. pose proof (Qnat_nonneg (count_bound st)).
      field. Lqa.lra. }
    rewrite (Qeq_eqR _ _ Heq), Q2R_plus, Q2R_mult, Q2R_Qnat.
    unfold Q2R. simpl. lra. }
  rewrite <- Hinv.
  pose proof (ln_lt_id (/ Q2R (trained_floor st))) as Hlt.
  rewrite ln_Rinv in Hlt by done.
  assert (0 < / Q2R (trained_floor st))%R by by apply Rinv_0_lt_compat.
  lra.
Qed.

(** On a model trained on any corpus, with real arithmetic, the decoder
    returns a string for every word whose filtered length [n] satisfies
    [2 * n * (100 * N + 27) <= 10^9], where [N] is the largest row total
    of the training counts. *)
Theorem viterbi_trained_returns lines observations :
  letters_of alphabet (PyStr.lower observations) ≠ [] ->
  (2 * Z.of_nat (length (letters_of alphabet (PyStr.lower observations)))
   * (100 * Z.of_nat (count_bound (learn_lines lines)) + 27)
   <= 1000000000)%Z ->
  exists out, @viterbi RScore observations (train lines) = Ok out.
Proof.
  intros Hne Hlen. set (st := learn_lines lines) in *.
  destruct (trained_floor_pos st) as [Hpos Hle1].
  destruct (trained_entries st) as (HS & HE & HT).
  apply (viterbi_returns_ln (train lines) (trained_floor st));
    try done; try apply alphabet_NoDup.
  cbn [hmm_alphabet train hmm_of_counts].
  set (n := length _) in *. unfold lnmin.
  pose proof (trained_floor_ln st) as Hln.
  assert (Hn : (1 <= INR n)%R).
  { change 1%R with (INR 1). apply le_INR.
    destruct (letters_of alphabet (PyStr.lower observations)); [done|].
    subst n. simpl. lia. }
  apply IZR_le in Hlen.
  rewrite !mult_IZR, plus_IZR, mult_IZR, <- !INR_IZR_INZ in Hlen.
  pose proof (pos_INR (count_bound st)) as HN.
  set (x := ln (Q2R (trained_floor st))) in *.
  set (B := (100 * INR (count_bound st) + 27)%R) in *.
  nra.
Qed.

Lemma trained_margin st n :
  1 <= n ->
  (2 * Z.of_nat n * (100 * Z.of_nat (count_bound st) + 27)
   <= 1000000000)%Z ->
  (-1e9 < 2 * lnmin (trained_floor st) * INR n)%R.
Proof.
  intros Hn Hlen. unfold lnmin.
  pose proof (trained_floor_ln st) as Hln.
  apply le_INR in Hn. change (INR 1) with 1%R in Hn.
  apply IZR_le in Hlen.
  rewrite !mult_IZR, plus_IZR, mult_IZR, <- !INR_IZR_INZ in Hlen.
  pose proof (pos_INR (count_bound st)) as HN.
  set (x := ln (Q2R (trained_floor st))) in *.
  set (B := (100 * INR (count_bound st) + 27)%R) in *.
  nra.
Qed.

(** On a trained model, with real arithmetic and within the length bound,
    every time step [time + 1] of the recursion stores, for every symbol,
    the first maximum of the candidates in alphabet order and the previous
    symbol that offers it. *)
Theorem recursion_step_trained lines o0 obs M BP time o state :
  Forall (fun c => c ∈ alphabet) (o0 :: obs) ->
  (2 * Z.of_nat (length (o0 :: obs))
   * (100 * Z.of_nat (count_bound (learn_lines lines)) + 27)
   <= 1000000000)%Z ->
  @forward RScore (train lines) o0 obs = Ok (M, BP) ->
  (o0 :: obs) !! (time + 1) = Some o ->
  state ∈ alphabet ->
  exists Mprev Mt Bt (v : R) p vals,
    M !! time = Some Mprev /\ M !! (time + 1) = Some Mt /\
    BP !! (time + 1) = Some Bt /\
    dict_get Mt state = Some v /\ dict_get Bt state = Some (Some p) /\
    Forall2 (fun q c => @candidate RScore (train lines) Mprev state o q
                        = Ok c) alphabet vals /\
    @first_max RScore (zip alphabet vals) p v.
Proof.
  intros Hall Hlen Hfwd Ho Hstate. set (st := learn_lines lines) in *.
  destruct (trained_floor_pos st) as [Hpos Hle1].
  destruct (trained_entries st) as (HS & HE & HT).
  apply (recursion_step_alive (train lines) (trained_floor st)
           alphabet_NoDup Hpos Hle1 HS HE HT o0 obs M BP time o state);
    try done.
  apply trained_margin; [simpl; lia | done].
Qed.

(** ** Length and symbols of the decoded string *)

(** C6 as stated fails on a word with a capital letter: the alphabet-filtered
    form of ["Ab"] is ["b"], one symbol, but [viterbi] lowercases before it
    filters and decodes the two symbols ["ab"]; on the model trained on the
    sample corpus, with real arithmetic, it returns a string of length 2. *)
Lemma viterbi_length_counterexample :
  letters_of alphabet (chars "Ab") = chars "b"
  /\ exists out,
       @viterbi RScore (chars "Ab") (train sample_corpus) = Ok out
       /\ length out = 2
       /\ length out <> length (letters_of alphabet (chars "Ab")).
Proof.
  split; [reflexivity|].
  destruct (viterbi_trained_returns sample_corpus (chars "Ab")) as [out Hout];
    [vm_compute; discriminate | vm_compute; discriminate |].
  exists out. split; [done|].
  assert (Hlen : length out = 2).
  { apply (@viterbi_length_Ok RScore (chars "Ab") (train sample_corpus) out);
      [discriminate | done]. }
  split; [done|]. rewrite Hlen. discriminate.
Qed.

(** C7 as stated fails on a word of capital letters: ["ABC"] holds no
    alphabet symbol, yet [viterbi] lowercases before it filters, decodes
    ["abc"] and returns a lowercase string, not the input; on the model
    trained on the sample corpus, with real arithmetic, it does return. *)
Lemma viterbi_fallback_counterexample :
  letters_of alphabet (chars "ABC") = []
  /\ exists out,
       @viterbi RScore (chars "ABC") (train sample_corpus) = Ok out
       /\ out <> chars "ABC".
Proof.
  split; [reflexivity|].
  destruct (viterbi_trained_returns sample_corpus (chars "ABC"))
    as [out Hout]; [vm_compute; discriminate | vm_compute; discriminate |].
  exists out. split; [done|].
  destruct (@viterbi_lowercases_Ok RScore (train sample_corpus) eq_refl)
    as [_ Hup].
  destruct (Hup (chars "ABC")) as (o0 & obs & _ & _ & Hdiff).
  - discriminate.
  - repeat constructor.
  - by destruct (Hdiff out Hout).
Qed.

(** C6, amended: when the lowercased, alphabet-filtered input is not empty,
    a string returned by [viterbi] has as many characters as that filtered
    input (the input is lowercased first, then filtered),
    for every model and every score arithmetic; and on a trained model,
    with real arithmetic, [viterbi] does return such a string for every
    word whose filtered length [n] satisfies
    [2 * n * (100 * N + 27) <= 10^9], [N] being the largest row total of
    the training counts. *)
Theorem viterbi_length :
  (forall (Sc : Score) observations hmm out,
     letters_of (hmm_alphabet hmm) (PyStr.lower observations) ≠ [] ->
     @viterbi Sc observations hmm = Ok out ->
     length out
     = length (letters_of (hmm_alphabet hmm) (PyStr.lower observations))) /\
  (forall lines observations,
     letters_of alphabet (PyStr.lower observations) ≠ [] ->
     (2 * Z.of_nat (length (letters_of alphabet (PyStr.lower observations)))
      * (100 * Z.of_nat (count_bound (learn_lines lines)) + 27)
      <= 1000000000)%Z ->
     exists out,
       @viterbi RScore observations (train lines) = Ok out /\
       length out
       = length (letters_of alphabet (PyStr.lower observations))).
Proof.
  split.
  - intros Sc observations hmm out. apply viterbi_length_Ok.
  - intros lines observations Hne Hlen.
    destruct (viterbi_trained_returns lines observations Hne Hlen)
      as [out Hout].
    exists out. split; [done|].
    by apply (@viterbi_length_Ok RScore observations (train lines) out).
Qed.

Lemma viterbi_length_witness :
  length (chars "the")
  = length (letters_of (hmm_alphabet sample_hmm)
                       (PyStr.lower (chars "T-eh"))) /\
  exists out,
    @viterbi RScore (chars "T-eh") (train sample_corpus) = Ok out /\
    length out = length (letters_of alphabet (PyStr.lower (chars "T-eh"))).
Proof.
  split.
  - apply (proj1 viterbi_length ZScore (chars "T-eh") sample_hmm
                 (chars "the")).
    + vm_compute. discriminate.
    + vm_compute. reflexivity.
  - apply (proj2 viterbi_length sample_corpus (chars "T-eh")).
    + vm_compute. discriminate.
    + vm_compute. discriminate.
Defined.

(** C10: [viterbi] lowercases before it filters.  With the alphabet of a
    trained model, whenever the lowercased, filtered input is not empty a
    string returned by [viterbi] is made of lowercase letters and
    apostrophes only; a non-empty input of uppercase letters is not
    filtered away (its lowercased form is what the tables are computed
    on) and a string returned for it has the length of the input and
    differs from it.  On a trained model, with real arithmetic, such a
    string is returned for every word within the length bound of C6. *)
Theorem viterbi_lowercases :
  (forall (Sc : Score) hmm,
     hmm_alphabet hmm = alphabet ->
     (forall observations out,
        letters_of alphabet (PyStr.lower observations) ≠ [] ->
        @viterbi Sc observations hmm = Ok out ->
        Forall (fun c => is_lower_symbol c = true) out) /\
     (forall observations,
        observations ≠ [] ->
        Forall (fun c => is_upper c = true) observations ->
        exists o0 obs,
          PyStr.lower observations = o0 :: obs /\
          @viterbi Sc observations hmm
          = @forward Sc hmm o0 obs ≫= decode_tables /\
          forall out, @viterbi Sc observations hmm = Ok out ->
                      length out = length observations /\
                      out ≠ observations)) /\
  (forall lines observations,
     letters_of alphabet (PyStr.lower observations) ≠ [] ->
     (2 * Z.of_nat (length (letters_of alphabet (PyStr.lower observations)))
      * (100 * Z.of_nat (count_bound (learn_lines lines)) + 27)
      <= 1000000000)%Z ->
     exists out,
       @viterbi RScore observations (train lines) = Ok out /\
       Forall (fun c => is_lower_symbol c = true) out).
Proof.
  split.
  - intros Sc hmm. apply viterbi_lowercases_Ok.
  - intros lines observations Hne Hlen.
    destruct (viterbi_trained_returns lines observations Hne Hlen)
      as [out Hout].
    exists out. split; [done|].
    by apply (proj1 (@viterbi_lowercases_Ok RScore (train lines) eq_refl)
                    observations out).
Qed.

Lemma viterbi_lowercases_witness :
  Forall (fun c => is_lower_symbol c = true) (chars "the") /\
  (exists o0 obs,
     PyStr.lower (chars "TEH") = o0 :: obs /\
     @viterbi ZScore (chars "TEH") sample_hmm
     = @forward ZScore sample_hmm o0 obs ≫= decode_tables /\
     forall out, @viterbi ZScore (chars "TEH") sample_hmm = Ok out ->
                 length out = length (chars "TEH") /\ out ≠ chars "TEH") /\
  exists out,
    @viterbi RScore (chars "TEH") (train sample_corpus) = Ok out /\
    Forall (fun c => is_lower_symbol c = true) out.
Proof.
  destruct viterbi_lowercases as [Hgen Htrained].
  destruct (Hgen ZScore sample_hmm eq_refl) as [Hlow Hup].
  split; [|split].
  - apply (Hlow (chars "TEH")).
    + vm_compute. discriminate.
    + vm_compute. reflexivity.
  - apply Hup.
    + discriminate.
    + repeat constructor.
  - apply (Htrained sample_corpus (chars "TEH")).
    + vm_compute. discriminate.
    + vm_compute. discriminate.
Defined.

(** * Further properties *)

(** ** Increments commute *)

Lemma counter_get_incr k k' c :
  counter_get (counter_incr k c) k'
  = counter_get c k' + (if decide (k = k') then 1 else 0).
Proof.
  unfold counter_incr, counter_get at 1. destruct (decide (k = k')) as [->|Hne].
  - rewrite lookup_insert_eq. done.
  - rewrite lookup_insert_ne by done. fold (counter_get c k'). lia.
Qed.

Lemma counter_incr_comm k1 k2 c :
  counter_incr k1 (counter_incr k2 c) = counter_incr k2 (counter_incr k1 c).
Proof.
  destruct (decide (k1 = k2)) as [->|Hne]; [done|].
  unfold counter_incr at 1 3. rewrite !counter_get_incr.
  rewrite !decide_False by done. rewrite !Nat.add_0_r.
  unfold counter_incr. by apply insert_insert_ne.
Qed.

Lemma dd_get_incr_eq a b d : dd_get (dd_incr a b d) a = counter_incr b (dd_get d a).
Proof. unfold dd_incr, dd_get at 1. by rewrite lookup_insert_eq. Qed.

Lemma dd_get_incr_ne a a' b d : a ≠ a' -> dd_get (dd_incr a b d) a' = dd_get d a'.
Proof. intros Hne. unfold dd_incr, dd_get at 1. by rewrite lookup_insert_ne. Qed.

Lemma dd_incr_comm a1 b1 a2 b2 d :
  dd_incr a1 b1 (dd_incr a2 b2 d) = dd_incr a2 b2 (dd_incr a1 b1 d).
Proof.
  destruct (decide (a1 = a2)) as [->|Hne].
  - unfold dd_incr at 1 3. rewrite !dd_get_incr_eq.
    unfold dd_incr. rewrite !insert_insert_eq. by rewrite counter_incr_comm.
  - unfold dd_incr at 1 3. rewrite !dd_get_incr_ne by done.
    unfold dd_incr. by apply insert_insert_ne.
Qed.

Lemma fold_left_permutation {A B} (f : B -> A -> B) (l l' : list A) b :
  (forall b x y, f (f b x) y = f (f b y) x) ->
  l ≡ₚ l' -> fold_left f l b = fold_left f l' b.
Proof.
  intros Hcomm Hperm. revert b.
  induction Hperm as [|x l l' _ IH|x y l|l l' l'' _ IH1 _ IH2]; intros b; simpl.
  - done.
  - apply IH.
  - by rewrite Hcomm.
  - by rewrite IH1.
Qed.

Lemma incr_pairs_app ps qs d :
  incr_pairs (ps ++ qs) d = incr_pairs qs (incr_pairs ps d).
Proof. unfold incr_pairs. by rewrite fold_left_app. Qed.

Lemma incr_pairs_permutation ps qs d :
  ps ≡ₚ qs -> incr_pairs ps d = incr_pairs qs d.
Proof.
  unfold incr_pairs. apply fold_left_permutation.
  intros b [a1 b1] [a2 b2]. apply dd_incr_comm.
Qed.

Lemma incr_keys_permutation ks ks' c :
  ks ≡ₚ ks' -> incr_keys ks c = incr_keys ks' c.
Proof.
  unfold incr_keys. apply fold_left_permutation.
  intros b x y. apply counter_incr_comm.
Qed.

(** ** A line as a list of increments *)

Lemma learn_typo_pairs correct_letters ec typo :
  learn_typo correct_letters ec typo
  = incr_pairs
      (let typo_letters := letters_of alphabet typo in
       if Nat.eqb (length correct_letters) (length typo_letters)
       then combine correct_letters typo_letters
       else [])
      ec.
Proof.
  unfold learn_typo, incr_pairs. cbv zeta.
  by destruct (Nat.eqb _ _).
Qed.

Lemma fold_learn_typo correct_letters typos ec :
  fold_left (learn_typo correct_letters) typos ec
  = incr_pairs
      (concat
         (map (fun typo =>
                 let typo_letters := letters_of alphabet typo in
                 if Nat.eqb (length correct_letters) (length typo_letters)
                 then combine correct_letters typo_letters
                 else [])
              typos))
      ec.
Proof.
  revert ec. induction typos as [|typo typos IH]; intros ec; [done|].
  cbn [fold_left map concat]. rewrite incr_pairs_app, IH.
  by rewrite learn_typo_pairs.
Qed.

Lemma learn_transitions_pairs correct_letters tc :
  learn_transitions correct_letters tc
  = incr_pairs (combine correct_letters (tail correct_letters)) tc.
Proof.
  revert tc. induction correct_letters as [|c cl IH]; intros tc; [done|].
  destruct cl as [|c' cl]; [done|].
  change (learn_transitions (c :: c' :: cl) tc)
    with (learn_transitions (c' :: cl) (dd_incr c c' tc)).
  by rewrite IH.
Qed.

Lemma learn_line_incr st line :
  learn_line st line
  = Counts (incr_pairs (emission_pairs line) (emission_counts st))
           (incr_pairs (transition_pairs line) (transition_counts st))
           (incr_keys (start_keys line) (start_counts st)).
Proof.
  unfold learn_line, emission_pairs, transition_pairs, start_keys,
    entry_of_line. cbv zeta.
  destruct (PyStr.lower (PyStr.strip line)) as [|c l] eqn:Eline;
    [by destruct st|].
  destruct (PyStr.split_once ":" (c :: l)) as [[part0 part1]|];
    [|by destruct st].
  unfold learn_entry. cbv zeta.
  destruct (letters_of alphabet (PyStr.strip part0)) as [|first cl] eqn:Ecl;
    [by destruct st|].
  by rewrite fold_learn_typo, learn_transitions_pairs.
Qed.

Lemma fold_learn_line lines st :
  fold_left learn_line lines st
  = Counts (incr_pairs (concat (emission_pairs <$> lines))
                       (emission_counts st))
           (incr_pairs (concat (transition_pairs <$> lines))
                       (transition_counts st))
           (incr_keys (concat (start_keys <$> lines)) (start_counts st)).
Proof.
  revert st. induction lines as [|line lines IH]; intros st;
    [by destruct st|].
  cbn [fold_left fmap list_fmap concat]. rewrite IH, learn_line_incr.
  cbn [emission_counts transition_counts start_counts].
  rewrite !incr_pairs_app. unfold incr_keys. by rewrite fold_left_app.
Qed.

Lemma concat_fmap_permutation {A B} (f : A -> list B) (l l' : list A) :
  l ≡ₚ l' -> concat (f <$> l) ≡ₚ concat (f <$> l').
Proof.
  induction 1 as [|x l l' _ IH|x y l|l l' l'' _ IH1 _ IH2]; simpl.
  - done.
  - by rewrite IH.
  - rewrite !(assoc_L (++)). by rewrite (comm (++) (f y)).
  - by rewrite IH1.
Qed.

Lemma counter_get_incr_keys ks c k :
  counter_get (incr_keys ks c) k = counter_get c k + occurrences k ks.
Proof.
  revert c. induction ks as [|k' ks IH]; intros c; simpl; [lia|].
  unfold incr_keys in *. simpl. rewrite IH, counter_get_incr. lia.
Qed.

Lemma dd_get_incr_pairs ps d a b :
  counter_get (dd_get (incr_pairs ps d) a) b
  = counter_get (dd_get d a) b + occurrences (a, b) ps.
Proof.
  revert d. induction ps as [|[a' b'] ps IH]; intros d; simpl; [lia|].
  unfold incr_pairs in *. simpl. rewrite IH.
  destruct (decide (a' = a)) as [->|Hne].
  - rewrite dd_get_incr_eq, counter_get_incr.
    destruct (decide (b' = b)) as [->|Hb].
    + rewrite decide_True by done. lia.
    + rewrite decide_False by congruence. lia.
  - rewrite dd_get_incr_ne by done. rewrite decide_False by congruence. lia.
Qed.

Lemma occurrences_concat_nil {A B} `{EqDecision B} (x : B) (f : A -> list B)
    (l : list A) :
  (forall a, f a = []) -> occurrences x (concat (map f l)) = 0.
Proof.
  intros Hf. induction l as [|a l IH]; [done|].
  cbn [map concat]. by rewrite Hf.
Qed.

Lemma fold_learn_typo_skip correct_letters typos ec :
  forallb (fun typo =>
             negb (Nat.eqb (length correct_letters)
                           (length (letters_of alphabet typo)))) typos
  = true ->
  fold_left (learn_typo correct_letters) typos ec = ec.
Proof.
  revert ec. induction typos as [|typo typos IH]; intros ec; [done|].
  cbn [forallb fold_left]. intros [Hne Hrest]%andb_prop.
  apply negb_true_iff in Hne. unfold learn_typo at 2. rewrite Hne.
  by apply IH.
Qed.

(** C5: what one entry (a correct word with its typos) adds to the counts.
    - An entry whose filtered correct word is empty leaves every count as
      it was.
    - An entry none of whose typos has the filtered length of the correct
      word leaves the emission counts as they were.
    - In general [emission_counts[a][b]] grows by the number of positions
      at which, in a typo of the same filtered length, the correct letter is
      [a] and the typed letter is [b], and by nothing else.
    - [transition_counts[a][b]] grows by the number of adjacent pairs [a b]
      of the filtered correct word and [start_counts[a]] by one when [a] is
      its first letter, whatever the typos are. *)
Theorem counts_of_entry st correct_word typos :
  (letters_of alphabet correct_word = [] ->
   learn_entry st correct_word typos = st)
  /\ (forallb (fun typo =>
                 negb (Nat.eqb (length (letters_of alphabet correct_word))
                               (length (letters_of alphabet typo)))) typos
      = true ->
      emission_counts (learn_entry st correct_word typos)
      = emission_counts st)
  /\ (forall a b,
        counter_get
          (dd_get (emission_counts (learn_entry st correct_word typos)) a) b
        = counter_get (dd_get (emission_counts st) a) b
          + occurrences (a, b)
              (concat
                 (map (fun typo =>
                         if Nat.eqb
                              (length (letters_of alphabet correct_word))
                              (length (letters_of alphabet typo))
                         then combine (letters_of alphabet correct_word)
                                      (letters_of alphabet typo)
                         else [])
                      typos)))
  /\ (forall a b,
        counter_get
          (dd_get (transition_counts (learn_entry st correct_word typos)) a)
          b
        = counter_get (dd_get (transition_counts st) a) b
          + occurrences (a, b)
              (combine (letters_of alphabet correct_word)
                       (tail (letters_of alphabet correct_word))))
  /\ (forall a,
        counter_get (start_counts (learn_entry st correct_word typos)) a
        = counter_get (start_counts st) a
          + occurrences a (firstn 1 (letters_of alphabet correct_word))).
Proof.
  unfold learn_entry.
  destruct (letters_of alphabet correct_word) as [|c cl] eqn:E.
  - split; [done|]. split; [done|]. split; [|split].
    + intros a b. rewrite occurrences_concat_nil; [lia|].
      intros typo. cbv zeta. by destruct (Nat.eqb _ _).
    + intros a b. simpl. lia.
    + intros a. simpl. lia.
  - cbn [emission_counts transition_counts start_counts].
    split; [done|]. split; [apply fold_learn_typo_skip|]. split; [|split].
    + intros a b. by rewrite fold_learn_typo, dd_get_incr_pairs.
    + intros a b. by rewrite learn_transitions_pairs, dd_get_incr_pairs.
    + intros a. rewrite counter_get_incr. cbn [firstn occurrences].
      change (firstn 0 cl) with (@nil ascii). cbn [occurrences].
      destruct (decide (c = a)); lia.
Qed.

Lemma counts_of_entry_witness :
  learn_entry (learn_lines sample_corpus) (chars "2024")
              [chars "the"; chars "2o24"] = learn_lines sample_corpus
  /\ emission_counts
       (learn_entry (learn_lines sample_corpus) (chars "the")
                    [chars "th"; chars "then"])
     = emission_counts (learn_lines sample_corpus)
  /\ counter_get
       (dd_get (emission_counts
                  (learn_entry no_counts (chars "the")
                               [chars "teh"; chars "th"; chars "t-he"]))
               "h"%char) "e"%char
     = counter_get (dd_get (emission_counts no_counts) "h"%char) "e"%char
       + occurrences ("h"%char, "e"%char)
           (concat
              (map (fun typo =>
                      if Nat.eqb (length (letters_of alphabet (chars "the")))
                                 (length (letters_of alphabet typo))
                      then combine (letters_of alphabet (chars "the"))
                                   (letters_of alphabet typo)
                      else [])
                   [chars "teh"; chars "th"; chars "t-he"])).
Proof.
  split; [|split].
  - apply (proj1 (counts_of_entry (learn_lines sample_corpus) (chars "2024")
                                  [chars "the"; chars "2o24"])).
    reflexivity.
  - apply (proj1 (proj2 (counts_of_entry (learn_lines sample_corpus)
                                         (chars "the")
                                         [chars "th"; chars "then"]))).
    reflexivity.
  - apply (proj1 (proj2 (proj2 (counts_of_entry
                                  no_counts (chars "the")
                                  [chars "teh"; chars "th"; chars "t-he"])))).
Defined.

(** X1: The order of the corpus lines does not matter: two corpora with the same
    lines, in any order, train the same model. *)
Theorem train_permutation lines lines' :
  lines ≡ₚ lines' -> train lines = train lines'.
Proof.
  intros Hperm. unfold train. f_equal. unfold learn_lines.
  rewrite !fold_learn_line. f_equal.
  - by apply incr_pairs_permutation, concat_fmap_permutation.
  - by apply incr_pairs_permutation, concat_fmap_permutation.
  - by apply incr_keys_permutation, concat_fmap_permutation.
Qed.

Lemma train_permutation_witness :
  train [chars "the: teh hte"; chars "receive: recieve"]
  = train [chars "receive: recieve"; chars "the: teh hte"].
Proof. apply train_permutation. apply perm_swap. Defined.

(** X2: Every raw count is a number of occurrences in the corpus:
    [emission_counts[a][b]] is the number of positions, over the same-length
    typos of all lines, where the correct letter is [a] and the typed letter
    is [b]; [transition_counts[a][b]] is the number of adjacent pairs [a b]
    in the filtered correct words; [start_counts[a]] is the number of
    filtered correct words that begin with [a]. *)
Theorem counts_are_occurrences lines a b :
  counter_get (dd_get (emission_counts (learn_lines lines)) a) b
  = occurrences (a, b) (concat (emission_pairs <$> lines))
  /\ counter_get (dd_get (transition_counts (learn_lines lines)) a) b
     = occurrences (a, b) (concat (transition_pairs <$> lines))
  /\ counter_get (start_counts (learn_lines lines)) a
     = occurrences a (concat (start_keys <$> lines)).
Proof.
  unfold learn_lines. rewrite fold_learn_line.
  cbn [emission_counts transition_counts start_counts no_counts].
  rewrite !dd_get_incr_pairs, counter_get_incr_keys.
  by unfold dd_get, counter_get; rewrite !lookup_empty.
Qed.

(** ** Case, and lines without a colon *)

Lemma isspace_lower_char c :
  PyStr.isspace (PyStr.lower_char c) = PyStr.isspace c.
Proof. by destruct c as [[] [] [] [] [] [] [] []]. Qed.

Lemma lower_char_idem c :
  PyStr.lower_char (PyStr.lower_char c) = PyStr.lower_char c.
Proof. by destruct c as [[] [] [] [] [] [] [] []]. Qed.

Lemma lower_idem s : PyStr.lower (PyStr.lower s) = PyStr.lower s.
Proof.
  unfold PyStr.lower. rewrite map_map. apply map_ext, lower_char_idem.
Qed.

Lemma lstrip_lower s :
  PyStr.lstrip (PyStr.lower s) = PyStr.lower (PyStr.lstrip s).
Proof.
  induction s as [|c s IH]; [done|].
  cbn [PyStr.lower map PyStr.lstrip]. rewrite isspace_lower_char.
  by destruct (PyStr.isspace c).
Qed.

Lemma strip_lower s : PyStr.strip (PyStr.lower s) = PyStr.lower (PyStr.strip s).
Proof.
  unfold PyStr.strip. rewrite lstrip_lower. unfold PyStr.lower at 1.
  rewrite <- map_rev. fold (PyStr.lower (rev (PyStr.lstrip s))).
  rewrite lstrip_lower. unfold PyStr.lower. by rewrite map_rev.
Qed.

Lemma learn_line_lower st line :
  learn_line st (PyStr.lower line) = learn_line st line.
Proof. unfold learn_line. by rewrite strip_lower, lower_idem. Qed.

(** X3: Training ignores case: lowercasing every line of the corpus beforehand
    gives the same model. *)
Theorem train_case_insensitive lines :
  train (PyStr.lower <$> lines) = train lines.
Proof.
  unfold train, learn_lines. f_equal. generalize no_counts as st.
  induction lines as [|line lines IH]; intros st; [done|].
  cbn [fmap list_fmap fold_left]. by rewrite learn_line_lower, <- IH.
Qed.

Lemma split_once_None sep s :
  PyStr.In_list sep s = false -> PyStr.split_once sep s = None.
Proof.
  induction s as [|c s IH]; [done|].
  unfold PyStr.In_list. cbn [existsb PyStr.split_once].
  rewrite (Ascii.eqb_sym c sep).
  destruct (Ascii.eqb sep c); [done|]. cbn [orb]. intros H.
  fold (PyStr.In_list sep s) in H. by rewrite IH.
Qed.

Lemma In_list_false c l : PyStr.In_list c l = false <-> c ∉ l.
Proof.
  rewrite <- In_list_spec. by destruct (PyStr.In_list c l).
Qed.

Lemma lstrip_elem c s : c ∈ PyStr.lstrip s -> c ∈ s.
Proof.
  induction s as [|a s IH]; [done|]. cbn [PyStr.lstrip].
  destruct (PyStr.isspace a); [|done]. intros H. right. by apply IH.
Qed.

Lemma strip_elem c s : c ∈ PyStr.strip s -> c ∈ s.
Proof.
  unfold PyStr.strip. rewrite list_elem_of_In, <- in_rev, <- list_elem_of_In.
  intros H%lstrip_elem. apply lstrip_elem.
  by rewrite list_elem_of_In, <- in_rev, <- list_elem_of_In in H.
Qed.

Lemma lower_char_colon c : PyStr.lower_char c = ":"%char -> c = ":"%char.
Proof. by destruct c as [[] [] [] [] [] [] [] []]. Qed.

Lemma learn_line_no_colon st line :
  PyStr.In_list ":" line = false -> learn_line st line = st.
Proof.
  intros H. unfold learn_line. cbv zeta.
  rewrite split_once_None; [by destruct (PyStr.lower _)|].
  apply In_list_false. apply In_list_false in H. intros Hin. apply H.
  unfold PyStr.lower in Hin. apply list_elem_of_In, in_map_iff in Hin
    as (c & Hc%lower_char_colon & Hin%list_elem_of_In). subst.
  by apply strip_elem.
Qed.

(** X4: Lines without a colon, blank lines among them, are ignored: dropping
    them from the corpus gives the same model. *)
Theorem train_skips_lines_without_colon lines :
  train (List.filter (fun line => PyStr.In_list ":" line) lines)
  = train lines.
Proof.
  unfold train, learn_lines. f_equal. generalize no_counts as st.
  induction lines as [|line lines IH]; intros st; [done|].
  cbn [List.filter fold_left].
  destruct (PyStr.In_list ":" line) eqn:E.
  - cbn [fold_left]. apply IH.
  - rewrite learn_line_no_colon by done. apply IH.
Qed.

(** ** Shape and range of the trained tables *)

Lemma emission_table_lookup ec s :
  emission_table ec !! s
  = if decide (s ∈ alphabet) then Some (emission_row (dd_get ec s) s)
    else None.
Proof.
  unfold emission_table.
  change (fold_left _ alphabet ∅)
    with (build (fun c => emission_row (dd_get ec c) c) alphabet ∅).
  rewrite build_lookup. by destruct (decide _).
Qed.

Lemma transition_table_lookup tc s :
  transition_table tc !! s
  = if decide (s ∈ alphabet) then Some (transition_row (dd_get tc s))
    else None.
Proof.
  unfold transition_table.
  change (fold_left _ alphabet ∅)
    with (build (fun c => transition_row (dd_get tc c)) alphabet ∅).
  rewrite build_lookup. by destruct (decide _).
Qed.

Lemma emission_table_keys ec s t :
  is_Some (table_get (emission_table ec) s t)
  <-> s ∈ alphabet /\ t ∈ alphabet.
Proof.
  unfold table_get. rewrite emission_table_lookup.
  destruct (decide (s ∈ alphabet)) as [Hs|Hs]; cbn [mbind option_bind].
  - rewrite emission_row_build, build_lookup.
    destruct (decide (t ∈ alphabet)) as [Ht|Ht].
    + split; [done | eauto].
    + rewrite lookup_empty. split; [by intros [? ?] | by intros [_ ?]].
  - split; [by intros [? ?] | by intros [? _]].
Qed.

Lemma transition_table_keys tc s t :
  is_Some (table_get (transition_table tc) s t)
  <-> s ∈ alphabet /\ t ∈ alphabet.
Proof.
  unfold table_get. rewrite transition_table_lookup.
  destruct (decide (s ∈ alphabet)) as [Hs|Hs]; cbn [mbind option_bind].
  - rewrite transition_row_build, build_lookup.
    destruct (decide (t ∈ alphabet)) as [Ht|Ht].
    + split; [done | eauto].
    + rewrite lookup_empty. split; [by intros [? ?] | by intros [_ ?]].
  - split; [by intros [? ?] | by intros [? _]].
Qed.

Lemma start_table_keys sc s : is_Some (start_table sc !! s) <-> s ∈ alphabet.
Proof.
  rewrite start_table_build, build_lookup.
  destruct (decide (s ∈ alphabet)) as [Hs|Hs]; [split; eauto|].
  rewrite lookup_empty. split; [by intros [? ?] | done].
Qed.

(** X5: The tables of a trained model have an entry for the alphabet symbols and
    for nothing else: [E[s][t]] and [T[s][t]] exist exactly when [s] and [t]
    are alphabet symbols, [start[s]] exactly when [s] is one. *)
Theorem trained_tables_keys lines s t :
  (is_Some (table_get (hmm_E (train lines)) s t)
   <-> s ∈ alphabet /\ t ∈ alphabet)
  /\ (is_Some (table_get (hmm_T (train lines)) s t)
      <-> s ∈ alphabet /\ t ∈ alphabet)
  /\ (is_Some (hmm_start (train lines) !! s) <-> s ∈ alphabet).
Proof.
  unfold train, hmm_of_counts; cbn [hmm_E hmm_T hmm_start].
  split; [apply emission_table_keys|].
  split; [apply transition_table_keys | apply start_table_keys].
Qed.

Lemma counter_get_le_total (c : gmap ascii nat) k :
  counter_get c k <= counter_total c.
Proof.
  induction c as [|i v c Hi IH] using map_ind.
  - unfold counter_get. rewrite lookup_empty. simpl. lia.
  - rewrite counter_total_insert by done. unfold counter_get in *.
    destruct (decide (k = i)) as [->|Hne].
    + rewrite lookup_insert_eq. simpl. lia.
    + rewrite lookup_insert_ne by done. lia.
Qed.

Lemma smoothed_le_1 n cnt :
  n <= counter_total cnt -> ((Qnat n + smoothing) / row_total cnt <= 1)%Q.
Proof.
  intros Hle. apply Qle_shift_div_r; [apply row_total_pos|].
  pose proof (Qnat_le _ _ Hle). unfold row_total, smoothing.
  change (Qnat V) with 27%Q. Lqa.lra.
Qed.

(** X6: Every entry of a trained model is positive; the entries of the
    transition table and of the start table are at most 1, and so are the
    entries of the emission table off the diagonal. *)
Theorem trained_entries_range lines s t :
  PyStr.In_list s alphabet = true -> PyStr.In_list t alphabet = true ->
  exists ps pt pe,
    hmm_start (train lines) !! s = Some ps
    /\ table_get (hmm_T (train lines)) s t = Some pt
    /\ table_get (hmm_E (train lines)) s t = Some pe
    /\ (0 < ps)%Q /\ (ps <= 1)%Q /\ (0 < pt)%Q /\ (pt <= 1)%Q
    /\ (0 < pe)%Q /\ (s <> t -> (pe <= 1)%Q).
Proof.
  intros Hs%In_list_spec Ht%In_list_spec.
  unfold train, hmm_of_counts; cbn [hmm_E hmm_T hmm_start].
  rewrite start_table_get, transition_table_get, emission_table_get by done.
  do 3 eexists. do 3 (split; [done|]).
  split; [apply smoothed_pos, row_total_pos|].
  split; [apply smoothed_le_1, counter_get_le_total|].
  split; [apply smoothed_pos, row_total_pos|].
  split; [apply smoothed_le_1, counter_get_le_total|].
  split; [apply smoothed_pos, row_total_pos|].
  intros Hne. destruct (Ascii.eqb s t) eqn:E.
  - by apply Ascii.eqb_eq in E.
  - apply smoothed_le_1, counter_get_le_total.
Qed.

Lemma trained_entries_range_witness :
  exists ps pt pe,
    hmm_start (train sample_corpus) !! "t"%char = Some ps
    /\ table_get (hmm_T (train sample_corpus)) "t"%char "h"%char = Some pt
    /\ table_get (hmm_E (train sample_corpus)) "t"%char "h"%char = Some pe
    /\ (0 < ps)%Q /\ (ps <= 1)%Q /\ (0 < pt)%Q /\ (pt <= 1)%Q
    /\ (0 < pe)%Q /\ ("t"%char <> "h"%char -> (pe <= 1)%Q).
Proof.
  apply (trained_entries_range sample_corpus "t"%char "h"%char); reflexivity.
Defined.

Lemma smoothed_le_iff n1 n2 cnt :
  ((Qnat n1 + smoothing) / row_total cnt
   <= (Qnat n2 + smoothing) / row_total cnt)%Q <-> n1 <= n2.
Proof.
  pose proof (row_total_pos cnt) as Htot.
  assert (Hinv : (0 < / row_total cnt)%Q) by by apply Qinv_lt_0_compat.
  unfold Qdiv. split.
  - intros H. apply Qmult_le_r in H; [|done].
    unfold Qnat in H. apply Qplus_le_l in H. rewrite <- Zle_Qle in H. lia.
  - intros H. apply Qmult_le_r; [done|].
    apply Qplus_le_l. by apply Qnat_le.
Qed.

(** X9: Within a row of the transition table the probabilities are ordered as
    the raw counts are: a transition counted at least as often has at least
    the probability. *)
Theorem transition_row_order lines s t1 t2 :
  PyStr.In_list s alphabet = true ->
  PyStr.In_list t1 alphabet = true -> PyStr.In_list t2 alphabet = true ->
  exists p1 p2,
    table_get (hmm_T (train lines)) s t1 = Some p1
    /\ table_get (hmm_T (train lines)) s t2 = Some p2
    /\ ((p1 <= p2)%Q
        <-> counter_get (dd_get (transition_counts (learn_lines lines)) s) t1
            <= counter_get (dd_get (transition_counts (learn_lines lines)) s)
                           t2).
Proof.
  intros Hs%In_list_spec Ht1%In_list_spec Ht2%In_list_spec.
  unfold train, hmm_of_counts; cbn [hmm_T].
  rewrite !transition_table_get by done.
  do 2 eexists. do 2 (split; [done|]). apply smoothed_le_iff.
Qed.

Lemma transition_row_order_witness :
  exists p1 p2,
    table_get (hmm_T (train sample_corpus)) "t"%char "h"%char = Some p1
    /\ table_get (hmm_T (train sample_corpus)) "t"%char "e"%char = Some p2
    /\ ((p1 <= p2)%Q
        <-> counter_get
              (dd_get (transition_counts (learn_lines sample_corpus))
                      "t"%char) "h"%char
            <= counter_get
                 (dd_get (transition_counts (learn_lines sample_corpus))
                         "t"%char) "e"%char).
Proof.
  apply (transition_row_order sample_corpus "t"%char "h"%char "e"%char);
    reflexivity.
Defined.

(** X10: A symbol out of which no transition was counted has the uniform
    transition row: every entry is [1/27]. *)
Theorem transition_row_uniform lines s t :
  PyStr.In_list s alphabet = true -> PyStr.In_list t alphabet = true ->
  counter_total (dd_get (transition_counts (learn_lines lines)) s) = 0 ->
  exists p,
    table_get (hmm_T (train lines)) s t = Some p /\ (p == 1 / 27)%Q.
Proof.
  intros Hs%In_list_spec Ht%In_list_spec Htot.
  unfold train, hmm_of_counts; cbn [hmm_T].
  rewrite transition_table_get by done. eexists; split; [done|].
  pose proof (counter_get_le_total
                (dd_get (transition_counts (learn_lines lines)) s) t) as Hle.
  rewrite Htot in Hle. apply Nat.le_0_r in Hle. rewrite Hle.
  unfold row_total. rewrite Htot. reflexivity.
Qed.

Lemma transition_row_uniform_witness :
  exists p,
    table_get (hmm_T (train sample_corpus)) "z"%char "a"%char = Some p
    /\ (p == 1 / 27)%Q.
Proof.
  apply (transition_row_uniform sample_corpus "z"%char "a"%char);
    reflexivity.
Defined.

Lemma transition_rows_sum_to_1_witness :
  exists row,
    hmm_T (train sample_corpus) !! "t"%char = Some row
    /\ (dist_sum row == 1)%Q.
Proof.
  apply (transition_rows_sum_to_1 sample_corpus "t"%char); reflexivity.
Defined.

(** ** What the decoder raises *)

Section Raises.
Context {Sc : Score}.

Lemma bind_Raise {A B} (r : result A) (k : A -> result B) e :
  (r ≫= k) = Raise e <-> r = Raise e \/ exists a, r = Ok a /\ k a = Raise e.
Proof.
  destruct r as [a|e']; simpl; split.
  - intros H. right. by exists a.
  - by intros [?|(a' & [= <-] & H)].
  - intros [= <-]. by left.
  - intros [?|(a' & ? & _)]; congruence.
Qed.

Lemma foldM_raises {A B} (f : B -> A -> result B) l b e e0 :
  (forall b a e, f b a = Raise e -> e = e0) ->
  foldM f l b = Raise e -> e = e0.
Proof.
  intros Hf. revert b. induction l as [|a l IH]; intros b; simpl; [done|].
  intros [H|(b' & _ & H)]%bind_Raise; eauto.
Qed.

Lemma foldM_raise_elem {A B} (f : B -> A -> result B) l b a e0 :
  (forall b a e, f b a = Raise e -> e = e0) ->
  a ∈ l -> (forall b, f b a = Raise e0) -> foldM f l b = Raise e0.
Proof.
  intros Hf Ha Hraise. revert b.
  induction l as [|a' l IH]; intros b; [by inversion Ha|]. simpl.
  destruct (f b a') as [b'|e] eqn:E; simpl.
  - apply IH. apply elem_of_cons in Ha as [->|Ha]; [|done].
    by rewrite Hraise in E.
  - f_equal. by eapply Hf.
Qed.

Lemma lookup2_raises tbl a b e : lookup2 tbl a b = Raise e -> e = KeyError.
Proof.
  unfold lookup2. destruct (tbl !! a) as [row|]; simpl; [|congruence].
  destruct (row !! b); simpl; congruence.
Qed.

Lemma of_option_raises {A} (o : option A) e e0 :
  of_option e0 o = Raise e -> e = e0.
Proof. destruct o; simpl; congruence. Qed.

Lemma safe_log_not_Raise x e : safe_log x ≠ Raise e.
Proof. by destruct (safe_log_returns x) as [v ->]. Qed.

Lemma init_score_raises hmm o0 s e :
  init_score hmm o0 s = Raise e -> e = KeyError.
Proof.
  unfold init_score. intros H.
  apply bind_Raise in H as [H|(p & _ & H)]; [by apply of_option_raises in H|].
  apply bind_Raise in H as [H|(lp & _ & H)];
    [by apply safe_log_not_Raise in H|].
  apply bind_Raise in H as [H|(pe & _ & H)]; [by apply lookup2_raises in H|].
  apply bind_Raise in H as [H|(le & _ & H)];
    [by apply safe_log_not_Raise in H | done].
Qed.

Lemma candidate_raises hmm Mprev s o p e :
  candidate hmm Mprev s o p = Raise e -> e = KeyError.
Proof.
  unfold candidate. intros H.
  apply bind_Raise in H as [H|(m & _ & H)]; [by apply of_option_raises in H|].
  apply bind_Raise in H as [H|(pt & _ & H)]; [by apply lookup2_raises in H|].
  apply bind_Raise in H as [H|(lt & _ & H)];
    [by apply safe_log_not_Raise in H|].
  apply bind_Raise in H as [H|(pe & _ & H)]; [by apply lookup2_raises in H|].
  apply bind_Raise in H as [H|(le & _ & H)];
    [by apply safe_log_not_Raise in H | done].
Qed.

Lemma best_prev_raises hmm Mprev o s e :
  best_prev hmm Mprev o s = Raise e -> e = KeyError.
Proof.
  unfold best_prev. apply foldM_raises. intros acc p e' H.
  unfold try_prev in H.
  apply bind_Raise in H as [H|(v & _ & H)]; [|done].
  by apply candidate_raises in H.
Qed.

Lemma step_state_raises hmm Mprev o MB s e :
  step_state hmm Mprev o MB s = Raise e -> e = KeyError.
Proof.
  unfold step_state. intros [H|(r & _ & H)]%bind_Raise; [|done].
  by apply best_prev_raises in H.
Qed.

Lemma init_state_raises hmm o0 MB s e :
  init_state hmm o0 MB s = Raise e -> e = KeyError.
Proof.
  unfold init_state. intros [H|(r & _ & H)]%bind_Raise; [|done].
  by apply init_score_raises in H.
Qed.

Lemma recursion_raises hmm Mprev obs e :
  recursion hmm Mprev obs = Raise e -> e = KeyError.
Proof.
  revert Mprev. induction obs as [|o obs IH]; intros Mprev; simpl; [done|].
  intros [H|(MB & _ & H)]%bind_Raise.
  - eapply foldM_raises; [|done]. intros. by eapply step_state_raises.
  - apply bind_Raise in H as [H|(rest & _ & H)]; [by eapply IH | done].
Qed.

(** INITIALIZATION and RECURSION raise nothing but [KeyError]. *)
Lemma forward_raises hmm o0 obs e :
  forward hmm o0 obs = Raise e -> e = KeyError.
Proof.
  unfold forward. intros [H|(MB & _ & H)]%bind_Raise.
  - eapply foldM_raises; [|done]. intros. by eapply init_state_raises.
  - apply bind_Raise in H as [H|(rest & _ & H)];
      [by eapply recursion_raises | done].
Qed.

Lemma backtrack_raises rows best e :
  backtrack rows best = Raise e -> e = KeyError.
Proof.
  revert best. induction rows as [|row rows IH]; intros best; simpl; [done|].
  intros [H|(prev & _ & H)]%bind_Raise.
  - destruct best; [by apply of_option_raises in H | congruence].
  - apply bind_Raise in H as [H|(path & _ & H)]; [by eapply IH | done].
Qed.

Lemma dict_set_nonempty {K V} `{EqDecision K} (d : dict K V) k v :
  dict_set d k v ≠ [].
Proof. destruct d as [|[k' v'] d]; simpl; [done|]. by destruct (decide _). Qed.

Lemma fill_rows_nonempty g l MB MB' :
  fill_rows g l MB = Ok MB' -> l ≠ [] \/ MB.1 ≠ [] -> MB'.1 ≠ [].
Proof.
  unfold fill_rows. revert MB.
  induction l as [|a l IH]; intros MB; simpl.
  - intros [= <-] [?|?]; done.
  - intros H _. apply bind_Ok in H as (MB1 & H1 & H).
    apply bind_Ok in H1 as (r & _ & [= <-]).
    apply (IH _ H). right. apply dict_set_nonempty.
Qed.

Lemma recursion_nonempty hmm Mprev obs Ms Bs :
  hmm_alphabet hmm ≠ [] ->
  recursion hmm Mprev obs = Ok (Ms, Bs) -> Forall (fun M => M ≠ []) Ms.
Proof.
  intros Habc. revert Mprev Ms Bs.
  induction obs as [|o obs IH]; intros Mprev Ms Bs; simpl.
  - by intros [= <- <-].
  - intros H. apply bind_Ok in H as (MB & HMB & H).
    apply bind_Ok in H as ([Ms' Bs'] & Hrest & [= <- <-]).
    constructor; [|by eapply IH].
    rewrite step_rows_fill in HMB.
    apply (fill_rows_nonempty _ _ _ _ HMB). by left.
Qed.

Lemma forward_last_nonempty hmm o0 obs M BP :
  hmm_alphabet hmm ≠ [] ->
  forward hmm o0 obs = Ok (M, BP) -> List.last M [] ≠ [].
Proof.
  intros Habc H. unfold forward in H.
  apply bind_Ok in H as (MB & HMB & H).
  apply bind_Ok in H as ([Ms Bs] & Hrest & [= <- <-]).
  assert (Hall : Forall (fun M => M ≠ []) (MB.1 :: Ms)).
  { constructor; [|by eapply recursion_nonempty].
    rewrite init_rows_fill in HMB.
    apply (fill_rows_nonempty _ _ _ _ HMB). by left. }
  rewrite Forall_forall in Hall. apply Hall. by apply last_elem.
Qed.

Lemma letters_of_alphabet_nonempty abc s o0 obs :
  letters_of abc s = o0 :: obs -> abc ≠ [].
Proof.
  intros H ->. assert (Hin : o0 ∈ letters_of [] s) by (rewrite H; by left).
  apply letters_of_elem in Hin. by inversion Hin.
Qed.

(** X11: [viterbi] never raises [ValueError], whatever the model and the score
    arithmetic: [math.log] is only reached with a positive argument, and
    [max] is only called on a row that has a key. *)
Theorem viterbi_never_ValueError observations hmm :
  viterbi observations hmm ≠ Raise ValueError.
Proof.
  unfold viterbi.
  destruct (letters_of _ _) as [|o0 obs] eqn:EO; [done|].
  apply letters_of_alphabet_nonempty in EO.
  intros [H|([M BP] & Hfwd & H)]%bind_Raise.
  - by apply forward_raises in H.
  - unfold decode_tables in H. cbn [fst snd] in H.
    apply bind_Raise in H as [H|(best & _ & H)].
    + apply (forward_last_nonempty _ _ _ _ _ EO) in Hfwd.
      unfold py_max in H. by destruct (List.last M []) as [|[k v] d].
    + apply bind_Raise in H as [H|(path & _ & H)].
      * by apply backtrack_raises in H.
      * by apply join_path_raises in H as [? _].
Qed.

Lemma best_prev_no_row hmm Mprev o state s :
  s ∈ hmm_alphabet hmm -> hmm_T hmm !! s = None ->
  best_prev hmm Mprev o state = Raise KeyError.
Proof.
  intros Hs HT. unfold best_prev. apply (foldM_raise_elem _ _ _ s); [|done|].
  - intros acc p e H. unfold try_prev in H.
    apply bind_Raise in H as [H|(v & _ & H)]; [|done].
    by apply candidate_raises in H.
  - intros acc. unfold try_prev, candidate, lookup2. rewrite HT.
    by destruct (dict_get Mprev s).
Qed.

(** X12: A model that lacks [start[s]] or the row [E[s]] of an alphabet symbol
    [s] makes [viterbi] raise [KeyError] on every word that has a letter;
    one that lacks the row [T[s]] does so on every word that has two. *)
Theorem viterbi_missing_key observations hmm s :
  letters_of (hmm_alphabet hmm) (PyStr.lower observations) ≠ [] ->
  PyStr.In_list s (hmm_alphabet hmm) = true ->
  hmm_start hmm !! s = None \/ hmm_E hmm !! s = None
  \/ (hmm_T hmm !! s = None
      /\ 2 <= length (letters_of (hmm_alphabet hmm)
                                 (PyStr.lower observations))) ->
  viterbi observations hmm = Raise KeyError.
Proof.
  intros Hne Hs%In_list_spec Hmiss. unfold viterbi.
  destruct (letters_of _ _) as [|o0 obs]; [done|]. clear Hne.
  assert (Hinit : forall MB e, init_state hmm o0 MB s = Raise e ->
                               e = KeyError).
  { intros. by eapply init_state_raises. }
  assert (Hfwd : forward hmm o0 obs = Raise KeyError); [|by rewrite Hfwd].
  unfold forward.
  destruct (foldM (init_state hmm o0) (hmm_alphabet hmm) ([], []))
    as [MB0|e] eqn:E0; simpl.
  - destruct Hmiss as [Hmiss|[Hmiss|[Hmiss Hlen]]].
    + rewrite (foldM_raise_elem _ _ _ s KeyError) in E0; [done | | done |].
      * intros. by eapply init_state_raises.
      * intros MB. unfold init_state, init_score. by rewrite Hmiss.
    + rewrite (foldM_raise_elem _ _ _ s KeyError) in E0; [done | | done |].
      * intros. by eapply init_state_raises.
      * intros MB. unfold init_state, init_score, lookup2. rewrite Hmiss.
        destruct (hmm_start hmm !! s) as [p|]; simpl; [|done].
        by destruct (safe_log_returns p) as [v ->].
    + destruct obs as [|o1 obs]; [simpl in Hlen; lia|]. simpl.
      rewrite (foldM_raise_elem _ _ _ s KeyError); [done | | done |].
      * intros. by eapply step_state_raises.
      * intros MB. unfold step_state.
        by rewrite (best_prev_no_row _ _ _ _ s) by done.
  - f_equal. eapply foldM_raises; [|done].
    intros. by eapply init_state_raises.
Qed.

End Raises.

Lemma viterbi_missing_key_witness :
  @viterbi ZScore (chars "ab")
    {| hmm_alphabet := alphabet; hmm_E := indicator_table;
       hmm_T := indicator_table; hmm_start := ∅;
       hmm_emission_counts := ∅ |}
  = Raise KeyError.
Proof.
  apply (@viterbi_missing_key ZScore (chars "ab") _ "a"%char).
  - vm_compute. discriminate.
  - reflexivity.
  - left. reflexivity.
Defined.

(** ** Complete models *)

Section Complete.
Context {Sc : Score}.
Variable hmm : HMM.
Hypothesis Hnd : NoDup (hmm_alphabet hmm).
Hypothesis Hstart : forall s, s ∈ hmm_alphabet hmm ->
  is_Some (hmm_start hmm !! s).
Hypothesis HE : forall s t, s ∈ hmm_alphabet hmm -> t ∈ hmm_alphabet hmm ->
  is_Some (table_get (hmm_E hmm) s t).
Hypothesis HT : forall s t, s ∈ hmm_alphabet hmm -> t ∈ hmm_alphabet hmm ->
  is_Some (table_get (hmm_T hmm) s t).

Lemma row_of_choice (g : ascii -> result (score * option ascii)) abc :
  (forall s, s ∈ abc -> exists r, g s = Ok r) -> exists Mt Bt, row_of g abc Mt Bt.
Proof.
  intros Hg. destruct (Forall2_choice (fun s r => g s = Ok r) abc Hg) as [rs Hrs].
  exists (zip abc (fst <$> rs)), (zip abc (snd <$> rs)). by exists rs.
Qed.

Lemma init_score_complete o0 s :
  o0 ∈ hmm_alphabet hmm -> s ∈ hmm_alphabet hmm ->
  exists v, init_score hmm o0 s = Ok v.
Proof.
  intros Ho0 Hs. unfold init_score.
  destruct (Hstart s Hs) as [p ->]. simpl.
  destruct (safe_log_returns p) as [lp ->]. simpl.
  destruct (HE s o0 Hs Ho0) as [pe Hpe].
  rewrite (lookup2_table_get _ _ _ _ Hpe). simpl.
  destruct (safe_log_returns pe) as [le ->]. simpl. by eexists.
Qed.

Lemma candidate_complete Mprev s o p :
  is_Some (dict_get Mprev p) ->
  s ∈ hmm_alphabet hmm -> o ∈ hmm_alphabet hmm -> p ∈ hmm_alphabet hmm ->
  exists c, candidate hmm Mprev s o p = Ok c.
Proof.
  intros [m Hm] Hs Ho Hp. unfold candidate. rewrite Hm. simpl.
  destruct (HT p s Hp Hs) as [pt Hpt].
  rewrite (lookup2_table_get _ _ _ _ Hpt). simpl.
  destruct (safe_log_returns pt) as [lt ->]. simpl.
  destruct (HE s o Hs Ho) as [pe Hpe].
  rewrite (lookup2_table_get _ _ _ _ Hpe). simpl.
  destruct (safe_log_returns pe) as [le ->]. simpl. by eexists.
Qed.

Lemma best_prev_complete Mprev o s :
  (forall p, p ∈ hmm_alphabet hmm -> is_Some (dict_get Mprev p)) ->
  o ∈ hmm_alphabet hmm -> s ∈ hmm_alphabet hmm ->
  exists r, best_prev hmm Mprev o s = Ok r.
Proof.
  intros HM Ho Hs.
  destruct (Forall2_choice
              (fun p c => candidate hmm Mprev s o p = Ok c)
              (hmm_alphabet hmm)) as [vals Hvals].
  { intros p Hp. apply candidate_complete; auto. }
  eexists. unfold best_prev. apply foldM_try_prev. by exists vals.
Qed.

Lemma row_of_all_keys g Mt Bt p :
  row_of g (hmm_alphabet hmm) Mt Bt -> p ∈ hmm_alphabet hmm ->
  is_Some (dict_get Mt p).
Proof.
  intros Hrow Hp. destruct (row_of_get _ _ _ _ _ Hrow Hp) as (r & _ & HM & _).
  by exists r.1.
Qed.

Lemma rows_from_complete Mprev obs :
  (forall p, p ∈ hmm_alphabet hmm -> is_Some (dict_get Mprev p)) ->
  Forall (fun o => o ∈ hmm_alphabet hmm) obs ->
  exists Ms Bs, rows_from hmm Mprev obs Ms Bs.
Proof.
  intros HM Hobs. revert Mprev HM.
  induction Hobs as [|o obs Ho _ IH]; intros Mprev HM.
  - exists [], []. constructor.
  - destruct (row_of_choice (best_prev hmm Mprev o) (hmm_alphabet hmm))
      as (Mt & Bt & Hrow).
    { intros s Hs. by apply best_prev_complete. }
    destruct (IH Mt) as (Ms & Bs & Hrows).
    { intros p Hp. by eapply row_of_all_keys. }
    exists (Mt :: Ms), (Bt :: Bs). by constructor.
Qed.

Lemma forward_complete o0 obs :
  Forall (fun o => o ∈ hmm_alphabet hmm) (o0 :: obs) ->
  exists M0 B0 Ms Bs,
    forward hmm o0 obs = Ok (M0 :: Ms, B0 :: Bs) /\
    rows_from hmm M0 obs Ms Bs.
Proof.
  intros [Ho0 Hobs]%Forall_cons.
  destruct (row_of_choice
              (fun state => v ← init_score hmm o0 state; Ok (v, None))
              (hmm_alphabet hmm)) as (M0 & B0 & Hrow0).
  { intros s Hs. destruct (init_score_complete o0 s Ho0 Hs) as [v ->].
    by eexists. }
  destruct (rows_from_complete M0 obs) as (Ms & Bs & Hrows); [|done|].
  { intros p Hp. by eapply row_of_all_keys. }
  exists M0, B0, Ms, Bs. split; [|done].
  apply forward_rows; [done|]. by exists M0, B0, Ms, Bs.
Qed.

Lemma row_good_or_None Mp o Mt Bt :
  row_of (best_prev hmm Mp o) (hmm_alphabet hmm) Mt Bt ->
  good_row (hmm_alphabet hmm) Bt \/ exists k, dict_get Bt k = Some None.
Proof.
  intros Hrow.
  destruct (decide (Exists (fun k => dict_get Bt k = Some None)
                           (hmm_alphabet hmm))) as [Hex|Hno].
  - right. apply Exists_exists in Hex as (k & _ & Hk). by exists k.
  - left. intros k Hk.
    destruct (row_of_get _ _ _ _ _ Hrow Hk) as ([v bp] & Hbest & _ & HB).
    destruct bp as [p|].
    + exists p. split; [by eapply best_prev_symbol | done].
    + exfalso. apply Hno. apply Exists_exists. by exists k.
Qed.

Lemma rows_good_or_None Mprev obs Ms Bs :
  rows_from hmm Mprev obs Ms Bs ->
  Forall (good_row (hmm_alphabet hmm)) Bs
  \/ exists Bt k, Bt ∈ Bs /\ dict_get Bt k = Some None.
Proof.
  induction 1 as [|Mprev o obs Mt Bt Ms Bs Hrow _ IH]; [by left|].
  destruct (row_good_or_None _ _ _ _ Hrow) as [Hgood|[k Hk]].
  - destruct IH as [IH|(Bt' & k & Hin & Hk)].
    + left. by constructor.
    + right. exists Bt', k. split; [by right | done].
  - right. exists Bt, k. split; [by left | done].
Qed.

End Complete.

(** X13: On a model that has every entry ([start[s]], [E[s][t]] and [T[s][t]]
    for all alphabet symbols [s], [t]), INITIALIZATION and RECURSION fill
    the tables without raising; and when [viterbi] raises, backtracking has
    met a backpointer [None] that the recursion stored at some time step
    [>= 1]. *)
Theorem viterbi_complete_model {Sc : Score} hmm observations o0 obs :
  NoDup (hmm_alphabet hmm) ->
  (forall s, s ∈ hmm_alphabet hmm -> is_Some (hmm_start hmm !! s)) ->
  (forall s t, s ∈ hmm_alphabet hmm -> t ∈ hmm_alphabet hmm ->
               is_Some (table_get (hmm_E hmm) s t)) ->
  (forall s t, s ∈ hmm_alphabet hmm -> t ∈ hmm_alphabet hmm ->
               is_Some (table_get (hmm_T hmm) s t)) ->
  letters_of (hmm_alphabet hmm) (PyStr.lower observations) = o0 :: obs ->
  exists M BP,
    forward hmm o0 obs = Ok (M, BP) /\
    forall e, viterbi observations hmm = Raise e ->
              exists Bt k, Bt ∈ tail BP /\ dict_get Bt k = Some None.
Proof.
  intros Hnd Hstart HE HT HO.
  pose proof (letters_of_Forall (hmm_alphabet hmm) (PyStr.lower observations))
    as Hall.
  rewrite HO in Hall.
  destruct (forward_complete hmm Hnd Hstart HE HT o0 obs Hall)
    as (M0 & B0 & Ms & Bs & Hfwd & Hrows).
  exists (M0 :: Ms), (B0 :: Bs). split; [done|]. intros e Hraise.
  unfold viterbi in Hraise. rewrite HO, Hfwd in Hraise. simpl in Hraise.
  destruct (rows_good_or_None hmm _ _ _ _ Hrows) as [Hgood|Hbad]; [|done].
  destruct (decode_tables_good (hmm_alphabet hmm) (M0 :: Ms) (B0 :: Bs))
    as [out Hout]; [| |done|congruence].
  - by eapply letters_of_alphabet_nonempty.
  - by eapply last_row_keys.
Qed.

Lemma viterbi_complete_model_witness :
  exists M BP,
    @forward ZScore frozen_hmm "a" ["b"%char] = Ok (M, BP) /\
    forall e, @viterbi ZScore (chars "ab") frozen_hmm = Raise e ->
              exists Bt k, Bt ∈ tail BP /\ dict_get Bt k = Some None.
Proof.
  apply (@viterbi_complete_model ZScore frozen_hmm (chars "ab")).
  - apply alphabet_NoDup.
  - intros s Hs. cbn [hmm_start frozen_hmm].
    rewrite indicator_row_lookup by done. by eexists.
  - intros s t Hs Ht. cbn [hmm_E frozen_hmm]. unfold table_get.
    pose proof (indicator_table_lookup s t Hs Ht) as H. unfold lookup2 in H.
    destruct (indicator_table !! s) as [row|]; [|done]. simpl in *.
    destruct (row !! t); [by eexists | done].
  - intros s t Hs Ht. cbn [hmm_T frozen_hmm]. unfold table_get.
    pose proof (indicator_table_lookup s t Hs Ht) as H. unfold lookup2 in H.
    destruct (indicator_table !! s) as [row|]; [|done]. simpl in *.
    destruct (row !! t); [by eexists | done].
  - reflexivity.
Defined.

(** ** The decoded path is a most likely one *)

Lemma Rgtb_false a b : Rgtb a b = false <-> (a <= b)%R.
Proof. unfold Rgtb. destruct (Rgt_dec a b); split; intros; try done; lra. Qed.

Lemma Forall2_zip_elem {A B} (P : A -> B -> Prop) (l : list A) (bs : list B) a :
  Forall2 P l bs -> a ∈ l -> exists b, (a, b) ∈ zip l bs /\ P a b.
Proof.
  induction 1 as [|x y l bs Hxy _ IH]; intros Ha; [by inversion Ha|].
  apply elem_of_cons in Ha as [->|Ha].
  - exists y. split; [by left | done].
  - destruct (IH Ha) as (b & Hin & Hb). exists b. split; [by right | done].
Qed.

Lemma dict_get_NoDup {K V} `{EqDecision K} (d : dict K V) k v :
  NoDup (dict_keys d) -> (k, v) ∈ d -> dict_get d k = Some v.
Proof.
  induction d as [|[k' v'] d IH]; intros Hnd Hin; [by inversion Hin|].
  simpl in *. apply NoDup_cons in Hnd as [Hk' Hnd].
  apply elem_of_cons in Hin as [[= -> ->]|Hin].
  - by rewrite decide_True.
  - rewrite decide_False; [by apply IH|]. intros ->. apply Hk'.
    unfold dict_keys. apply list_elem_of_fmap. by exists (k', v).
Qed.

Section Optimal.
Variable hmm : HMM.
Variable pmin : Q.
Hypothesis Hnd : NoDup (hmm_alphabet hmm).
Hypothesis Hpmin : (0 < pmin)%Q.
Hypothesis Hpmin1 : (pmin <= 1)%Q.
Hypothesis Hstart : forall s, s ∈ hmm_alphabet hmm ->
  exists p, hmm_start hmm !! s = Some p /\ (pmin <= p)%Q.
Hypothesis HE : forall s t, s ∈ hmm_alphabet hmm -> t ∈ hmm_alphabet hmm ->
  exists p, table_get (hmm_E hmm) s t = Some p /\ (pmin <= p)%Q.
Hypothesis HT : forall s t, s ∈ hmm_alphabet hmm -> t ∈ hmm_alphabet hmm ->
  exists p, table_get (hmm_T hmm) s t = Some p /\ (pmin <= p)%Q.

Lemma chain_score_snoc prev q p s os o :
  length (q ++ [p]) = length os ->
  chain_score hmm prev ((q ++ [p]) ++ [s]) (os ++ [o])
  = (chain_score hmm prev (q ++ [p]) os
     + ln (Q2R (trans_prob hmm p s)) + ln (Q2R (emit_prob hmm s o)))%R.
Proof.
  revert prev os. induction q as [|a q IH]; intros prev os Hlen.
  - destruct os as [|o' [|o'' os]]; try done. cbn. lra.
  - destruct os as [|o' os]; [done|].
    cbn [app chain_score]. rewrite IH by (simpl in Hlen; lia). lra.
Qed.

Lemma path_score_snoc q p s os o :
  length (q ++ [p]) = length os ->
  path_score hmm ((q ++ [p]) ++ [s]) (os ++ [o])
  = (path_score hmm (q ++ [p]) os
     + ln (Q2R (trans_prob hmm p s)) + ln (Q2R (emit_prob hmm s o)))%R.
Proof.
  intros Hlen. destruct q as [|a q].
  - destruct os as [|o' [|o'' os]]; try done. cbn. lra.
  - destruct os as [|o' os]; [done|].
    cbn [app path_score]. rewrite chain_score_snoc by (simpl in Hlen; lia).
    lra.
Qed.

Lemma entry_pos p : (pmin <= p)%Q -> (0 < p)%Q /\ (0 < Q2R p)%R.
Proof.
  intros Hp. assert (H0 : (0 < p)%Q) by Lqa.lra. split; [done|].
  rewrite <- RMicromega.Q2R_0. by apply Qlt_Rlt.
Qed.

Lemma start_prob_pos s :
  s ∈ hmm_alphabet hmm ->
  hmm_start hmm !! s = Some (start_prob hmm s)
  /\ (0 < start_prob hmm s)%Q /\ (0 < Q2R (start_prob hmm s))%R.
Proof.
  intros Hs. destruct (Hstart s Hs) as (p & Hp & Hge).
  unfold start_prob. rewrite Hp. simpl. split; [done|]. by apply entry_pos.
Qed.

Lemma emit_prob_pos s o :
  s ∈ hmm_alphabet hmm -> o ∈ hmm_alphabet hmm ->
  table_get (hmm_E hmm) s o = Some (emit_prob hmm s o)
  /\ (0 < emit_prob hmm s o)%Q /\ (0 < Q2R (emit_prob hmm s o))%R.
Proof.
  intros Hs Ho. destruct (HE s o Hs Ho) as (p & Hp & Hge).
  unfold emit_prob. rewrite Hp. simpl. split; [done|]. by apply entry_pos.
Qed.

Lemma trans_prob_pos p s :
  p ∈ hmm_alphabet hmm -> s ∈ hmm_alphabet hmm ->
  table_get (hmm_T hmm) p s = Some (trans_prob hmm p s)
  /\ (0 < trans_prob hmm p s)%Q /\ (0 < Q2R (trans_prob hmm p s))%R.
Proof.
  intros Hp Hs. destruct (HT p s Hp Hs) as (t & Ht & Hge).
  unfold trans_prob. rewrite Ht. simpl. split; [done|]. by apply entry_pos.
Qed.

Lemma init_score_value o0 s :
  o0 ∈ hmm_alphabet hmm -> s ∈ hmm_alphabet hmm ->
  @init_score RScore hmm o0 s
  = Ok (ln (Q2R (start_prob hmm s)) + ln (Q2R (emit_prob hmm s o0)))%R.
Proof.
  intros Ho0 Hs. unfold init_score.
  destruct (start_prob_pos s Hs) as (-> & Hps & _).
  destruct (emit_prob_pos s o0 Hs Ho0) as (He%lookup2_table_get & Hpe & _).
  cbn [of_option mbind result_bind].
  rewrite (R_safe_log_pos _ Hps). cbn [mbind result_bind]. rewrite He.
  cbn [mbind result_bind]. rewrite (R_safe_log_pos _ Hpe).
  by cbn [mbind result_bind].
Qed.

Lemma candidate_value (Mprev : dict ascii (@score RScore)) s o p (m : R) :
  dict_get Mprev p = Some m ->
  s ∈ hmm_alphabet hmm -> o ∈ hmm_alphabet hmm -> p ∈ hmm_alphabet hmm ->
  @candidate RScore hmm Mprev s o p
  = Ok (m + ln (Q2R (trans_prob hmm p s))
        + ln (Q2R (emit_prob hmm s o)))%R.
Proof.
  intros Hm Hs Ho Hp. unfold candidate. rewrite Hm.
  destruct (trans_prob_pos p s Hp Hs) as (Ht%lookup2_table_get & Hpt & _).
  destruct (emit_prob_pos s o Hs Ho) as (He%lookup2_table_get & Hpe & _).
  cbn [of_option mbind result_bind]. rewrite Ht.
  cbn [mbind result_bind]. rewrite (R_safe_log_pos _ Hpt).
  cbn [mbind result_bind]. rewrite He.
  cbn [mbind result_bind]. rewrite (R_safe_log_pos _ Hpe).
  by cbn [mbind result_bind].
Qed.

(** A step that stays above the sentinel stores the largest candidate and
    a previous symbol that offers it. *)
Lemma best_prev_max (Mprev : dict ascii (@score RScore)) o s b :
  row_ge hmm b Mprev -> (-1e9 < b + 2 * lnmin pmin)%R ->
  o ∈ hmm_alphabet hmm -> s ∈ hmm_alphabet hmm ->
  exists (v : R) p (m : R),
    @best_prev RScore hmm Mprev o s = Ok (v, Some p)
    /\ p ∈ hmm_alphabet hmm
    /\ dict_get Mprev p = Some m
    /\ v = (m + ln (Q2R (trans_prob hmm p s))
            + ln (Q2R (emit_prob hmm s o)))%R
    /\ forall p' (m' : R),
         p' ∈ hmm_alphabet hmm -> dict_get Mprev p' = Some m' ->
         (m' + ln (Q2R (trans_prob hmm p' s))
          + ln (Q2R (emit_prob hmm s o)) <= v)%R.
Proof.
  intros Hrow Hb Ho Hs.
  destruct (best_prev_alive hmm pmin Hnd Hpmin Hstart HE HT Mprev o s b)
    as (v & p & Hbest & Hp & _); [done..|].
  destruct (Hrow p Hp) as (m & Hm & _). exists v, p, m.
  pose proof (@best_prev_spec RScore _ _ _ _ _ _ Hbest)
    as (vals & Hvals & [(? & _)|(p0 & [= <-] & Hmax & _)]); [done|].
  destruct Hmax as (l1 & l2 & Hzip & H1 & H2).
  assert (Hval : forall p' (c : R),
             (p', c) ∈ zip (hmm_alphabet hmm) vals -> (c <= v)%R).
  { intros p' c Hin. rewrite Hzip in Hin.
    apply elem_of_app in Hin as [Hin|Hin].
    - rewrite Forall_forall in H1. apply H1 in Hin.
      cbn [snd score_gtb RScore] in Hin. apply Rgtb_true in Hin. lra.
    - apply elem_of_cons in Hin as [[= -> ->]|Hin]; [lra|].
      rewrite Forall_forall in H2. apply H2 in Hin.
      cbn [snd score_gtb RScore] in Hin. by apply Rgtb_false in Hin. }
  do 3 (split; [done|]). split.
  - assert (Hin : (p, v) ∈ zip (hmm_alphabet hmm) vals).
    { rewrite Hzip. apply elem_of_app. right. by left. }
    pose proof (zip_Forall2 _ _ _ _ _ Hvals Hin) as Hc. cbn beta in Hc.
    rewrite (candidate_value _ _ _ _ _ Hm Hs Ho Hp) in Hc.
    by injection Hc.
  - intros p' m' Hp' Hm'.
    destruct (Forall2_zip_elem _ _ _ _ Hvals Hp') as (c & Hin & Hc).
    cbn beta in Hc. rewrite (candidate_value _ _ _ _ _ Hm' Hs Ho Hp') in Hc.
    injection Hc as <-. by apply Hval in Hin.
Qed.

Lemma best_row_init o0 M0 B0 :
  o0 ∈ hmm_alphabet hmm ->
  row_of (fun state => v ← @init_score RScore hmm o0 state; Ok (v, None))
         (hmm_alphabet hmm) M0 B0 ->
  best_row hmm [o0] M0 [].
Proof.
  intros Ho0 Hrow s Hs. exists [].
  destruct (row_of_get _ _ _ _ _ Hrow Hs) as (r & Hr & HM & _).
  rewrite init_score_value in Hr by done. cbn [mbind result_bind] in Hr.
  injection Hr as <-. cbn [fst] in HM.
  split; [done|]. split; [constructor|]. split; [|split; [done|]].
  - rewrite HM. cbn. f_equal. lra.
  - intros q' Hlen _. destruct q' as [|a q']; [lra|].
    simpl in Hlen. rewrite length_app in Hlen. simpl in Hlen. lia.
Qed.

Lemma best_row_step os Mprev Bs o Mt Bt b :
  best_row hmm os Mprev Bs ->
  row_ge hmm b Mprev -> (-1e9 < b + 2 * lnmin pmin)%R ->
  o ∈ hmm_alphabet hmm ->
  row_of (@best_prev RScore hmm Mprev o) (hmm_alphabet hmm) Mt Bt ->
  best_row hmm (os ++ [o]) Mt (Bs ++ [Bt]).
Proof.
  intros Hbest Hge Hb Ho Hrow s Hs.
  destruct (row_of_get _ _ _ _ _ Hrow Hs) as (r & Hr & HM & HB).
  destruct (best_prev_max Mprev o s b Hge Hb Ho Hs)
    as (v & p & m & Hbp & Hp & Hm & Hv & Hmax).
  rewrite Hbp in Hr. injection Hr as <-. cbn [fst snd] in HM, HB.
  destruct (Hbest p Hp) as (q & Hlen & Hq & HMp & Hback & Hopt).
  rewrite Hm in HMp. injection HMp as ->.
  exists (q ++ [p]). split; [|split; [|split; [|split]]].
  - rewrite !length_app in *. simpl in *. lia.
  - apply Forall_app. split; [done | by constructor].
  - rewrite HM, Hv. f_equal. by rewrite path_score_snoc.
  - rewrite rev_app_distr. cbn [rev app backtrack]. rewrite HB.
    cbn [of_option mbind result_bind]. rewrite Hback.
    cbn [mbind result_bind]. by rewrite (rev_app_distr (q ++ [p]) [s]).
  - intros q' Hlen' Hq'.
    assert (Hne : q' ≠ []).
    { intros ->. rewrite !length_app in *. simpl in *. lia. }
    destruct (exists_last Hne) as (q'' & p' & ->).
    apply Forall_app in Hq' as [Hq'' Hp']. apply Forall_inv in Hp'.
    assert (Hlen'' : length (q'' ++ [p']) = length os).
    { rewrite !length_app in *. simpl in *. lia. }
    rewrite !path_score_snoc by done.
    destruct (Hbest p' Hp') as (qp & _ & _ & HMp' & _ & Hopt').
    pose proof (Hopt' q'' Hlen'' Hq'') as Hle.
    pose proof (Hmax p' _ Hp' HMp') as Hle'.
    lra.
Qed.

Lemma best_row_rows Mprev obs Ms Bs :
  rows_from hmm Mprev obs Ms Bs ->
  forall os Bs0 b,
    best_row hmm os Mprev Bs0 -> row_ge hmm b Mprev ->
    Forall (fun o => o ∈ hmm_alphabet hmm) obs ->
    (-1e9 < b + 2 * lnmin pmin * INR (length obs))%R ->
    best_row hmm (os ++ obs) (List.last (Mprev :: Ms) []) (Bs0 ++ Bs).
Proof.
  induction 1 as [|Mprev o obs Mt Bt Ms Bs Hrow _ IH];
    intros os Bs0 b Hbest Hge Hobs Hb.
  - by rewrite !app_nil_r.
  - pose proof (lnmin_nonpos pmin Hpmin Hpmin1) as Hln.
    assert (Hlen : (0 <= INR (length obs))%R) by apply pos_INR.
    rewrite length_cons, S_INR in Hb.
    apply Forall_cons in Hobs as [Ho Hobs].
    assert (Hb1 : (-1e9 < b + 2 * lnmin pmin)%R) by nra.
    change (List.last (Mprev :: Mt :: Ms) []) with (List.last (Mt :: Ms) []).
    replace (os ++ o :: obs) with ((os ++ [o]) ++ obs)
      by by rewrite <- app_assoc.
    replace (Bs0 ++ Bt :: Bs) with ((Bs0 ++ [Bt]) ++ Bs)
      by by rewrite <- app_assoc.
    apply (IH _ _ (b + 2 * lnmin pmin)%R).
    + by eapply best_row_step.
    + by eapply (step_row_ge hmm pmin).
    + done.
    + lra.
Qed.

Lemma chain_prob_ln prev path obs :
  prev ∈ hmm_alphabet hmm ->
  Forall (fun c => c ∈ hmm_alphabet hmm) path ->
  Forall (fun c => c ∈ hmm_alphabet hmm) obs ->
  (0 < Q2R (chain_prob hmm prev path obs))%R
  /\ ln (Q2R (chain_prob hmm prev path obs)) = chain_score hmm prev path obs.
Proof.
  intros Hprev Hpath. revert prev obs Hprev.
  induction Hpath as [|s path Hs _ IH]; intros prev obs Hprev Hobs.
  - cbn. rewrite RMicromega.Q2R_1, ln_1. split; [lra | done].
  - destruct Hobs as [|o obs Ho Hobs].
    + cbn. rewrite RMicromega.Q2R_1, ln_1. split; [lra | done].
    + cbn [chain_prob chain_score]. rewrite !Q2R_mult.
      destruct (trans_prob_pos prev s Hprev Hs) as (_ & _ & Ht).
      destruct (emit_prob_pos s o Hs Ho) as (_ & _ & He).
      destruct (IH s obs Hs Hobs) as [Hc <-].
      assert (Hte : (0 < Q2R (trans_prob hmm prev s)
                         * Q2R (emit_prob hmm s o))%R)
        by by apply Rmult_lt_0_compat.
      split; [by apply Rmult_lt_0_compat|].
      by rewrite !ln_mult.
Qed.

Lemma path_prob_ln path obs :
  Forall (fun c => c ∈ hmm_alphabet hmm) path ->
  Forall (fun c => c ∈ hmm_alphabet hmm) obs ->
  (0 < Q2R (path_prob hmm path obs))%R
  /\ ln (Q2R (path_prob hmm path obs)) = path_score hmm path obs.
Proof.
  intros Hpath Hobs.
  destruct Hpath as [|s path Hs Hpath];
    [cbn; rewrite RMicromega.Q2R_1, ln_1; split; [lra | done]|].
  destruct Hobs as [|o obs Ho Hobs];
    [cbn; rewrite RMicromega.Q2R_1, ln_1; split; [lra | done]|].
  cbn [path_prob path_score]. rewrite !Q2R_mult.
  destruct (start_prob_pos s Hs) as (_ & _ & Hst).
  destruct (emit_prob_pos s o Hs Ho) as (_ & _ & He).
  destruct (chain_prob_ln s path obs Hs Hpath Hobs) as [Hc <-].
  assert (Hse : (0 < Q2R (start_prob hmm s) * Q2R (emit_prob hmm s o))%R)
    by by apply Rmult_lt_0_compat.
  split; [by apply Rmult_lt_0_compat|].
  by rewrite !ln_mult.
Qed.

Lemma path_score_le_prob path path' obs :
  Forall (fun c => c ∈ hmm_alphabet hmm) path ->
  Forall (fun c => c ∈ hmm_alphabet hmm) path' ->
  Forall (fun c => c ∈ hmm_alphabet hmm) obs ->
  (path_score hmm path obs <= path_score hmm path' obs)%R ->
  (path_prob hmm path obs <= path_prob hmm path' obs)%Q.
Proof.
  intros Hpath Hpath' Hobs Hle.
  destruct (path_prob_ln path obs Hpath Hobs) as [Hpos Hln].
  destruct (path_prob_ln path' obs Hpath' Hobs) as [Hpos' Hln'].
  rewrite <- Hln, <- Hln' in Hle. apply Rle_Qle.
  destruct (Rle_or_lt (Q2R (path_prob hmm path obs))
                      (Q2R (path_prob hmm path' obs))) as [?|Hlt]; [done|].
  apply ln_increasing in Hlt; [lra | done].
Qed.

(** On a word short enough for the model the decoder returns a path that
    no path of the same length outweighs. *)
Lemma viterbi_optimal_ln observations :
  letters_of (hmm_alphabet hmm) (PyStr.lower observations) ≠ [] ->
  (-1e9 < 2 * lnmin pmin
          * INR (length (letters_of (hmm_alphabet hmm)
                                    (PyStr.lower observations))))%R ->
  exists out,
    @viterbi RScore observations hmm = Ok out
    /\ forall path,
         length path
         = length (letters_of (hmm_alphabet hmm) (PyStr.lower observations)) ->
         Forall (fun c => c ∈ hmm_alphabet hmm) path ->
         (path_prob hmm path
            (letters_of (hmm_alphabet hmm) (PyStr.lower observations))
          <= path_prob hmm out
               (letters_of (hmm_alphabet hmm) (PyStr.lower observations)))%Q.
Proof.
  intros Hne Hb. unfold viterbi.
  pose proof (letters_of_Forall (hmm_alphabet hmm)
                (PyStr.lower observations)) as Hall.
  destruct (letters_of _ _) as [|o0 obs]; [done|]. clear Hne.
  pose proof Hall as HallO. apply Forall_cons in Hall as [Ho0 Hobs].
  rewrite length_cons, S_INR in Hb.
  destruct (@forward_complete RScore hmm Hnd) with (o0 := o0) (obs := obs)
    as (M0 & B0 & Ms & Bs & Hfwd & Hrows); [| | |done|].
  { intros s Hs. destruct (Hstart s Hs) as (p & -> & _). by eexists. }
  { intros s t Hs Ht. destruct (HE s t Hs Ht) as (p & -> & _). by eexists. }
  { intros s t Hs Ht. destruct (HT s t Hs Ht) as (p & -> & _). by eexists. }
  pose proof Hfwd as Hfwd'.
  apply forward_rows in Hfwd'
    as (M0' & B0' & Ms' & Bs' & [= <- <-] & [= <- <-] & Hrow0 & _); [|done].
  assert (Hlast : best_row hmm (o0 :: obs) (List.last (M0 :: Ms) []) Bs).
  { apply (best_row_rows M0 obs Ms Bs Hrows [o0] [] (2 * lnmin pmin)%R).
    - by eapply best_row_init.
    - by eapply (init_row_ge hmm pmin).
    - done.
    - lra. }
  pose proof (last_row_keys _ _ _ _ _ Hnd Hfwd) as Hkeys.
  rewrite Hfwd. cbn [mbind result_bind]. unfold decode_tables.
  cbn [fst snd tail].
  destruct (py_max_nonempty (List.last (M0 :: Ms) [])) as [best Hbest].
  { intros Heq. rewrite Heq in Hkeys. rewrite <- Hkeys in Ho0.
    by inversion Ho0. }
  rewrite Hbest. cbn [mbind result_bind].
  assert (Hbin : best ∈ hmm_alphabet hmm).
  { rewrite <- Hkeys. by apply py_max_key. }
  destruct (Hlast best Hbin) as (q & Hlen & Hq & HMb & Hback & _).
  rewrite Hback. cbn [mbind result_bind].
  rewrite <- fmap_rev, rev_involutive, join_path_Some.
  eexists; split; [done|]. intros path Hplen Hpath.
  assert (Hpne : path ≠ []) by (intros ->; done).
  destruct (exists_last Hpne) as (q' & s' & ->).
  pose proof Hpath as Hpath'.
  apply Forall_app in Hpath' as [Hq' Hs']. apply Forall_inv in Hs'.
  apply path_score_le_prob; [done | | done |].
  { apply Forall_app. split; [done | by constructor]. }
  destruct (Hlast s' Hs') as (qs & _ & _ & HMs' & _ & Hopt).
  pose proof (Hopt q' Hplen Hq') as Hle.
  apply py_max_spec in Hbest as (v & l1 & l2 & Hrow & H1 & H2).
  assert (Hndk : NoDup (dict_keys (List.last (M0 :: Ms) [])))
    by by rewrite Hkeys.
  assert (Hv : dict_get (List.last (M0 :: Ms) []) best = Some v).
  { apply dict_get_NoDup; [done|]. rewrite Hrow.
    apply elem_of_app. right. by left. }
  rewrite HMb in Hv. injection Hv as Hv.
  apply dict_get_elem in HMs'. rewrite Hrow in HMs'.
  apply elem_of_app in HMs' as [Hin|Hin].
  - rewrite Forall_forall in H1. apply H1 in Hin.
    cbn [snd score_gtb RScore] in Hin. apply Rgtb_true in Hin. lra.
  - apply elem_of_cons in Hin as [[= -> Heq]|Hin]; [lra|].
    rewrite Forall_forall in H2. apply H2 in Hin.
    cbn [snd score_gtb RScore] in Hin. apply Rgtb_false in Hin. lra.
Qed.

End Optimal.

(** ** Decoding with a trained model *)

Lemma trained_complete lines :
  (forall s, s ∈ alphabet -> is_Some (hmm_start (train lines) !! s))
  /\ (forall s t, s ∈ alphabet -> t ∈ alphabet ->
        is_Some (table_get (hmm_E (train lines)) s t))
  /\ (forall s t, s ∈ alphabet -> t ∈ alphabet ->
        is_Some (table_get (hmm_T (train lines)) s t)).
Proof.
  destruct (trained_entries (learn_lines lines)) as (HS & HE & HT).
  split; [|split].
  - intros s Hs. destruct (HS s Hs) as (p & Hp & _). by exists p.
  - intros s t Hs Ht. destruct (HE s t Hs Ht) as (p & Hp & _). by exists p.
  - intros s t Hs Ht. destruct (HT s t Hs Ht) as (p & Hp & _). by exists p.
Qed.

Lemma forallb_alphabet l :
  forallb (fun c => PyStr.In_list c alphabet) l = true ->
  Forall (fun c => c ∈ alphabet) l.
Proof.
  rewrite forallb_forall, Forall_forall. intros H c Hc.
  by apply In_list_spec, H, list_elem_of_In.
Qed.

(** X16: On a trained model, with real arithmetic, the string [viterbi] returns
    for a word within the length bound is a most likely sequence of hidden
    symbols: no sequence of alphabet symbols of the same length has a larger
    weight [start[p0] * E[p0][o0] * T[p0][p1] * E[p1][o1] * ...] for the
    filtered word. *)
Theorem viterbi_most_likely lines observations :
  letters_of alphabet (PyStr.lower observations) ≠ [] ->
  (2 * Z.of_nat (length (letters_of alphabet (PyStr.lower observations)))
   * (100 * Z.of_nat (count_bound (learn_lines lines)) + 27)
   <= 1000000000)%Z ->
  exists out,
    @viterbi RScore observations (train lines) = Ok out
    /\ forall path,
         length path
         = length (letters_of alphabet (PyStr.lower observations)) ->
         Forall (fun c => c ∈ alphabet) path ->
         (path_prob (train lines) path
            (letters_of alphabet (PyStr.lower observations))
          <= path_prob (train lines) out
               (letters_of alphabet (PyStr.lower observations)))%Q.
Proof.
  intros Hne Hlen. set (st := learn_lines lines) in *.
  destruct (trained_floor_pos st) as [Hpos Hle1].
  destruct (trained_entries st) as (HS & HE & HT).
  apply (viterbi_optimal_ln (train lines) (trained_floor st));
    try done; try apply alphabet_NoDup.
  cbn [hmm_alphabet train hmm_of_counts].
  apply trained_margin; [|done].
  destruct (letters_of alphabet (PyStr.lower observations)); [done|].
  simpl. lia.
Qed.

Lemma viterbi_most_likely_witness :
  exists out,
    @viterbi RScore (chars "teh") (train sample_corpus) = Ok out
    /\ forall path,
         length path = length (letters_of alphabet (PyStr.lower (chars "teh"))) ->
         Forall (fun c => c ∈ alphabet) path ->
         (path_prob (train sample_corpus) path
            (letters_of alphabet (PyStr.lower (chars "teh")))
          <= path_prob (train sample_corpus) out
               (letters_of alphabet (PyStr.lower (chars "teh"))))%Q.
Proof.
  apply (viterbi_most_likely sample_corpus (chars "teh")).
  - vm_compute. discriminate.
  - vm_compute. discriminate.
Defined.

(** X14: On a trained model, with real arithmetic, INITIALIZATION and RECURSION
    fill the tables for every word of alphabet symbols within the length
    bound, and every time step [time + 1] stores, for every symbol, the
    first maximum of the candidates in alphabet order and the previous
    symbol that offers it. *)
Theorem trained_recursion_first_max lines o0 obs :
  forallb (fun c => PyStr.In_list c alphabet) (o0 :: obs) = true ->
  (2 * Z.of_nat (length (o0 :: obs))
   * (100 * Z.of_nat (count_bound (learn_lines lines)) + 27)
   <= 1000000000)%Z ->
  exists M BP,
    @forward RScore (train lines) o0 obs = Ok (M, BP)
    /\ forall time o state,
         (o0 :: obs) !! (time + 1) = Some o ->
         state ∈ alphabet ->
         exists Mprev Mt Bt (v : R) p vals,
           M !! time = Some Mprev /\ M !! (time + 1) = Some Mt
           /\ BP !! (time + 1) = Some Bt
           /\ dict_get Mt state = Some v
           /\ dict_get Bt state = Some (Some p)
           /\ Forall2 (fun q c => @candidate RScore (train lines) Mprev state
                                    o q = Ok c) alphabet vals
           /\ @first_max RScore (zip alphabet vals) p v.
Proof.
  intros Hall%forallb_alphabet Hlen.
  destruct (trained_complete lines) as (HS & HE & HT).
  destruct (@forward_complete RScore (train lines) alphabet_NoDup HS HE HT
              o0 obs Hall) as (M0 & B0 & Ms & Bs & Hfwd & _).
  exists (M0 :: Ms), (B0 :: Bs). split; [done|].
  intros time o state Ho Hstate.
  by apply (recursion_step_trained lines o0 obs).
Qed.

Lemma trained_recursion_first_max_witness :
  exists M BP,
    @forward RScore (train sample_corpus) "t" (chars "eh") = Ok (M, BP)
    /\ forall time o state,
         ("t"%char :: chars "eh") !! (time + 1) = Some o ->
         state ∈ alphabet ->
         exists Mprev Mt Bt (v : R) p vals,
           M !! time = Some Mprev /\ M !! (time + 1) = Some Mt
           /\ BP !! (time + 1) = Some Bt
           /\ dict_get Mt state = Some v
           /\ dict_get Bt state = Some (Some p)
           /\ Forall2 (fun q c => @candidate RScore (train sample_corpus)
                                    Mprev state o q = Ok c) alphabet vals
           /\ @first_max RScore (zip alphabet vals) p v.
Proof.
  apply (trained_recursion_first_max sample_corpus "t"%char (chars "eh")).
  - reflexivity.
  - vm_compute. discriminate.
Defined.

(** X15: TERMINATION: the last symbol of a string [viterbi] returns is the key
    of the first maximum of the last score row [M[t-1]], whose keys are the
    alphabet in its order. *)
Theorem viterbi_last_symbol {Sc : Score} observations hmm o0 obs out :
  NoDup (hmm_alphabet hmm) ->
  letters_of (hmm_alphabet hmm) (PyStr.lower observations) = o0 :: obs ->
  viterbi observations hmm = Ok out ->
  exists M BP best v,
    forward hmm o0 obs = Ok (M, BP)
    /\ dict_keys (List.last M []) = hmm_alphabet hmm
    /\ first_max (List.last M []) best v
    /\ last out = Some best.
Proof.
  intros Hnd HO Hout. unfold viterbi in Hout. rewrite HO in Hout.
  apply bind_Ok in Hout as ([M BP] & Hfwd & Hdec).
  destruct (termination_first_max _ _ Hdec) as (best & v & Hmax & Hlast).
  exists M, BP, best, v. split; [done|]. split; [|done].
  by eapply last_row_keys.
Qed.

Lemma viterbi_last_symbol_witness :
  exists M BP best v,
    @forward ZScore sample_hmm "t" (chars "eh") = Ok (M, BP)
    /\ dict_keys (List.last M []) = hmm_alphabet sample_hmm
    /\ @first_max ZScore (List.last M []) best v
    /\ last (chars "the") = Some best.
Proof.
  apply (@viterbi_last_symbol ZScore (chars "teh") sample_hmm).
  - apply alphabet_NoDup.
  - reflexivity.
  - vm_compute. reflexivity.
Defined.

(** ** Sentences *)

Lemma split_from_word w s cur :
  Forall (fun c => PyStr.isspace c = false) w ->
  PyStr.split_from (w ++ s) cur = PyStr.split_from s (rev w ++ cur).
Proof.
  intros Hw. revert cur. induction Hw as [|c w Hc _ IH]; intros cur; [done|].
  cbn [app PyStr.split_from rev]. rewrite Hc, IH.
  by rewrite <- app_assoc.
Qed.

Lemma rev_nonempty {A} (l : list A) : l ≠ [] -> rev l ≠ [].
Proof.
  intros Hne Heq. apply (f_equal (@length A)) in Heq.
  rewrite length_rev in Heq. by destruct l.
Qed.

Lemma split_join words :
  Forall (fun w => w ≠ [] /\ Forall (fun c => PyStr.isspace c = false) w)
         words ->
  PyStr.split (PyStr.join (chars " ") words) = words.
Proof.
  induction 1 as [|w ws [Hne Hw] Hws IH]; [done|].
  unfold PyStr.split in *. destruct ws as [|w' ws].
  - cbn [PyStr.join]. rewrite <- (app_nil_r w) at 1.
    rewrite split_from_word by done. cbn [PyStr.split_from].
    rewrite app_nil_r. pose proof (rev_nonempty w Hne) as Hrev.
    destruct (rev w) as [|c l] eqn:E; [done|].
    by rewrite <- E, rev_involutive.
  - change (PyStr.join (chars " ") (w :: w' :: ws))
      with (w ++ " "%char :: PyStr.join (chars " ") (w' :: ws)).
    rewrite split_from_word by done. rewrite app_nil_r.
    cbn [PyStr.split_from].
    change (PyStr.isspace " ") with true. cbn iota.
    pose proof (rev_nonempty w Hne) as Hrev.
    destruct (rev w) as [|c l] eqn:E; [done|].
    by rewrite <- E, rev_involutive, IH.
Qed.

Lemma split_blank s :
  forallb PyStr.isspace s = true -> PyStr.split s = [].
Proof.
  unfold PyStr.split. induction s as [|c s IH]; [done|].
  cbn [forallb PyStr.split_from]. intros [Hc Hs]%andb_prop.
  rewrite Hc. by apply IH.
Qed.

Lemma foldM_append_Forall2 {A B} (f : A -> result B) l acc r :
  foldM (fun acc a => b ← f a; Ok (acc ++ [b])) l acc = Ok r <->
  exists bs, r = acc ++ bs /\ Forall2 (fun a b => f a = Ok b) l bs.
Proof.
  revert acc. induction l as [|a l IH]; intros acc; simpl.
  - split.
    + intros [= <-]. exists []. by rewrite app_nil_r.
    + intros (bs & -> & Hbs). inversion Hbs. by rewrite app_nil_r.
  - split.
    + intros H. apply bind_Ok in H as (acc' & Hacc & H).
      apply bind_Ok in Hacc as (b & Hb & [= <-]).
      apply IH in H as (bs & -> & Hbs). exists (b :: bs).
      split; [by rewrite <- app_assoc | by constructor].
    + intros (bs & -> & Hbs). inversion Hbs as [|? b ? bs' Hb Hbs']; subst.
      rewrite Hb. simpl. apply IH. exists bs'.
      split; [by rewrite <- app_assoc | done].
Qed.

Lemma lower_symbol_not_space c :
  is_lower_symbol c = true -> PyStr.isspace c = false.
Proof. destruct c as [[] [] [] [] [] [] [] []]; by vm_compute. Qed.

Lemma lower_char_alphabet c :
  PyStr.In_list c alphabet = true -> PyStr.lower_char c = c.
Proof. destruct c as [[] [] [] [] [] [] [] []]; by vm_compute. Qed.

Lemma letters_of_clean l :
  Forall (fun c => c ∈ alphabet) l ->
  letters_of alphabet (PyStr.lower l) = l.
Proof.
  induction 1 as [|c l Hc%In_list_spec _ IH]; [done|].
  unfold letters_of, PyStr.lower in *. cbn [map List.filter].
  rewrite (lower_char_alphabet c Hc), Hc. by rewrite IH.
Qed.

Section Sentences.
Context {Sc : Score}.

Lemma viterbi_token hmm w d :
  hmm_alphabet hmm = alphabet ->
  w ≠ [] /\ Forall (fun c => PyStr.isspace c = false) w ->
  viterbi w hmm = Ok d ->
  d ≠ [] /\ Forall (fun c => PyStr.isspace c = false) d.
Proof.
  intros Habc Hw Hd.
  destruct (letters_of alphabet (PyStr.lower w)) as [|c l] eqn:E.
  - unfold viterbi in Hd. rewrite Habc, E in Hd. by injection Hd as <-.
  - split.
    + apply viterbi_length_Ok in Hd; [|rewrite Habc, E; done].
      rewrite Habc, E in Hd. by destruct d.
    + destruct (viterbi_lowercases_Ok hmm Habc) as [Hlow _].
      eapply Forall_impl; [apply (Hlow w d); [by rewrite E | done]|].
      intros x. apply lower_symbol_not_space.
Qed.

(** X18: The words of the corrected sentence are the decodings of the words of
    the text, one for one and in order: splitting the result of
    [correct_sentence] gives back what [viterbi] returned for each word. *)
Theorem correct_sentence_words text hmm out :
  hmm_alphabet hmm = alphabet ->
  correct_sentence text hmm = Ok out ->
  Forall2 (fun word corrected_word => viterbi word hmm = Ok corrected_word)
          (PyStr.split text) (PyStr.split out).
Proof.
  intros Habc H. unfold correct_sentence in H.
  apply bind_Ok in H as (corrected & Hfold & [= <-]).
  apply foldM_append_Forall2 in Hfold as (bs & -> & Hbs). cbn [app].
  rewrite split_join; [done|].
  pose proof (split_tokens text) as Htok.
  induction Hbs as [|w d ws ds Hd _ IH]; [done|].
  apply Forall_cons in Htok as [Hw Htok].
  constructor; [by eapply viterbi_token | by apply IH].
Qed.

(** X19: A text without a word (empty, or whitespace only) is corrected to the
    empty string, whatever the model. *)
Theorem correct_sentence_blank text hmm :
  forallb PyStr.isspace text = true -> correct_sentence text hmm = Ok [].
Proof.
  intros H. unfold correct_sentence. by rewrite split_blank.
Qed.

(** X17: Decoding a word and decoding its cleaned form (lowercased, alphabet
    symbols only) give the same result, when the cleaned form is not
    empty. *)
Theorem viterbi_cleaned_word observations hmm :
  hmm_alphabet hmm = alphabet ->
  letters_of alphabet (PyStr.lower observations) ≠ [] ->
  viterbi (letters_of alphabet (PyStr.lower observations)) hmm
  = viterbi observations hmm.
Proof.
  intros Habc Hne. unfold viterbi. rewrite Habc.
  rewrite letters_of_clean by apply letters_of_Forall.
  by destruct (letters_of alphabet (PyStr.lower observations)).
Qed.

End Sentences.

Lemma correct_sentence_words_witness :
  Forall2 (fun word corrected_word =>
             @viterbi ZScore word sample_hmm = Ok corrected_word)
          (PyStr.split (chars "  teh  dog 12 "))
          (PyStr.split (chars "the dog 12")).
Proof.
  apply (@correct_sentence_words ZScore (chars "  teh  dog 12 ") sample_hmm).
  - reflexivity.
  - vm_compute. reflexivity.
Defined.

Lemma correct_sentence_blank_witness :
  @correct_sentence ZScore (chars "   ") sample_hmm = Ok [].
Proof. apply (@correct_sentence_blank ZScore). reflexivity. Defined.

Lemma viterbi_cleaned_word_witness :
  @viterbi ZScore (letters_of alphabet (PyStr.lower (chars "Recieve!")))
     sample_hmm
  = @viterbi ZScore (chars "Recieve!") sample_hmm.
Proof.
  apply (@viterbi_cleaned_word ZScore).
  - reflexivity.
  - vm_compute. discriminate.
Defined.

(** X20: On a trained model, with real arithmetic, [correct_sentence] returns a
    string for every text whose words are within the length bound of the
    decoder. *)
Theorem correct_sentence_trained_returns lines text :
  Forall (fun word =>
            (2 * Z.of_nat (length (letters_of alphabet (PyStr.lower word)))
             * (100 * Z.of_nat (count_bound (learn_lines lines)) + 27)
             <= 1000000000)%Z)
         (PyStr.split text) ->
  exists out, @correct_sentence RScore text (train lines) = Ok out.
Proof.
  intros Hall. unfold correct_sentence.
  destruct (Forall2_choice
              (fun word d => @viterbi RScore word (train lines) = Ok d)
              (PyStr.split text)) as [ds Hds].
  { intros word Hword. rewrite Forall_forall in Hall.
    specialize (Hall word Hword). cbn beta in Hall.
    destruct (letters_of alphabet (PyStr.lower word)) as [|c l] eqn:E.
    - exists word. unfold viterbi.
      cbn [hmm_alphabet train hmm_of_counts]. by rewrite E.
    - apply viterbi_trained_returns; by rewrite E. }
  rewrite (proj2 (foldM_append_Forall2
                    (fun word => @viterbi RScore word (train lines))
                    (PyStr.split text) [] ds)).
  - by eexists.
  - by exists ds.
Qed.

Lemma correct_sentence_trained_returns_witness :
  exists out,
    @correct_sentence RScore (chars "teh dog") (train sample_corpus) = Ok out.
Proof.
  apply (correct_sentence_trained_returns sample_corpus (chars "teh dog")).
  change (PyStr.split (chars "teh dog")) with [chars "teh"; chars "dog"].
  constructor; [vm_compute; discriminate|].
  constructor; [vm_compute; discriminate | constructor].
Defined.

(** ** The interactive loop *)

Lemma lstrip_blank s : forallb PyStr.isspace s = true -> PyStr.lstrip s = [].
Proof.
  induction s as [|c s IH]; [done|]. cbn [forallb PyStr.lstrip].
  intros [Hc Hs]%andb_prop. rewrite Hc. by apply IH.
Qed.

Lemma strip_blank s : forallb PyStr.isspace s = true -> PyStr.strip s = [].
Proof. intros H. unfold PyStr.strip. by rewrite (lstrip_blank s H). Qed.

(** X21: A session of the interactive loop: for each line typed before the
    first blank one the loop writes the prompt and one line
    [Corrected: ...] with the corrected sentence of the stripped line; at the
    blank line it writes the prompt and [Goodbye!] and stops, and the lines
    after it are never read. *)
Theorem interactive_loop_session {Sc : Score} hmm lines outs blank rest :
  Forall2 (fun line corrected =>
             PyStr.strip line <> []
             /\ correct_sentence (PyStr.strip line) hmm = Ok corrected)
          lines outs ->
  forallb PyStr.isspace blank = true ->
  interactive_loop hmm (lines ++ blank :: rest)
  = (concat ((fun corrected =>
                [prompt; print (chars "Corrected: " ++ corrected)])
             <$> outs)
     ++ [prompt; print (chars "Goodbye!")],
     Quit).
Proof.
  intros Hlines Hblank.
  induction Hlines as [|line corrected lines outs [Hne Hc] _ IH].
  - cbn [app interactive_loop]. by rewrite strip_blank.
  - cbn [app interactive_loop]. cbv zeta.
    destruct (PyStr.strip line) as [|c text] eqn:E; [done|].
    rewrite Hc, IH. reflexivity.
Qed.

Lemma interactive_loop_session_witness :
  @interactive_loop ZScore sample_hmm
     ([chars "teh dog "] ++ chars "  " :: [chars "recieve"])
  = (concat ((fun corrected =>
                [prompt; print (chars "Corrected: " ++ corrected)])
             <$> [chars "the dog"])
     ++ [prompt; print (chars "Goodbye!")],
     Quit).
Proof.
  apply (@interactive_loop_session ZScore).
  - constructor; [|constructor]. split; [vm_compute; discriminate|].
    vm_compute. reflexivity.
  - reflexivity.
Defined.

(** ** Training on two corpora *)

Lemma occurrences_app {A} `{EqDecision A} (x : A) (l1 l2 : list A) :
  occurrences x (l1 ++ l2) = occurrences x l1 + occurrences x l2.
Proof. induction l1 as [|y l1 IH]; simpl; [done|]. rewrite IH. lia. Qed.

(** X22: Training on one corpus after another adds the counts up: every raw
    emission, transition and start count of the concatenated corpus is the
    sum of the counts of the two corpora. *)
Theorem counts_of_concatenation lines1 lines2 a b :
  counter_get (dd_get (emission_counts (learn_lines (lines1 ++ lines2))) a) b
  = counter_get (dd_get (emission_counts (learn_lines lines1)) a) b
    + counter_get (dd_get (emission_counts (learn_lines lines2)) a) b
  /\ counter_get
       (dd_get (transition_counts (learn_lines (lines1 ++ lines2))) a) b
     = counter_get (dd_get (transition_counts (learn_lines lines1)) a) b
       + counter_get (dd_get (transition_counts (learn_lines lines2)) a) b
  /\ counter_get (start_counts (learn_lines (lines1 ++ lines2))) a
     = counter_get (start_counts (learn_lines lines1)) a
       + counter_get (start_counts (learn_lines lines2)) a.
Proof.
  unfold learn_lines. rewrite !fold_learn_line.
  cbn [emission_counts transition_counts start_counts no_counts].
  rewrite !dd_get_incr_pairs, !counter_get_incr_keys.
  rewrite !fmap_app, !concat_app, !occurrences_app.
  unfold dd_get, counter_get. rewrite !lookup_empty. cbn [default].
  rewrite !lookup_empty. cbn [default]. lia.
Qed.
